(** * go-zfs: property parsing and command-argument encoding

    A shallow embedding of [properties.go], the dataset and pool wrappers
    and the manager entry points that consume [parseTabular], together with
    the properties of them that the specification states. The rest of the
    package follows: the remaining operations of the manager, the getters
    that do more than delegate, the builders of property names and [Join],
    with further properties read off the code.

    Go strings and byte slices are byte sequences; both are modelled by
    [string] (a list of 8-bit [ascii] characters), so [string(line)] is the
    identity. Go maps are [gmap]s; where the result of a loop over a map can
    depend on the iteration order, the loop is modelled over the list of
    entries in the order the runtime happens to visit them. *)

From Stdlib Require Import ZArith String Ascii List Lia DecimalString DecimalN
  DecimalPos.
From stdpp Require Import gmap strings list fin_maps sorting.


(** * Part I: the model *)

(** ** Bytes and the string functions of the Go standard library *)

Module GoBytes.

Definition LF : ascii := "010"%char.
Definition TAB : ascii := "009"%char.

(** A Go [byte] is a [uint8]. *)
Definition byte_val (a : ascii) : Z := Z.of_N (N_of_ascii a).

Definition byte_in (lo hi : Z) (a : ascii) : bool :=
  (lo <=? byte_val a)%Z && (byte_val a <=? hi)%Z.

Definition byte_is (v : Z) (a : ascii) : bool := (byte_val a =? v)%Z.

Definition is_digit : ascii -> bool := byte_in 48 57.
Definition is_upper : ascii -> bool := byte_in 65 90.
Definition is_lower : ascii -> bool := byte_in 97 122.
Definition is_letter (a : ascii) : bool := is_upper a || is_lower a.
Definition digit_val (a : ascii) : Z := (byte_val a - 48)%Z.

Definition byte_of (v : Z) : ascii := ascii_of_N (Z.to_N v).

(** [bytes.Split(s, []byte{c})] and [strings.Split(s, string(c))] for a
    one-byte separator: the pieces between the occurrences of [c], so the
    result always has one more element than [s] has separators. *)
Fixpoint split_on (c : ascii) (s : string) : list string :=
  match s with
  | EmptyString => [EmptyString]
  | String a s' =>
      if Ascii.eqb a c then EmptyString :: split_on c s'
      else match split_on c s' with
           | [] => [String a EmptyString]
           | w :: ws => String a w :: ws
           end
  end.

(** [strings.Join(l, string(c))]. *)
Fixpoint join_with (c : ascii) (l : list string) : string :=
  match l with
  | [] => EmptyString
  | [w] => w
  | w :: ws => w +:+ String c (join_with c ws)
  end.

(** [bytes.Join(l, sep)]. *)
Fixpoint join_sep (sep : string) (l : list string) : string :=
  match l with
  | [] => EmptyString
  | [w] => w
  | w :: ws => w +:+ sep +:+ join_sep sep ws
  end.

Fixpoint count_byte (c : ascii) (s : string) : nat :=
  match s with
  | EmptyString => 0
  | String a s' => (if Ascii.eqb a c then 1 else 0) + count_byte c s'
  end.

Fixpoint has_byte (c : ascii) (s : string) : bool :=
  match s with
  | EmptyString => false
  | String a s' => Ascii.eqb a c || has_byte c s'
  end.

Fixpoint all_bytes (f : ascii -> bool) (s : string) : bool :=
  match s with
  | EmptyString => true
  | String a s' => f a && all_bytes f s'
  end.

Fixpoint drop_while (f : ascii -> bool) (s : string) : string :=
  match s with
  | EmptyString => EmptyString
  | String a s' => if f a then drop_while f s' else s
  end.

Fixpoint take_while (f : ascii -> bool) (s : string) : string :=
  match s with
  | EmptyString => EmptyString
  | String a s' => if f a then String a (take_while f s') else EmptyString
  end.

Fixpoint filter_bytes (f : ascii -> bool) (s : string) : string :=
  match s with
  | EmptyString => EmptyString
  | String a s' =>
      if f a then String a (filter_bytes f s') else filter_bytes f s'
  end.

Fixpoint map_bytes (f : ascii -> ascii) (s : string) : string :=
  match s with
  | EmptyString => EmptyString
  | String a s' => String (f a) (map_bytes f s')
  end.

(** The last byte of a string, when it has one. *)
Fixpoint last_byte (s : string) : option ascii :=
  match s with
  | EmptyString => None
  | String a EmptyString => Some a
  | String _ s' => last_byte s'
  end.

(** The string without its last byte. *)
Fixpoint but_last (s : string) : string :=
  match s with
  | EmptyString => EmptyString
  | String _ EmptyString => EmptyString
  | String a s' => String a (but_last s')
  end.

(** [s[0:i]] where [i = bytes.Index(s, pat)], and [s] when [pat] does not
    occur. *)
Fixpoint cut_before (pat s : string) : string :=
  if String.prefix pat s then EmptyString
  else match s with
       | EmptyString => EmptyString
       | String a s' => String a (cut_before pat s')
       end.

End GoBytes.

Import GoBytes.

Module GoStrings.

(** White space as [unicode.IsSpace] has it. In ASCII: TAB, LF, VT, FF, CR
    and the space. *)
Definition is_ascii_space (a : ascii) : bool := byte_in 9 13 a || byte_is 32 a.

(** The two-byte white-space runes U+0085 and U+00A0 in UTF-8. *)
Definition space_rune2 (a b : ascii) : bool :=
  byte_is 194 a && (byte_is 133 b || byte_is 160 b).

(** The three-byte white-space runes in UTF-8: U+1680, U+2000 to U+200A,
    U+2028, U+2029, U+202F, U+205F and U+3000. *)
Definition space_rune3 (a b c : ascii) : bool :=
  (byte_is 225 a && byte_is 154 b && byte_is 128 c)
  || (byte_is 226 a && byte_is 128 b
      && (byte_in 128 138 c || byte_is 168 c || byte_is 169 c || byte_is 175 c))
  || (byte_is 226 a && byte_is 129 b && byte_is 159 c)
  || (byte_is 227 a && byte_is 128 b && byte_is 128 c).

(** [strings.TrimLeftFunc(s, unicode.IsSpace)]: white-space runes are
    decoded and dropped from the front until one is not white space. *)
Fixpoint trim_left (s : string) : string :=
  match s with
  | EmptyString => EmptyString
  | String a s1 =>
      if is_ascii_space a then trim_left s1
      else match s1 with
           | String b s2 =>
               if space_rune2 a b then trim_left s2
               else match s2 with
                    | String c s3 =>
                        if space_rune3 a b c then trim_left s3 else s
                    | EmptyString => s
                    end
           | EmptyString => s
           end
  end.

(** The same from the back, on the reversed string: the bytes of a rune
    arrive last byte first. *)
Fixpoint trim_left_rev (s : string) : string :=
  match s with
  | EmptyString => EmptyString
  | String c s1 =>
      if is_ascii_space c then trim_left_rev s1
      else match s1 with
           | String b s2 =>
               if space_rune2 b c then trim_left_rev s2
               else match s2 with
                    | String a s3 =>
                        if space_rune3 a b c then trim_left_rev s3 else s
                    | EmptyString => s
                    end
           | EmptyString => s
           end
  end.

Definition trim_right (s : string) : string :=
  String.rev (trim_left_rev (String.rev s)).

(** [strings.TrimSpace] and [bytes.TrimSpace]. *)
Definition TrimSpace (s : string) : string := trim_right (trim_left s).

(** [strings.TrimSuffix(s, string(c))] for a one-byte suffix. *)
Definition TrimSuffix (s : string) (c : ascii) : string :=
  match last_byte s with
  | Some a => if Ascii.eqb a c then but_last s else s
  | None => s
  end.

(** [strings.ToLower] on ASCII text: the letters A to Z move to a to z and
    every other byte stays. Bytes from 128 on, which Go reads as UTF-8, are
    left as they are by this model. *)
Definition lower_byte (a : ascii) : ascii :=
  if is_upper a then byte_of (byte_val a + 32) else a.

Definition ToLower (s : string) : string := map_bytes lower_byte s.

End GoStrings.

Module GoStrconv.

(** The value of a run of decimal digits, [None] at the first other byte. *)
Fixpoint digits_from (acc : Z) (s : string) : option Z :=
  match s with
  | EmptyString => Some acc
  | String a s' =>
      if is_digit a then digits_from (10 * acc + digit_val a)%Z s' else None
  end.

(** [strconv.ParseUint(s, 10, 64)]: digits only, not empty, below 2^64;
    [None] is a non-nil error. *)
Definition ParseUint (s : string) : option Z :=
  match s with
  | EmptyString => None
  | _ =>
      match digits_from 0 s with
      | Some n => if (n <? 2 ^ 64)%Z then Some n else None
      | None => None
      end
  end.

(** [strconv.ParseInt(s, 10, 64)]: an optional sign, then [ParseUint], and
    the range check of [int64]. *)
Definition ParseInt (s : string) : option Z :=
  match s with
  | EmptyString => None
  | String a s' =>
      let neg := byte_is 45 a in
      let body := if byte_is 43 a || byte_is 45 a then s' else s in
      match body with
      | EmptyString => None
      | _ =>
          match digits_from 0 body with
          | Some un =>
              if negb neg && (2 ^ 63 <=? un)%Z then None
              else if neg && (2 ^ 63 <? un)%Z then None
              else Some (if neg then - un else un)%Z
          | None => None
          end
      end
  end.

End GoStrconv.

(** ** Non-negative [float64] values, in exact integer arithmetic

    [humanize.ParseBytes] goes through [float64]. Only non-negative values
    occur; a finite one is kept as mantissa and binary exponent, [Fin m e]
    standing for [m * 2^e], and every operation rounds the exact result to
    the nearest value with a 53-bit mantissa, ties to even (IEEE 754
    binary64, with its subnormals and its overflow to infinity). *)

Module Float64.

Inductive t : Type :=
| Fin (m e : Z)
| Inf.

(** [n / d] rounded to the nearest integer, ties to the even one. *)
Definition div_nearest_even (n d : Z) : Z :=
  let k := (n / d)%Z in
  let r := (n mod d)%Z in
  if (2 * r <? d)%Z then k
  else if (d <? 2 * r)%Z then (k + 1)%Z
  else if Z.even k then k else (k + 1)%Z.

(** The binary64 value nearest to [p / q], for [0 <= p] and [0 < q]. *)
Definition round (p q : Z) : t :=
  if (p =? 0)%Z then Fin 0%Z 0%Z
  else
    let l := (Z.log2 p - Z.log2 q)%Z in
    let e := if (p * 2 ^ Z.max 0%Z (- l) <? q * 2 ^ Z.max 0%Z l)%Z
             then (l - 1)%Z else l in
    let ex := Z.max (e - 52) (-1074)%Z in
    let m := div_nearest_even (p * 2 ^ Z.max 0%Z (- ex)) (q * 2 ^ Z.max 0%Z ex) in
    if (1024 <=? Z.log2 m + ex)%Z then Inf else Fin m ex.

(** [float64(n)] for an unsigned integer [n]. *)
Definition of_uint (n : Z) : t := round n 1%Z.

(** The product [f * g]. *)
Definition mul (f g : t) : t :=
  match f, g with
  | Fin m1 e1, Fin m2 e2 =>
      let e := (e1 + e2)%Z in
      round (m1 * m2 * 2 ^ Z.max 0%Z e) (2 ^ Z.max 0%Z (- e))
  | _, _ => Inf
  end.

(** [f >= g] for an integer-valued bound [g = n]. *)
Definition geb_int (f : t) (n : Z) : bool :=
  match f with
  | Fin m e => (n <=? Z.shiftl m e)%Z
  | Inf => true
  end.

(** [uint64(f)] for [f] below 2^64: the integer part. *)
Definition to_uint (f : t) : Z :=
  match f with
  | Fin m e => Z.shiftl m e
  | Inf => 0%Z
  end.

End Float64.

Module GoHumanize.
Import GoStrings.

(** The bytes [ParseBytes] takes for the number: decimal digits, the point
    and the comma. ([unicode.IsDigit] also accepts the decimal digits of
    other scripts; the model reads ASCII text.) *)
Definition is_number_byte (a : ascii) : bool :=
  is_digit a || byte_is 46 a || byte_is 44 a.

(** Reads [digits [. digits]]; the result [(p, k)] stands for [p / 10^k]. *)
Fixpoint read_decimal (sawdot sawdigits : bool) (p k : Z) (s : string)
  : option (Z * Z) :=
  match s with
  | EmptyString => if sawdigits then Some (p, k) else None
  | String a s' =>
      if is_digit a then
        read_decimal sawdot true (10 * p + digit_val a)%Z
                     (if sawdot then k + 1 else k)%Z s'
      else if byte_is 46 a then
        if sawdot then None else read_decimal true sawdigits p k s'
      else None
  end.

(** [strconv.ParseFloat(num, 64)] on the text [ParseBytes] hands to it,
    which holds digits and points only: at least one digit, at most one
    point, and a value that does not round to infinity. *)
Definition ParseFloat (num : string) : option Float64.t :=
  match read_decimal false false 0%Z 0%Z num with
  | Some (p, k) =>
      match Float64.round p (10 ^ k) with
      | Float64.Inf => None
      | f => Some f
      end
  | None => None
  end.

(** [bytesSizeTable] of go-humanize 1.0.0. *)
Definition bytesSizeTable (unit : string) : option Z :=
  if String.eqb unit "b" then Some 1%Z
  else if String.eqb unit "kib" then Some (2 ^ 10)%Z
  else if String.eqb unit "kb" then Some (10 ^ 3)%Z
  else if String.eqb unit "mib" then Some (2 ^ 20)%Z
  else if String.eqb unit "mb" then Some (10 ^ 6)%Z
  else if String.eqb unit "gib" then Some (2 ^ 30)%Z
  else if String.eqb unit "gb" then Some (10 ^ 9)%Z
  else if String.eqb unit "tib" then Some (2 ^ 40)%Z
  else if String.eqb unit "tb" then Some (10 ^ 12)%Z
  else if String.eqb unit "pib" then Some (2 ^ 50)%Z
  else if String.eqb unit "pb" then Some (10 ^ 15)%Z
  else if String.eqb unit "eib" then Some (2 ^ 60)%Z
  else if String.eqb unit "eb" then Some (10 ^ 18)%Z
  else if String.eqb unit "" then Some 1%Z
  else if String.eqb unit "ki" then Some (2 ^ 10)%Z
  else if String.eqb unit "k" then Some (10 ^ 3)%Z
  else if String.eqb unit "mi" then Some (2 ^ 20)%Z
  else if String.eqb unit "m" then Some (10 ^ 6)%Z
  else if String.eqb unit "gi" then Some (2 ^ 30)%Z
  else if String.eqb unit "g" then Some (10 ^ 9)%Z
  else if String.eqb unit "ti" then Some (2 ^ 40)%Z
  else if String.eqb unit "t" then Some (10 ^ 12)%Z
  else if String.eqb unit "pi" then Some (2 ^ 50)%Z
  else if String.eqb unit "p" then Some (10 ^ 15)%Z
  else if String.eqb unit "ei" then Some (2 ^ 60)%Z
  else if String.eqb unit "e" then Some (10 ^ 18)%Z
  else None.

(** [humanize.ParseBytes(s)]; [None] is a non-nil error. The number is the
    longest prefix of number bytes with its commas removed, the unit is
    the rest, trimmed and in lower case; the product is computed in
    [float64], refused from 2^64 on and truncated otherwise. *)
Definition ParseBytes (s : string) : option Z :=
  let num := filter_bytes (fun a => negb (byte_is 44 a))
                          (take_while is_number_byte s) in
  match ParseFloat num with
  | None => None
  | Some f =>
      let extra := ToLower (TrimSpace (drop_while is_number_byte s)) in
      match bytesSizeTable extra with
      | Some m =>
          let f' := Float64.mul f (Float64.of_uint m) in
          if Float64.geb_int f' (2 ^ 64)%Z then None
          else Some (Float64.to_uint f')
      | None => None
      end
  end.

End GoHumanize.

(** ** The [time] package, as far as [parseTime] uses it *)

Module GoTime.

Inductive Location : Type := UTC | Local.

(** A [time.Time] without monotonic reading and with zero nanoseconds:
    [ext] is the number of seconds since January 1 of year 1, 00:00:00 UTC,
    an [int64]. The zero [Time] has [ext = 0] and the UTC location. *)
Record Time : Type := mkTime { ext : Z; loc : Location }.

Definition zero : Time := mkTime 0 UTC.

Definition unixToInternal : Z := 62135596800.

Definition wrap_int64 (x : Z) : Z := ((x + 2 ^ 63) mod 2 ^ 64 - 2 ^ 63)%Z.

(** [time.Unix(sec, 0)]. *)
Definition Unix (sec : Z) : Time :=
  mkTime (wrap_int64 (sec + unixToInternal)) Local.

(** [t.UTC()]. *)
Definition toUTC (t : Time) : Time := mkTime (ext t) UTC.

(** [t.Unix()]. *)
Definition unix_of (t : Time) : Z := wrap_int64 (ext t - unixToInternal).

Definition shortDayNames : list string :=
  ["Sun"; "Mon"; "Tue"; "Wed"; "Thu"; "Fri"; "Sat"].

Definition shortMonthNames : list string :=
  ["Jan"; "Feb"; "Mar"; "Apr"; "May"; "Jun";
   "Jul"; "Aug"; "Sep"; "Oct"; "Nov"; "Dec"].

(** [match(val[0:len(name)], name)] followed by the cut: the bytes agree,
    or agree once bit 5 is set and are then letters; the rest of [val] is
    returned. [None] when [val] is shorter than [name] or differs. *)
Fixpoint match_prefix (name val : string) : option string :=
  match name, val with
  | EmptyString, _ => Some val
  | String _ _, EmptyString => None
  | String c2 name', String c1 val' =>
      if Ascii.eqb c1 c2 then match_prefix name' val'
      else
        let l1 := Z.lor (byte_val c1) 32 in
        let l2 := Z.lor (byte_val c2) 32 in
        if (l1 =? l2)%Z && (97 <=? l1)%Z && (l1 <=? 122)%Z
        then match_prefix name' val' else None
  end.

(** [lookup(tab, val)]: the index of the first name that [val] starts
    with, and the rest of [val]. *)
Fixpoint lookup (tab : list string) (val : string) : option (Z * string) :=
  match tab with
  | [] => None
  | name :: tab' =>
      match match_prefix name val with
      | Some rest => Some (0%Z, rest)
      | None =>
          match lookup tab' val with
          | Some (i, rest) => Some ((i + 1)%Z, rest)
          | None => None
          end
      end
  end.

Definition cutspace (s : string) : string := drop_while (byte_is 32) s.

(** [skip(value, prefix)]: a run of spaces in the layout stands for any
    run of spaces in the value, which must start with one unless it is
    empty; any other byte stands for itself. [in_spaces] says that the
    preceding layout byte was a space of the same run. *)
Fixpoint skip (in_spaces : bool) (value layout_prefix : string)
  : option string :=
  match layout_prefix with
  | EmptyString => Some value
  | String p layout_prefix' =>
      if byte_is 32 p then
        if in_spaces then skip true value layout_prefix'
        else
          match value with
          | String v _ =>
              if byte_is 32 v then skip true (cutspace value) layout_prefix'
              else None
          | EmptyString => skip true value layout_prefix'
          end
      else
        match value with
        | String v value' =>
            if Ascii.eqb v p then skip false value' layout_prefix' else None
        | EmptyString => None
        end
  end.

(** [getnum(s, fixed)]: one or two digits, exactly two when [fixed]. *)
Definition getnum (s : string) (fixed : bool) : option (Z * string) :=
  match s with
  | String a s1 =>
      if is_digit a then
        match s1 with
        | String b s2 =>
            if is_digit b then Some ((digit_val a * 10 + digit_val b)%Z, s2)
            else if fixed then None else Some (digit_val a, s1)
        | EmptyString => if fixed then None else Some (digit_val a, s1)
        end
      else None
  | EmptyString => None
  end.

(** The four-digit year of [stdLongYear]: [value[0:4]] through [atoi]. *)
Definition getyear (s : string) : option (Z * string) :=
  match s with
  | String a (String b (String c (String d rest))) =>
      if is_digit a && is_digit b && is_digit c && is_digit d then
        Some ((((digit_val a * 10 + digit_val b) * 10 + digit_val c) * 10
               + digit_val d)%Z, rest)
      else None
  | _ => None
  end.

Definition isLeap (year : Z) : bool :=
  (year mod 4 =? 0)%Z && (negb (year mod 100 =? 0)%Z || (year mod 400 =? 0)%Z).

(** Days of the year before the first of [month], in a common year. *)
Definition daysBefore (month : Z) : Z :=
  nth (Z.to_nat (month - 1))
      [0; 31; 59; 90; 120; 151; 181; 212; 243; 273; 304; 334; 365]%Z 0%Z.

Definition daysIn (month year : Z) : Z :=
  if (month =? 2)%Z && isLeap year then 29%Z
  else (daysBefore (month + 1) - daysBefore month)%Z.

(** Days from January 1 of year 1 to January 1 of [year], in the proleptic
    Gregorian calendar. *)
Definition daysBeforeYear (year : Z) : Z :=
  let y := (year - 1)%Z in
  (365 * y + y / 4 - y / 100 + y / 400)%Z.

(** [time.Date(year, month, day, hour, min, 0, 0, time.UTC)] for a date
    and a clock that are in range. *)
Definition Date (year month day hour min : Z) : Time :=
  let leapday := if (2 <? month)%Z && isLeap year then 1%Z else 0%Z in
  let days := (daysBeforeYear year + daysBefore month + leapday + (day - 1))%Z in
  mkTime (days * 86400 + hour * 3600 + min * 60)%Z UTC.

(** [time.Parse("Mon Jan _2 15:04 2006", value)], along the chunks into
    which [nextStdChunk] cuts this layout: the weekday name, then after
    spaces the month name, the day, the hour, after a colon the two-digit
    minute, and after spaces the four-digit year, with nothing left over.
    The weekday is read and dropped. [None] is a non-nil error. *)
Definition Parse (value : string) : option Time :=
  '(_, value) ← lookup shortDayNames value;
  value ← skip false value " ";
  '(mi, value) ← lookup shortMonthNames value;
  let month := (mi + 1)%Z in
  value ← skip false value " ";
  '(day, value) ← getnum (match value with
                          | String v value' =>
                              if byte_is 32 v then value' else value
                          | EmptyString => value
                          end) false;
  value ← skip false value " ";
  '(hour, value) ← getnum value false;
  if (24 <=? hour)%Z then None else
  value ← skip false value ":";
  '(min, value) ← getnum value true;
  if (60 <=? min)%Z then None else
  value ← skip false value " ";
  '(year, value) ← getyear value;
  match value with
  | String _ _ => None
  | EmptyString =>
      if (day <? 1)%Z || (daysIn month year <? day)%Z then None
      else Some (Date year month day hour min)
  end.

End GoTime.

(** ** Properties *)

Definition allProperty : string := "all".

(** [Property] represents a single ZFS property. The field the source calls
    [Property] is [Property'] here. *)
Record Property : Type := mkProperty {
  Name : string;
  Property' : string;
  Value : string;
  Source : string
}.

Global Instance Property_eq_dec : EqDecision Property.
Proof. solve_decision. Defined.

(** [type Properties map[string]Property]. *)
Abbreviation Properties := (gmap string Property).

(** The loop appends [strings.Split(string(line), "\t")] for every element of
    [bytes.Split(data, []byte{10})], which is a map over the lines. *)
Definition parseTabular (data : string) : list (list string) :=
  map (split_on TAB) (split_on LF data).

(** One turn of the loop of [newProperties]. *)
Definition newProperties_step (r : gmap string Properties)
    (record : list string) : gmap string Properties :=
  match record with
  | [name; prop; value; source] =>
      if decide (name = "") then r
      else
        let inner := default ∅ (r !! name) in
        <[name := <[prop := mkProperty name prop value source]> inner]> r
  | _ => r
  end.

Definition newProperties (records : list (list string))
  : gmap string Properties :=
  foldl newProperties_step ∅ records.

(** [zfsIECSizeRegexp], [^([0-9]+)\s*([a-zA-Z])$]: one or more digits, any
    white space of the class [\s] (TAB, LF, FF, CR, space), one letter, and
    the end of the text. The three classes are disjoint, so taking each run
    as long as it goes decides the match. *)
Definition is_regexp_space (a : ascii) : bool :=
  byte_is 9 a || byte_is 10 a || byte_is 12 a || byte_is 13 a || byte_is 32 a.

Definition zfsIECSizeRegexp_MatchString (s : string) : bool :=
  match s with
  | String a _ =>
      is_digit a
      && match drop_while is_regexp_space (drop_while is_digit s) with
         | String l EmptyString => is_letter l
         | _ => false
         end
  | EmptyString => false
  end.

Definition parseSize (size : string) : option Z :=
  let s := GoStrings.TrimSpace size in
  let s := if zfsIECSizeRegexp_MatchString s then s +:+ "iB" else s in
  GoHumanize.ParseBytes s.

Definition parseBool (str : string) : bool :=
  if decide (str ∈ ["on"; "On"; "ON"; "enabled"; "Enabled"; "ENABLED"])
  then true else false.

(** The pair [(t.UTC(), err)] that [parseTime] returns; the accessor looks
    at the time only when the error is nil, which is [Some] here. *)
Definition parseTime (str : string) : option GoTime.Time :=
  let str := GoStrings.TrimSpace str in
  match GoStrconv.ParseInt str with
  | Some v => Some (GoTime.toUTC (GoTime.Unix v))
  | None =>
      match GoTime.Parse str with
      | Some t => Some (GoTime.toUTC t)
      | None => None
      end
  end.

(** The typed accessors. Each returns the value and the presence flag. *)
Module Properties.

Definition String (p : Properties) (property : string) : string * bool :=
  match p !! property with
  | Some prop =>
      if decide (Value prop ≠ "-") then (Value prop, true) else ("", false)
  | None => ("", false)
  end.

Definition Bytes (p : Properties) (property : string) : Z * bool :=
  match p !! property with
  | Some prop =>
      if decide (Value prop ≠ "-") then
        match parseSize (Value prop) with
        | Some r => (r, true)
        | None => (0%Z, false)
        end
      else (0%Z, false)
  | None => (0%Z, false)
  end.

Definition Percent (p : Properties) (property : string) : Z * bool :=
  match p !! property with
  | Some prop =>
      if decide (Value prop ≠ "-") then
        let v := GoStrings.TrimSuffix (Value prop) "%" in
        match GoStrconv.ParseUint v with
        | Some r => (r, true)
        | None => (0%Z, false)
        end
      else (0%Z, false)
  | None => (0%Z, false)
  end.

Section Ratio.
(** [strconv.ParseFloat(v, 64)] on arbitrary text, with the type of its
    results and the zero of that type; [None] is a non-nil error. *)
Context {float64 : Type} (float64_zero : float64).
Variable strconv_ParseFloat : string -> option float64.

Definition Ratio (p : Properties) (property : string) : float64 * bool :=
  match p !! property with
  | Some prop =>
      if decide (Value prop ≠ "-") then
        let v := GoStrings.TrimSuffix (Value prop) "x" in
        match strconv_ParseFloat v with
        | Some r => (r, true)
        | None => (float64_zero, false)
        end
      else (float64_zero, false)
  | None => (float64_zero, false)
  end.
End Ratio.

Definition Bool (p : Properties) (property : string) : bool * bool :=
  match p !! property with
  | Some prop =>
      if decide (Value prop ≠ "" ∧ Value prop ≠ "-")
      then (parseBool (Value prop), true) else (false, false)
  | None => (false, false)
  end.

Definition Time (p : Properties) (property : string) : GoTime.Time * bool :=
  match p !! property with
  | Some prop =>
      if decide (Value prop ≠ "" ∧ Value prop ≠ "-") then
        match parseTime (Value prop) with
        | Some v => (v, true)
        | None => (GoTime.zero, false)
        end
      else (GoTime.zero, false)
  | None => (GoTime.zero, false)
  end.

Definition Uint64 (p : Properties) (property : string) : Z * bool :=
  match p !! property with
  | Some prop =>
      if decide (Value prop ≠ "" ∧ Value prop ≠ "-") then
        match GoStrconv.ParseUint (Value prop) with
        | Some r => (r, true)
        | None => (0%Z, false)
        end
      else (0%Z, false)
  | None => (0%Z, false)
  end.

End Properties.

(** ** The command-argument encoder *)

(** [sort.Strings]: the strings in increasing byte-wise order. That order is
    total and antisymmetric, so every sorting algorithm returns the same
    list; merge sort computes it here. *)
Definition sort_Strings (l : list string) : list string :=
  merge_sort String.le l.

(** [fmt.Sprintf("%s=%s", key, prop)]. *)
Definition name_value (kv : string * string) : string :=
  kv.1 +:+ "=" +:+ kv.2.

(** [propertyMapFlags] on the entries of the map in the order in which the
    [range] loop visits them. *)
Definition propertyMapFlags_in_order (flag : string)
    (entries : list (string * string)) : list string :=
  let props := sort_Strings (map name_value entries) in
  flat_map (fun prop => [flag; prop]) props.

Definition propertyMapFlags (flag : string) (properties : gmap string string)
  : list string :=
  propertyMapFlags_in_order flag (map_to_list properties).

(** ** Dataset and pool wrappers *)

Record Dataset : Type := mkDataset {
  Dataset_Properties : Properties;
  Dataset_Name : string
}.

Record Pool : Type := mkPool {
  Pool_Name : string;
  Pool_Properties : Properties
}.

(** The loop shared by [NewDataset] and [newPool], over the entries of
    [properties] in the order in which [range] visits them: a property whose
    [Name] is [name] is stored under its own [Property] field. *)
Definition filter_step (name : string) (props : Properties)
    (entry : string * Property) : Properties :=
  let prop := entry.2 in
  if decide (Name prop = name) then <[Property' prop := prop]> props else props.

Definition NewDataset_in_order (name : string)
    (entries : list (string * Property)) : Dataset :=
  mkDataset (foldl (filter_step name) ∅ entries) name.

Definition newPool_in_order (name : string)
    (entries : list (string * Property)) : Pool :=
  mkPool name (foldl (filter_step name) ∅ entries).

Definition NewDataset (name : string) (properties : Properties) : Dataset :=
  NewDataset_in_order name (map_to_list properties).

Definition newPool (name : string) (properties : Properties) : Pool :=
  newPool_in_order name (map_to_list properties).

(** ** The manager *)

(** The sentinel errors of [manager.go], and the error a failed command
    comes back with: its cause and the tidied standard error text. An error
    value is the list of the errors that [multierr] combined. *)
Inductive error_item : Type :=
| ErrZFS
| ErrZpool
| ErrInvalidName
| ErrInvalidProperty
| ErrInvalidCreateOptions
| CommandError (cause : string) (stderr : string).

Abbreviation error := (list error_item).

Definition errInvalidDatasetName : error := [ErrZFS; ErrInvalidName].
Definition errInvalidDatasetProperty : error := [ErrZFS; ErrInvalidProperty].
Definition errInvalidPoolName : error := [ErrZpool; ErrInvalidName].
Definition errInvalidPoolProperty : error := [ErrZpool; ErrInvalidProperty].

(** What one call of [Runner.RunContext] leaves behind: the bytes written to
    the two buffers and the returned error. *)
Record RunResult : Type := mkRunResult {
  run_stdout : string;
  run_stderr : string;
  run_err : option string
}.

(** A [Manager] holds the runner, which is given the command name and its
    arguments. *)
Record Manager : Type := mkManager {
  Runner : string -> list string -> RunResult
}.

Definition cleanUpStderr (stderr : string) : string :=
  let stderr := cut_before (String LF "usage:" +:+ String LF "") stderr in
  let lines := split_on LF (GoStrings.TrimSpace stderr) in
  let out := filter (fun v => v ≠ "") (map GoStrings.TrimSpace lines) in
  join_sep ": " out.

(** [m.zfs] and [m.zpool]: the records of the output, or the error. *)
Definition run_tabular (tool_err : error_item) (cmd : string) (m : Manager)
    (args : list string) : list (list string) + error :=
  let r := Runner m cmd args in
  match run_err r with
  | Some e => inr [tool_err; CommandError e (cleanUpStderr (run_stderr r))]
  | None => inl (parseTabular (run_stdout r))
  end.

Definition zfs : Manager -> list string -> list (list string) + error :=
  run_tabular ErrZFS "zfs".

Definition zpool : Manager -> list string -> list (list string) + error :=
  run_tabular ErrZpool "zpool".

Definition validDatasetName (name : string) : bool :=
  match name with
  | EmptyString => false
  | String first _ =>
      negb (byte_is 47 first)
      && match last_byte name with
         | Some l => negb (byte_is 47 l)
         | None => false
         end
  end.

Definition validPoolName (name : string) : bool :=
  match name with
  | EmptyString => false
  | _ => negb (has_byte "/"%char name)
  end.

(** What a call does: it returns its results, or it panics (an index out of
    range). *)
Inductive outcome (A : Type) : Type :=
| Returns (a : A)
| Panics.
Arguments Returns {A} a.
Arguments Panics {A}.

(** [records[0][0]]. *)
Definition first_field (records : list (list string)) : outcome string :=
  match records with
  | (field :: _) :: _ => Returns field
  | _ => Panics
  end.

(** The shared body of [GetDatasetProperty] and [GetPoolProperty] once the
    name is known to be valid. *)
Definition get_property (run : list string -> list (list string) + error)
    (errProperty : error) (name property : string)
  : outcome (string * option error) :=
  if decide (property = "" ∨ property = allProperty)
  then Returns ("", Some errProperty)
  else
    match run ["get"; "-Hp"; "-o"; "value"; property; name] with
    | inr err => Returns ("", Some err)
    | inl records =>
        match first_field records with
        | Returns v => Returns (v, None)
        | Panics => Panics
        end
    end.

Definition GetDatasetProperty (m : Manager) (name property : string)
  : outcome (string * option error) :=
  if negb (validDatasetName name) then Returns ("", Some errInvalidDatasetName)
  else get_property (zfs m) errInvalidDatasetProperty name property.

Definition GetPoolProperty (m : Manager) (name property : string)
  : outcome (string * option error) :=
  if negb (validPoolName name) then Returns ("", Some errInvalidPoolName)
  else get_property (zpool m) errInvalidPoolProperty name property.

(** The returned error of a call that has no other result. *)
Definition error_of (r : list (list string) + error) : option error :=
  match r with
  | inl _ => None
  | inr err => Some err
  end.

Definition SetDatasetProperty (m : Manager) (name property value : string)
  : option error :=
  if negb (validDatasetName name) then Some errInvalidDatasetName
  else if decide (property = "" ∨ property = allProperty)
  then Some errInvalidDatasetProperty
  else error_of (zfs m ["set"; name_value (property, value); name]).

Record CreateDatasetOptions : Type := mkCreateDatasetOptions {
  cdo_Name : string;
  cdo_Properties : gmap string string;
  cdo_CreateParents : bool;
  cdo_Unmounted : bool;
  cdo_VolumeSize : string;
  cdo_BlockSize : string;
  cdo_Sparse : bool
}.

(** The argument list [CreateDataset] builds for valid options. *)
Definition CreateDataset_args (options : CreateDatasetOptions) : list string :=
  ["create"]
  ++ (if cdo_CreateParents options then ["-p"] else [])
  ++ (if decide (cdo_VolumeSize options = "")
      then (if cdo_Unmounted options then ["-u"] else [])
      else (if decide (cdo_BlockSize options ≠ "")
            then ["-b"; cdo_BlockSize options] else [])
           ++ (if cdo_Sparse options then ["-s"] else []))
  ++ propertyMapFlags "-o" (cdo_Properties options)
  ++ (if decide (cdo_VolumeSize options ≠ "")
      then ["-V"; cdo_VolumeSize options] else [])
  ++ [cdo_Name options].

(** [CreateDataset]; [None] for [options] is the nil pointer. *)
Definition CreateDataset (m : Manager) (options : option CreateDatasetOptions)
  : option error :=
  match options with
  | None => Some [ErrZFS; ErrInvalidCreateOptions]
  | Some options =>
      if negb (validDatasetName (cdo_Name options))
      then Some [ErrZFS; ErrInvalidCreateOptions; ErrInvalidName]
      else error_of (zfs m (CreateDataset_args options))
  end.

(** ** Notions the specification uses *)

(** Equality of two texts up to the case of their ASCII letters. *)
Definition equal_ignoring_case (s t : string) : bool :=
  String.eqb (GoStrings.ToLower s) (GoStrings.ToLower t).

(** The text a record list stands for: fields joined by TAB, records by LF. *)
Definition unparseTabular (records : list (list string)) : string :=
  join_with LF (map (join_with TAB) records).

(** A record that [newProperties] accepts. *)
Definition accepted (record : list string) : bool :=
  (length record =? 4)%nat && negb (String.eqb (nth 0 record "") "").

(** The property an accepted record carries. *)
Definition property_of (record : list string) : Property :=
  mkProperty (nth 0 record "") (nth 1 record "")
             (nth 2 record "") (nth 3 record "").

(** The last accepted record for an entity and a property name, if any. *)
Definition last_accepted (entity prop : string)
    (records : list (list string)) : option Property :=
  property_of <$>
    last (filter (fun r => accepted r = true
                           ∧ nth 0 r "" = entity ∧ nth 1 r "" = prop) records).

(** A store whose every entry sits under its own property name, as
    [newProperties] builds them. *)
Definition keyed_by_name (p : Properties) : Prop :=
  ∀ k prop, p !! k = Some prop → Property' prop = k.

(** The decimal digit strings and their values. *)
Definition is_digit_string (s : string) : bool :=
  negb (String.eqb s "") && all_bytes is_digit s.

Fixpoint digits_value (acc : Z) (s : string) : Z :=
  match s with
  | EmptyString => acc
  | String a s' => digits_value (10 * acc + digit_val a)%Z s'
  end.

(** The unit suffixes of ZFS sizes and their powers of 1024. *)
Definition unit_power (suffix : ascii) : option Z :=
  if Ascii.eqb suffix "K" then Some 1%Z
  else if Ascii.eqb suffix "M" then Some 2%Z
  else if Ascii.eqb suffix "G" then Some 3%Z
  else if Ascii.eqb suffix "T" then Some 4%Z
  else if Ascii.eqb suffix "P" then Some 5%Z
  else None.

(** A store with one property. *)
Definition store_of (name value : string) : Properties :=
  {[ name := mkProperty "tank" name value "-" ]}.

(** ** Notions the proofs use *)

(** The store of the example: entries for "tank/a" and for "tank/a/sub". *)
Definition two_entity_store : Properties :=
  <["quota" := mkProperty "tank/a" "quota" "10G" "local"]>
    (<["used" := mkProperty "tank/a/sub" "used" "1G" "-"]> ∅).

(** A store in which two entries of one entity carry the same property
    name under different keys. *)
Definition doubly_keyed_store : Properties :=
  <["a" := mkProperty "tank/a" "quota" "10G" "local"]>
    (<["b" := mkProperty "tank/a" "quota" "20G" "local"]> ∅).

(** [Fin m e] stands for the integer [n]. *)
Definition stands_for (f : Float64.t) (n : Z) : Prop :=
  match f with
  | Float64.Fin m e =>
      ((0 ≤ e)%Z ∧ (m * 2 ^ e)%Z = n) ∨ ((e < 0)%Z ∧ m = (n * 2 ^ (- e))%Z)
  | Float64.Inf => False
  end.

(** The integers that [float64] holds exactly: at most 53 significant
    bits. *)
Definition fits_float64 (n : Z) : Prop :=
  ∃ m j, (0 ≤ m < 2 ^ 53)%Z ∧ (0 ≤ j)%Z ∧ n = (m * 2 ^ j)%Z.

(** A byte that is no white space and starts no multi-byte rune. *)
Definition plain (a : ascii) : bool :=
  negb (GoStrings.is_ascii_space a) && (byte_val a <? 128)%Z.


(** * Part I, continued: the rest of the package *)

(** ** Property names: [zfsprops] and [zpoolprops] *)

Module zfsprops.

Definition Type' : string := "type".
Definition Mountpoint : string := "mountpoint".

(** [fmt.Sprintf("userquota@%s", user)] and its five siblings. *)
Definition UserQuota (user : string) : string := "userquota@" +:+ user.
Definition UserObjQuota (user : string) : string := "userobjquota@" +:+ user.
Definition GroupQuota (group : string) : string := "groupquota@" +:+ group.
Definition GroupObjQuota (group : string) : string :=
"groupobjquota@" +:+ group.
Definition ProjectQuota (project : string) : string :=
"projectquota@" +:+ project.
Definition ProjectObjQuota (project : string) : string :=
"projectobjquota@" +:+ project.

(** [User(module)] returns the function that prefixes a name with
  ["<module>:"]. *)
Definition User (module : string) : string -> string :=
fun name => module +:+ ":" +:+ name.

End zfsprops.

Module zpoolprops.

Definition Capacity : string := "capacity".

(** [fmt.Sprintf("feature@%s", feature_name)]. *)
Definition Feature (feature_name : string) : string :=
"feature@" +:+ feature_name.

End zpoolprops.

(** ** Dataset types and the getters of [Dataset] that do more than
    delegate *)

(** [type DatasetType string] and its five constants. *)
Definition AllTypes : string := "all".
Definition BookmarkType : string := "bookmark".
Definition FilesystemType : string := "filesystem".
Definition SnapshotType : string := "snapshot".
Definition VolumeType : string := "volume".

(** [strings.Join(s, ",")] over the types. *)
Definition JoinTypes (types : list string) : string := join_sep "," types.

Definition Dataset_Mountpoint (d : Dataset) : string * bool :=
  let '(v, ok) := Properties.String (Dataset_Properties d) zfsprops.Mountpoint in
  let v := if decide (v = "none") then "" else v in
  (v, ok).

Definition Dataset_Type (d : Dataset) : string * bool :=
  let '(v, ok) := Properties.String (Dataset_Properties d) zfsprops.Type' in
  if ok then (v, true) else ("", false).

(** [Capacity] of [Pool], one of the getters that delegate to an accessor. *)
Definition Pool_Capacity (p : Pool) : Z * bool :=
  Properties.Percent (Pool_Properties p) zpoolprops.Capacity.

(** ** The remaining operations of the manager *)

(** [strconv.FormatUint(n, 10)]: the decimal digits of [n], "0" for zero. *)
Definition FormatUint (n : Z) : string :=
  NilZero.string_of_uint (N.to_uint (Z.to_N n)).

Definition InheritDatasetProperty (m : Manager) (name property : string)
    (recursive : bool) : option error :=
  if negb (validDatasetName name) then Some errInvalidDatasetName
  else if decide (property = "") then Some errInvalidDatasetProperty
  else
    error_of (zfs m (["inherit"] ++ (if recursive then ["-r"] else [])
                     ++ [property; name])).

(** [props[name]]: the store of the entity, the nil map when there is
    none. *)
Definition store_for (props : gmap string Properties) (name : string)
  : Properties :=
  default ∅ (props !! name).

(** The property list of a query: "all" when none is asked for. *)
Definition query_properties (properties : list string) : string :=
  join_sep "," (match properties with
                | [] => [allProperty]
                | _ => properties
                end).

Definition GetDataset (m : Manager) (name : string) (properties : list string)
  : Dataset + error :=
  if negb (validDatasetName name) then inr errInvalidDatasetName
  else
    match zfs m ["get"; "-Hp"; "-o"; "name,property,value,source";
                 query_properties properties; name] with
    | inr err => inr err
    | inl records => inl (NewDataset name (store_for (newProperties records) name))
    end.

Definition GetPool (m : Manager) (name : string) (properties : list string)
  : Pool + error :=
  if negb (validPoolName name) then inr errInvalidPoolName
  else
    match zpool m ["get"; "-Hp"; "-o"; "name,property,value,source";
                   query_properties properties; name] with
    | inr err => inr err
    | inl records => inl (newPool name (store_for (newProperties records) name))
    end.

(** The arguments that select the depth, the type and the filter in
    [ListDatasets] and [ListDatasetNames]. *)
Definition depth_args (depth : Z) : list string :=
  if (0 <? depth)%Z then ["-d"; FormatUint depth] else ["-r"].

Definition filter_args (filter : string) : list string :=
  if decide (filter ≠ "") then [filter] else [].

Definition ListDatasets_args (filter : string) (depth : Z) (typ : string)
    (properties : list string) : list string :=
  ["get"; "-Hp"; "-o"; "name,property,value,source"]
  ++ depth_args depth ++ ["-t"; typ]
  ++ [query_properties properties] ++ filter_args filter.

(** The loop of [ListDatasets] over the entity stores in the order in which
    [range] visits them. *)
Definition datasets_in_order (entries : list (string * Properties))
  : list Dataset :=
  map (fun entry => NewDataset entry.1 entry.2) entries.

Definition pools_in_order (entries : list (string * Properties))
  : list Pool :=
  map (fun entry => newPool entry.1 entry.2) entries.

Definition ListDatasets (m : Manager) (filter : string) (depth : Z)
    (typ : string) (properties : list string) : list Dataset + error :=
  match zfs m (ListDatasets_args filter depth typ properties) with
  | inr err => inr err
  | inl records => inl (datasets_in_order (map_to_list (newProperties records)))
  end.

Definition ListPools (m : Manager) (properties : list string)
  : list Pool + error :=
  match zpool m ["get"; "-Hp"; "-o"; "name,property,value,source";
                 query_properties properties] with
  | inr err => inr err
  | inl records => inl (pools_in_order (map_to_list (newProperties records)))
  end.

(** The loop shared by [ListDatasetNames] and [ListPoolNames]: the first
    field of every record that has one, when it is not empty. *)
Fixpoint record_names (records : list (list string)) : list string :=
  match records with
  | [] => []
  | record :: records' =>
      match record with
      | field :: _ =>
          if decide (field ≠ "") then field :: record_names records'
          else record_names records'
      | [] => record_names records'
      end
  end.

Definition ListDatasetNames_args (filter : string) (depth : Z) (typ : string)
  : list string :=
  ["list"; "-H"; "-o"; "name"] ++ depth_args depth ++ ["-t"; typ]
  ++ filter_args filter.

Definition ListDatasetNames (m : Manager) (filter : string) (depth : Z)
    (typ : string) : list string + error :=
  match zfs m (ListDatasetNames_args filter depth typ) with
  | inr err => inr err
  | inl records => inl (record_names records)
  end.

Definition ListPoolNames (m : Manager) : list string + error :=
  match zpool m ["list"; "-Hp"; "-o"; "name"] with
  | inr err => inr err
  | inl records => inl (record_names records)
  end.

(** [DestroyDatasetFlag] is an [int]; the four constants are 1 to 4. *)
Definition DestroyRecursive : Z := 1.
Definition DestroyRecursiveClones : Z := 2.
Definition DestroyDeferDeletion : Z := 3.
Definition DestroyForceUnmount : Z := 4.

(** The arguments of [DestroyDataset]: the flags go into a set first. *)
Definition DestroyDataset_args (name : string) (flags : list Z)
  : list string :=
  let fm : gset Z := list_to_set flags in
  ["destroy"]
  ++ (if decide (DestroyRecursive ∈ fm) then ["-r"] else [])
  ++ (if decide (DestroyRecursiveClones ∈ fm) then ["-R"] else [])
  ++ (if decide (DestroyDeferDeletion ∈ fm) then ["-d"] else [])
  ++ (if decide (DestroyForceUnmount ∈ fm) then ["-f"] else [])
  ++ [name].

Definition DestroyDataset (m : Manager) (name : string) (flags : list Z)
  : option error :=
  if negb (validDatasetName name) then Some errInvalidDatasetName
  else error_of (zfs m (DestroyDataset_args name flags)).

Definition DestroyPool (m : Manager) (name : string) (force : bool)
  : option error :=
  if negb (validPoolName name) then Some errInvalidPoolName
  else error_of (zpool m (["destroy"] ++ (if force then ["-f"] else [])
                          ++ [name])).

Definition ExportPool (m : Manager) (name : string) (force : bool)
  : option error :=
  if negb (validPoolName name) then Some errInvalidPoolName
  else error_of (zpool m (["export"] ++ (if force then ["-f"] else [])
                          ++ [name])).

(** The error of a result that has a value or an error. *)
Definition error_in {A : Type} (r : A + error) : option error :=
  match r with
  | inl _ => None
  | inr err => Some err
  end.

(** The error of a single-value query. *)
Definition error_from (r : outcome (string * option error)) : option error :=
  match r with
  | Returns (_, err) => err
  | Panics => None
  end.

(** ** The [path] package, as far as [Join] uses it *)

Module GoPath.

Definition is_slash (a : ascii) : bool := Ascii.eqb a "/".
Definition is_dot (a : ascii) : bool := Ascii.eqb a ".".

(** [r == n || path[r] == '/'], where [rest] is the path from index [r]
  on. *)
Definition at_end (rest : string) : bool :=
match rest with
| EmptyString => true
| String c _ => is_slash c
end.

(** The output buffer [out] of [Clean] is kept as the list of its bytes
  [out[0:w]] in reverse, so that [out.append(c)] puts [c] in front and
  [out.w--] drops the first element; [out.w] is the length.

  [backtrack] is the loop
  [for out.w > dotdot && out.index(out.w) != '/' { out.w-- }], where
  [dropped] is the byte at index [out.w], the one dropped last. *)
Fixpoint backtrack (dotdot : nat) (dropped : ascii) (out : list ascii)
: list ascii :=
match out with
| [] => []
| c :: out' =>
    if (dotdot <? length out)%nat && negb (is_slash dropped)
    then backtrack dotdot c out' else out
end.

(** What [Clean] does with a ".." element: it backtracks to the last slash
  when it can, appends the element when the path is not rooted, and drops
  it otherwise. The result is the buffer and the new [dotdot]. *)
Definition dotdot_element (rooted : bool) (out : list ascii) (dotdot : nat)
: list ascii * nat :=
if (dotdot <? length out)%nat then
  match out with
  | c :: out' => (backtrack dotdot c out', dotdot)
  | [] => (out, dotdot)
  end
else if negb rooted then
  let out := if (0 <? length out)%nat then "/"%char :: out else out in
  let out := "."%char :: "."%char :: out in
  (out, length out)
else (out, dotdot).

(** The loop [for r < n] of [Clean] over the rest of the path. The inner
  loop that copies an element runs in the same recursion, with [copying]
  set: it appends bytes up to the next slash, which the outer loop then
  skips. *)
Fixpoint clean_loop (rooted copying : bool) (path : string)
  (out : list ascii) (dotdot : nat) : list ascii :=
match path with
| EmptyString => out
| String c rest =>
    if is_slash c then clean_loop rooted false rest out dotdot
    else if copying then clean_loop rooted true rest (c :: out) dotdot
    else if is_dot c && at_end rest then clean_loop rooted false rest out dotdot
    else
      let element :=
        let out :=
          if (rooted && negb (length out =? 1)%nat)
             || (negb rooted && negb (length out =? 0)%nat)
          then "/"%char :: out else out in
        clean_loop rooted true rest (c :: out) dotdot in
      match rest with
      | String c1 rest2 =>
          if is_dot c && is_dot c1 && at_end rest2 then
            let '(out, dotdot) := dotdot_element rooted out dotdot in
            clean_loop rooted false rest2 out dotdot
          else element
      | EmptyString => element
      end
end.

(** The buffer that [Clean] ends with, in reverse. *)
Definition clean_buffer (path : string) : list ascii :=
match path with
| EmptyString => []
| String c rest =>
    if is_slash c then clean_loop true false rest ["/"%char] 1
    else clean_loop false false path [] 0
end.

(** [path.Clean]. *)
Definition Clean (path : string) : string :=
match clean_buffer path with
| [] => "."
| out => string_of_list_ascii (rev out)
end.

(** One turn of the loop of [path.Join] that fills [buf]. *)
Definition join_step (buf : string) (e : string) : string :=
if negb (String.eqb buf "") || negb (String.eqb e "") then
  (if negb (String.eqb buf "") then buf +:+ "/" else buf) +:+ e
else buf.

(** [path.Join]: the elements from the first non-empty one on, separated
  by slashes, and cleaned; the empty string when all are empty. *)
Definition Join (elem : list string) : string :=
let size := list_sum (map String.length elem) in
if (size =? 0)%nat then "" else Clean (foldl join_step "" elem).

End GoPath.

(** [strings.TrimPrefix(s, string(c))] for a one-byte prefix. *)
Definition TrimPrefix (s : string) (c : ascii) : string :=
  match s with
  | String a s' => if Ascii.eqb a c then s' else s
  | EmptyString => s
  end.

(** [Join] of [manager.go]. *)
Definition Join (parts : list string) : string :=
  TrimPrefix (GoPath.Join parts) "/".

(** ** Notions the further proofs use *)

(** A manager whose every command succeeds and prints [stdout]. *)
Definition printing_manager (stdout : string) : Manager :=
  mkManager (fun _ _ => mkRunResult stdout "" None).

(** A manager whose every command fails with [cause] and writes [stderr]. *)
Definition failing_manager (cause stderr : string) : Manager :=
  mkManager (fun _ _ => mkRunResult "" stderr (Some cause)).

(** An error result that carries the given sentinel error. *)
Definition fails_with (item : error_item) (result : option error) : Prop :=
  ∃ err, result = Some err ∧ item ∈ err.

(** The text before the first TAB or LF. *)
Definition first_cell (data : string) : string :=
  take_while (fun a => negb (Ascii.eqb a TAB) && negb (Ascii.eqb a LF)) data.

(** A property map none of whose names holds the byte "=". *)
Definition equals_free (properties : gmap string string) : Prop :=
  ∀ key value, properties !! key = Some value → has_byte "=" key = false.

(** A part that is one plain path element: not empty, without a slash, and
    neither "." nor "..". *)
Definition plain_part (part : string) : Prop :=
  part ≠ "" ∧ has_byte "/" part = false ∧ part ≠ "." ∧ part ≠ "..".

(** The buffer of [path.Clean], in reverse, holds no two slashes in a
    row. *)
Definition no_double (out : list ascii) : Prop :=
  ∀ l1 l2, out ≠ l1 ++ "/"%char :: "/"%char :: l2.

(** Its last byte, the first of the list, is no slash, unless the buffer is
    empty or holds the root alone. *)
Definition ends_well (rooted : bool) (out : list ascii) : Prop :=
  out = [] ∨ (rooted = true ∧ out = ["/"%char])
  ∨ ∃ c out', out = c :: out' ∧ c ≠ "/"%char.

(** Its first byte, the last of the list, is a slash exactly when the path
    is rooted. *)
Definition starts_well (rooted : bool) (out : list ascii) : Prop :=
  if rooted then last out = Some "/"%char else last out ≠ Some "/"%char.

Definition tidy (rooted : bool) (out : list ascii) : Prop :=
  no_double out ∧ ends_well rooted out ∧ starts_well rooted out.

(** The invariant of the loop of [path.Clean]: the buffer is tidy, and so
    is its part below [dotdot], which is not empty for a rooted path. *)
Definition buffer_ok (rooted : bool) (out : list ascii) (dotdot : nat)
  : Prop :=
  tidy rooted out
  ∧ ∃ top pre, out = top ++ pre ∧ dotdot = length pre
               ∧ ends_well rooted pre ∧ (rooted = true → pre ≠ []).

(** * Part II: properties *)

(** ** Splitting and joining *)

Section split_facts.
Variable c : ascii.

Lemma split_on_nonempty s : split_on c s ≠ [].
Proof.
  destruct s as [|a s]; simpl; [discriminate|].
  destruct (Ascii.eqb a c); [discriminate|].
  destruct (split_on c s); discriminate.
Qed.

Lemma split_on_length s : length (split_on c s) = S (count_byte c s).
Proof.
  induction s as [|a s IH]; simpl; [reflexivity|].
  destruct (Ascii.eqb a c); simpl; [now rewrite IH|].
  destruct (split_on c s) eqn:E; simpl in *; [discriminate|assumption].
Qed.

Lemma join_with_cons w ws :
  ws ≠ [] → join_with c (w :: ws) = w +:+ String c (join_with c ws).
Proof. destruct ws; [congruence|reflexivity]. Qed.

Lemma join_split s : join_with c (split_on c s) = s.
Proof.
  induction s as [|a s IH]; simpl; [reflexivity|].
  destruct (Ascii.eqb a c) eqn:E.
  - apply Ascii.eqb_eq in E; subst a.
    rewrite join_with_cons by apply split_on_nonempty.
    now rewrite IH.
  - pose proof (split_on_nonempty s) as Hne.
    destruct (split_on c s) as [|w ws]; [congruence|].
    destruct ws as [|w' ws].
    + simpl in *. now rewrite IH.
    + change (join_with c (String a w :: w' :: ws))
        with (String a (join_with c (w :: w' :: ws))).
      now rewrite IH.
Qed.

(** A byte that is not in the text is in none of its pieces; the
    separator is in none of them either. *)
Lemma split_on_absent d s :
  has_byte d s = false ∨ d = c →
  Forall (fun w => has_byte d w = false) (split_on c s).
Proof.
  induction s as [|a s IH]; simpl; intros H.
  - repeat constructor.
  - destruct (Ascii.eqb a c) eqn:E.
    + constructor; [reflexivity|]. apply IH.
      destruct H as [H| ->]; [|now right].
      apply orb_false_iff in H as [_ H]. now left.
    + assert (Ascii.eqb a d = false) as Had.
      { destruct H as [H| ->]; [|assumption].
        now apply orb_false_iff in H as [H _]. }
      assert (has_byte d s = false ∨ d = c) as H'.
      { destruct H as [H| ->]; [|now right].
        apply orb_false_iff in H as [_ H]. now left. }
      specialize (IH H').
      destruct (split_on c s) as [|w ws]; simpl.
      * constructor; [simpl; now rewrite Had|constructor].
      * inversion IH; subst.
        constructor; [simpl; now rewrite Had|assumption].
Qed.

Lemma split_on_snoc_sep s :
  split_on c (s +:+ String c "") = split_on c s ++ [""].
Proof.
  induction s as [|a s IH].
  - change ("" +:+ String c "") with (String c "").
    simpl. now rewrite Ascii.eqb_refl.
  - change (String a s +:+ String c "") with (String a (s +:+ String c "")).
    simpl. destruct (Ascii.eqb a c); rewrite IH; [reflexivity|].
    pose proof (split_on_nonempty s).
    destruct (split_on c s); [congruence|reflexivity].
Qed.
End split_facts.

Lemma parseTabular_nonempty data : parseTabular data ≠ [].
Proof.
  unfold parseTabular. pose proof (split_on_nonempty LF data).
  destruct (split_on LF data); [congruence|discriminate].
Qed.

Lemma parseTabular_records_nonempty data :
  Forall (fun record => record ≠ []) (parseTabular data).
Proof.
  unfold parseTabular. apply List.Forall_forall. intros r Hr.
  apply in_map_iff in Hr as (line & <- & _). apply split_on_nonempty.
Qed.

Lemma first_field_parseTabular data :
  ∃ v, first_field (parseTabular data) = Returns v.
Proof.
  pose proof (parseTabular_nonempty data) as Hne.
  pose proof (parseTabular_records_nonempty data) as Hall.
  destruct (parseTabular data) as [|r rs]; [congruence|].
  inversion Hall as [|? ? Hr _]; subst.
  destruct r as [|f r]; [congruence|]. now exists f.
Qed.

Lemma unparse_parseTabular data : unparseTabular (parseTabular data) = data.
Proof.
  unfold unparseTabular, parseTabular.
  rewrite map_map.
  rewrite (map_ext _ (fun line => line)) by (intros; apply join_split).
  rewrite map_id. apply join_split.
Qed.

Lemma parseTabular_fields_clean data :
  Forall (Forall (fun field => has_byte TAB field = false
                               ∧ has_byte LF field = false))
         (parseTabular data).
Proof.
  unfold parseTabular. apply List.Forall_forall. intros r Hr.
  apply in_map_iff in Hr as (line & <- & Hline).
  pose proof (split_on_absent LF LF data (or_intror eq_refl)) as Hlf.
  rewrite List.Forall_forall in Hlf. specialize (Hlf line Hline). simpl in Hlf.
  pose proof (split_on_absent TAB TAB line (or_intror eq_refl)) as H1.
  pose proof (split_on_absent TAB LF line (or_introl Hlf)) as H2.
  rewrite List.Forall_forall in *. intros f Hf. split; [now apply H1|now apply H2].
Qed.

Lemma parseTabular_trailing data :
  parseTabular (data +:+ String LF "") = parseTabular data ++ [[""]].
Proof.
  unfold parseTabular. rewrite split_on_snoc_sep, map_app. reflexivity.
Qed.

(** ** C9: the tabular decoder *)

(** C9 (as amended). For every input buffer [parseTabular] returns, without
    any error case, exactly one record per line: one more record than the
    buffer has LF bytes, whose fields hold no TAB and no LF and which,
    joined again by TAB and LF, give back the buffer. A buffer that ends in
    LF yields one more trailing record, which has a single empty field (its
    length is 1, not 0), and the property-map builder drops that record. *)
Theorem parseTabular_one_record_per_line (data : string) :
  length (parseTabular data) = S (count_byte LF data)
  ∧ unparseTabular (parseTabular data) = data
  ∧ Forall (Forall (fun field => has_byte TAB field = false
                                 ∧ has_byte LF field = false))
           (parseTabular data)
  ∧ parseTabular (data +:+ String LF "") = parseTabular data ++ [[""]]
  ∧ last (parseTabular (data +:+ String LF "")) = Some [""]
  ∧ newProperties (parseTabular (data +:+ String LF ""))
    = newProperties (parseTabular data).
Proof.
  split; [|split; [|split; [|split; [|split]]]].
  - unfold parseTabular. rewrite length_map. apply split_on_length.
  - apply unparse_parseTabular.
  - apply parseTabular_fields_clean.
  - apply parseTabular_trailing.
  - rewrite parseTabular_trailing. apply last_snoc.
  - rewrite parseTabular_trailing. unfold newProperties.
    now rewrite foldl_snoc.
Qed.

(** C9 (as stated) fails: the trailing record of a buffer that ends in LF
    is not of length zero. *)
Lemma parseTabular_trailing_record_not_zero_length :
  ¬ (∃ record,
        last (parseTabular ("tank" +:+ String TAB "size" +:+ String LF ""))
        = Some record
        ∧ length record = 0).
Proof. intros (record & H & Hlen). vm_compute in H. now inversion H; subst. Qed.

(** ** C10: the single-value queries never index out of range *)

(** C10. [parseTabular] returns at least one record and every record has at
    least one field, for every buffer, the empty one included; hence
    [GetDatasetProperty] and [GetPoolProperty] never panic on
    [records[0][0]], and when the command succeeds with an empty standard
    output they return the empty string. *)
Theorem single_value_query_in_range (m : Manager) (name property : string) :
  (∀ data, parseTabular data ≠ []
           ∧ Forall (fun record => record ≠ []) (parseTabular data))
  ∧ parseTabular "" = [[""]]
  ∧ GetDatasetProperty m name property ≠ Panics
  ∧ GetPoolProperty m name property ≠ Panics
  ∧ (validDatasetName name = true → property ≠ "" → property ≠ allProperty →
     run_err (Runner m "zfs" ["get"; "-Hp"; "-o"; "value"; property; name])
       = None →
     run_stdout (Runner m "zfs" ["get"; "-Hp"; "-o"; "value"; property; name])
       = "" →
     GetDatasetProperty m name property = Returns ("", None))
  ∧ (validPoolName name = true → property ≠ "" → property ≠ allProperty →
     run_err (Runner m "zpool" ["get"; "-Hp"; "-o"; "value"; property; name])
       = None →
     run_stdout (Runner m "zpool" ["get"; "-Hp"; "-o"; "value"; property; name])
       = "" →
     GetPoolProperty m name property = Returns ("", None)).
Proof.
  assert (∀ run err,
            (∀ args, (∃ r, run args = inr r)
                     ∨ ∃ d, run args = inl (parseTabular d)) →
            get_property run err name property ≠ Panics) as Hget.
  { intros run err Hrun. unfold get_property.
    case_decide; [discriminate|].
    destruct (Hrun ["get"; "-Hp"; "-o"; "value"; property; name])
      as [(r & ->) | (d & ->)]; [discriminate|].
    destruct (first_field_parseTabular d) as (v & ->). discriminate. }
  assert (∀ e cmd args, (∃ r, run_tabular e cmd m args = inr r)
            ∨ ∃ d, run_tabular e cmd m args = inl (parseTabular d)) as Hrun.
  { intros e cmd args. unfold run_tabular.
    destruct (run_err (Runner m cmd args)); eauto. }
  split; [|split; [|split; [|split; [|split]]]].
  - intros data. split;
      [apply parseTabular_nonempty|apply parseTabular_records_nonempty].
  - reflexivity.
  - unfold GetDatasetProperty.
    destruct (validDatasetName name); simpl; [|discriminate].
    apply Hget. intros args. apply (Hrun ErrZFS "zfs" args).
  - unfold GetPoolProperty.
    destruct (validPoolName name); simpl; [|discriminate].
    apply Hget. intros args. apply (Hrun ErrZpool "zpool" args).
  - intros Hv Hp1 Hp2 Herr Hout.
    unfold GetDatasetProperty, get_property, zfs, run_tabular.
    rewrite Hv; simpl. case_decide as Hd; [destruct Hd; congruence|].
    now rewrite Herr, Hout.
  - intros Hv Hp1 Hp2 Herr Hout.
    unfold GetPoolProperty, get_property, zpool, run_tabular.
    rewrite Hv; simpl. case_decide as Hd; [destruct Hd; congruence|].
    now rewrite Herr, Hout.
Qed.

(** The theorem at a runner whose command prints nothing. *)
Lemma single_value_query_in_range_witness :
  GetDatasetProperty (mkManager (fun _ _ => mkRunResult "" "" None))
                     "tank/data" "quota" = Returns ("", None)
  ∧ GetPoolProperty (mkManager (fun _ _ => mkRunResult "" "" None))
                    "tank" "size" = Returns ("", None).
Proof.
  split.
  - apply (single_value_query_in_range
             (mkManager (fun _ _ => mkRunResult "" "" None))
             "tank/data" "quota"); solve [reflexivity | discriminate].
  - apply (single_value_query_in_range
             (mkManager (fun _ _ => mkRunResult "" "" None))
             "tank" "size"); solve [reflexivity | discriminate].
Defined.

(** ** C6: the property-map builder *)

Section newProperties_facts.
Implicit Types (r : gmap string Properties) (record : list string).

Lemma accepted_inv record :
  accepted record = true →
  ∃ name prop value source,
    record = [name; prop; value; source] ∧ name ≠ "".
Proof.
  unfold accepted. intros [Hlen Hname]%andb_true_iff.
  apply Nat.eqb_eq in Hlen.
  destruct record as [|name [|prop [|value [|source [|]]]]];
    simpl in Hlen; try discriminate.
  exists name, prop, value, source. split; [reflexivity|].
  simpl in Hname. intros ->. discriminate.
Qed.

Lemma step_rejected r record :
  accepted record = false → newProperties_step r record = r.
Proof.
  unfold accepted, newProperties_step. intros H.
  destruct record as [|name [|prop [|value [|source [|]]]]]; try reflexivity.
  simpl in H. case_decide as Hn; [reflexivity|].
  destruct (String.eqb_spec name ""); [contradiction|discriminate].
Qed.

Lemma step_accepted r name prop value source :
  name ≠ "" →
  newProperties_step r [name; prop; value; source]
  = <[name := <[prop := mkProperty name prop value source]>
                (default ∅ (r !! name))]> r.
Proof. intros Hn. unfold newProperties_step. now case_decide. Qed.

Lemma newProperties_snoc records record :
  newProperties (records ++ [record])
  = newProperties_step (newProperties records) record.
Proof. unfold newProperties. apply foldl_snoc. Qed.

(** Records that are not accepted leave no trace. *)
Lemma newProperties_ignores_rejected records :
  newProperties (filter (fun record => accepted record = true) records)
  = newProperties records.
Proof.
  induction records as [|record records IH] using rev_ind; [reflexivity|].
  rewrite filter_app, newProperties_snoc.
  destruct (accepted record) eqn:Hacc.
  - rewrite (filter_cons_True _ record []) by assumption.
    rewrite filter_nil, newProperties_snoc, IH. reflexivity.
  - rewrite (filter_cons_False _ record []) by congruence.
    rewrite filter_nil, app_nil_r, IH, step_rejected; auto.
Qed.

Lemma newProperties_lookup records entity prop :
  (newProperties records !! entity) ≫= (fun props => props !! prop)
  = last_accepted entity prop records.
Proof.
  unfold last_accepted.
  induction records as [|record records IH] using rev_ind.
  - unfold newProperties. simpl. now rewrite lookup_empty.
  - rewrite newProperties_snoc, filter_app.
    destruct (accepted record) eqn:Hacc.
    + destruct (accepted_inv _ Hacc) as (n & q & v & s & -> & Hn).
      rewrite step_accepted by assumption.
      destruct (decide (n = entity ∧ q = prop)) as [[-> ->]|Hne].
      * rewrite (filter_cons_True _ _ []) by (simpl; auto).
        rewrite filter_nil, last_snoc, lookup_insert_eq. simpl.
        now rewrite lookup_insert_eq.
      * rewrite (filter_cons_False _ _ []) by (simpl; tauto).
        rewrite filter_nil, app_nil_r, <- IH.
        destruct (decide (n = entity)) as [->|Hent].
        -- rewrite lookup_insert_eq. simpl.
           rewrite lookup_insert_ne by (intros ->; tauto).
           destruct (newProperties records !! entity); simpl;
             [reflexivity|apply lookup_empty].
        -- now rewrite lookup_insert_ne.
    + rewrite step_rejected by assumption.
      rewrite (filter_cons_False _ _ []) by (intros [? _]; congruence).
      now rewrite filter_nil, app_nil_r.
Qed.

Lemma newProperties_entities records entity :
  is_Some (newProperties records !! entity)
  ↔ ∃ record, record ∈ records ∧ accepted record = true
              ∧ nth 0 record "" = entity.
Proof.
  induction records as [|record records IH] using rev_ind.
  - unfold newProperties. simpl. rewrite lookup_empty. split.
    + intros [? ?]; discriminate.
    + intros (? & H & _). inversion H.
  - rewrite newProperties_snoc.
    destruct (accepted record) eqn:Hacc.
    + destruct (accepted_inv _ Hacc) as (n & q & v & s & -> & Hn).
      rewrite step_accepted by assumption.
      destruct (decide (n = entity)) as [->|Hent].
      * rewrite lookup_insert_eq. split; [|eauto].
        intros _. exists [entity; q; v; s].
        split; [apply elem_of_app; right; apply list_elem_of_singleton|];
          auto.
      * rewrite lookup_insert_ne by assumption. rewrite IH. split.
        -- intros (rec & Hin & Ha & He). exists rec.
           split; [apply elem_of_app; now left|auto].
        -- intros (rec & Hin & Ha & He).
           apply elem_of_app in Hin as [Hin|Hin]; [eauto|].
           apply list_elem_of_singleton in Hin as ->. simpl in He.
           contradiction.
    + rewrite step_rejected by assumption. rewrite IH. split.
      * intros (rec & Hin & Ha & He). exists rec.
        split; [apply elem_of_app; now left|auto].
      * intros (rec & Hin & Ha & He).
        apply elem_of_app in Hin as [Hin|Hin]; [eauto|].
        apply list_elem_of_singleton in Hin as ->. congruence.
Qed.
End newProperties_facts.

(** C6. A record is accepted exactly when it has four fields and a
    non-empty first field; the other records are dropped without any
    effect; the accepted ones are grouped by entity name into stores keyed
    by property name, and the property stored for an entity and a property
    name is the one of the last accepted record that names both. *)
Theorem newProperties_groups_last_write_wins
    (records : list (list string)) (entity prop : string) :
  (∀ record, accepted record = true
     ↔ length record = 4 ∧ nth 0 record "" ≠ "")
  ∧ newProperties (filter (fun record => accepted record = true) records)
    = newProperties records
  ∧ (is_Some (newProperties records !! entity)
     ↔ ∃ record, record ∈ records ∧ accepted record = true
                 ∧ nth 0 record "" = entity)
  ∧ (newProperties records !! entity) ≫= (fun props => props !! prop)
    = last_accepted entity prop records
  ∧ (∀ record, accepted record = true →
       (newProperties (records ++ [record]) !! nth 0 record "")
         ≫= (fun props => props !! nth 1 record "")
       = Some (property_of record)).
Proof.
  split; [|split; [|split; [|split]]].
  - intros record. unfold accepted.
    rewrite andb_true_iff, Nat.eqb_eq, negb_true_iff.
    destruct (String.eqb_spec (nth 0 record "") ""); split;
      intros [? ?]; split; congruence.
  - apply newProperties_ignores_rejected.
  - apply newProperties_entities.
  - apply newProperties_lookup.
  - intros record Hacc. rewrite newProperties_lookup. unfold last_accepted.
    rewrite filter_app, (filter_cons_True _ record []) by auto.
    now rewrite filter_nil, last_snoc.
Qed.

(** The theorem on two records for the same entity and property. *)
Lemma newProperties_groups_last_write_wins_witness :
  (newProperties ([["tank"; "quota"; "1G"; "local"]]
                  ++ [["tank"; "quota"; "2G"; "local"]]) !! "tank")
    ≫= (fun props => props !! "quota")
  = Some (mkProperty "tank" "quota" "2G" "local").
Proof.
  apply (newProperties_groups_last_write_wins
           [["tank"; "quota"; "1G"; "local"]] "tank" "quota").
  reflexivity.
Defined.

(** ** C7: the wrappers keep the entries of their own entity *)

Section filter_facts.
Variable name : string.

Lemma filter_step_sound entries : ∀ (acc : Properties) k prop,
  foldl (filter_step name) acc entries !! k = Some prop →
  acc !! k = Some prop
  ∨ (Name prop = name ∧ Property' prop = k
     ∧ ∃ k', (k', prop) ∈ entries).
Proof.
  induction entries as [|[k0 prop0] entries IH]; intros acc k prop H;
    simpl in H; [now left|].
  apply IH in H as [H|(Hn & Hp & k' & Hin)].
  - unfold filter_step in H; simpl in H. case_decide as Hd.
    + destruct (decide (Property' prop0 = k)) as [<-|Hne].
      * rewrite lookup_insert_eq in H. inversion H; subst.
        right. repeat split; auto. exists k0. left.
      * rewrite lookup_insert_ne in H by assumption. now left.
    + now left.
  - right. repeat split; auto. exists k'. now right.
Qed.

Lemma filter_step_keeps entries : ∀ (acc : Properties) k,
  is_Some (acc !! k) → is_Some (foldl (filter_step name) acc entries !! k).
Proof.
  induction entries as [|[k0 prop0] entries IH]; intros acc k H;
    simpl; [assumption|].
  apply IH. unfold filter_step; simpl. case_decide; [|assumption].
  destruct (decide (Property' prop0 = k)) as [<-|Hne].
  - rewrite lookup_insert_eq. eauto.
  - now rewrite lookup_insert_ne.
Qed.

Lemma filter_step_complete entries : ∀ (acc : Properties) k' prop,
  (k', prop) ∈ entries → Name prop = name →
  is_Some (foldl (filter_step name) acc entries !! Property' prop).
Proof.
  induction entries as [|[k0 prop0] entries IH]; intros acc k' prop Hin Hn.
  - inversion Hin.
  - simpl. apply elem_of_cons in Hin as [[= -> ->]|Hin].
    + apply filter_step_keeps. unfold filter_step; simpl.
      case_decide; [|contradiction]. rewrite lookup_insert_eq. eauto.
    + eapply IH; eassumption.
Qed.

Lemma filter_step_lookup entries : ∀ (acc : Properties) k,
  NoDup entries.*1 →
  (∀ k' prop, (k', prop) ∈ entries → Property' prop = k') →
  foldl (filter_step name) acc entries !! k
  = match (list_to_map entries : Properties) !! k with
    | Some prop => if decide (Name prop = name) then Some prop else acc !! k
    | None => acc !! k
    end.
Proof.
  induction entries as [|[k0 prop0] entries IH]; intros acc k Hnd Hkey.
  - simpl. now rewrite lookup_empty.
  - simpl in Hnd. apply NoDup_cons in Hnd as [Hk0 Hnd].
    assert (Property' prop0 = k0) as Hp0 by (apply Hkey; left).
    simpl. rewrite IH; [|assumption|intros; apply Hkey; now right].
    destruct (decide (k0 = k)) as [->|Hne].
    + rewrite lookup_insert_eq.
      rewrite (not_elem_of_list_to_map_1 entries k Hk0).
      unfold filter_step; simpl. case_decide; [|reflexivity].
      rewrite Hp0. apply lookup_insert_eq.
    + rewrite lookup_insert_ne by assumption.
      assert (filter_step name acc (k0, prop0) !! k = acc !! k) as ->.
      { unfold filter_step; simpl. case_decide; [|reflexivity].
        rewrite lookup_insert_ne by congruence. reflexivity. }
      reflexivity.
Qed.

Lemma filter_loop_keyed (p : Properties) entries :
  entries ≡ₚ map_to_list p → keyed_by_name p →
  foldl (filter_step name) ∅ entries
  = filter (fun kv => Name kv.2 = name) p.
Proof.
  intros Hperm Hkey. apply map_eq. intros k.
  rewrite filter_step_lookup.
  - rewrite (list_to_map_proper entries (map_to_list p)); [| |assumption].
    + rewrite list_to_map_to_list, map_lookup_filter, lookup_empty.
      destruct (p !! k) as [prop|]; simpl; [|reflexivity].
      case_decide; [now rewrite option_guard_True
                   |now rewrite option_guard_False].
    + rewrite Hperm. apply NoDup_fst_map_to_list.
  - rewrite Hperm. apply NoDup_fst_map_to_list.
  - intros k' prop Hin. rewrite Hperm in Hin.
    apply elem_of_map_to_list in Hin. now apply Hkey.
Qed.

Lemma filter_loop_sound (p : Properties) entries k prop :
  entries ≡ₚ map_to_list p →
  foldl (filter_step name) ∅ entries !! k = Some prop →
  Name prop = name ∧ Property' prop = k ∧ ∃ k', p !! k' = Some prop.
Proof.
  intros Hperm H. apply filter_step_sound in H as [H|(Hn & Hp & k' & Hin)].
  - rewrite lookup_empty in H. discriminate.
  - repeat split; auto. exists k'. rewrite Hperm in Hin.
    now apply elem_of_map_to_list in Hin.
Qed.
End filter_facts.

(** C7 (as amended). Whatever the order in which the entries of the input
    store are visited, every entry of the store of the [Dataset] (and of the
    [Pool]) is an entry of the input whose [Name] equals the wrapper's name,
    by equality of strings, and sits under its own property name; every
    such entry of the input has its property name among the keys; and when
    the input is keyed by property name, as the builder makes it, the
    wrapper's store is exactly the input restricted to the entries whose
    [Name] is the wrapper's name. *)
Theorem wrappers_keep_own_entries
    (name : string) (p : Properties) (entries : list (string * Property))
    (Hentries : entries ≡ₚ map_to_list p) :
  Dataset_Name (NewDataset_in_order name entries) = name
  ∧ Pool_Name (newPool_in_order name entries) = name
  ∧ Pool_Properties (newPool_in_order name entries)
    = Dataset_Properties (NewDataset_in_order name entries)
  ∧ (∀ k prop,
       Dataset_Properties (NewDataset_in_order name entries) !! k = Some prop →
       Name prop = name ∧ Property' prop = k ∧ ∃ k', p !! k' = Some prop)
  ∧ (∀ k' prop, p !! k' = Some prop → Name prop = name →
       is_Some (Dataset_Properties (NewDataset_in_order name entries)
                  !! Property' prop))
  ∧ (keyed_by_name p →
     Dataset_Properties (NewDataset_in_order name entries)
     = filter (fun kv => Name kv.2 = name) p).
Proof.
  split; [reflexivity|]. split; [reflexivity|]. split; [reflexivity|].
  split; [|split].
  - intros k prop H. simpl in H. eapply filter_loop_sound; eassumption.
  - intros k' prop Hp Hn. simpl. apply (filter_step_complete name _ _ k').
    + rewrite Hentries. now apply elem_of_map_to_list.
    + assumption.
  - intros Hkey. simpl. now apply filter_loop_keyed.
Qed.

(** The theorem on that store: only the entry of "tank/a" is kept. *)
Lemma wrappers_keep_own_entries_witness :
  Dataset_Properties (NewDataset "tank/a" two_entity_store)
  = filter (fun kv => Name kv.2 = "tank/a") two_entity_store.
Proof.
  apply (wrappers_keep_own_entries "tank/a" two_entity_store
           (map_to_list two_entity_store)); [reflexivity|].
  intros k prop. unfold two_entity_store.
  rewrite lookup_insert. case_decide as Hk; [now intros [= <-]|].
  rewrite lookup_insert. case_decide as Hk'; [now intros [= <-]|].
  now rewrite lookup_empty.
Defined.

(** C7 (as stated) fails: both entries of this store belong to "tank/a", and
    the wrapper's store holds one entry, under the key "quota", in whatever
    order the two are visited. *)
Lemma wrapper_store_is_rekeyed :
  Dataset_Properties (NewDataset "tank/a" doubly_keyed_store)
  ≠ filter (fun kv => Name kv.2 = "tank/a") doubly_keyed_store
  ∧ size (filter (fun kv => Name kv.2 = "tank/a") doubly_keyed_store) = 2
  ∧ (∀ entries, entries ≡ₚ map_to_list doubly_keyed_store →
       size (Dataset_Properties (NewDataset_in_order "tank/a" entries)) = 1).
Proof.
  split; [|split].
  - intros H. apply (f_equal (fun m : Properties => m !! "a")) in H.
    vm_compute in H. discriminate.
  - vm_compute. reflexivity.
  - intros entries Hperm. symmetry in Hperm. vm_compute in Hperm.
    apply Permutation_length_2_inv in Hperm as [-> | ->];
      vm_compute; reflexivity.
Qed.

(** ** C5 and C1: the command-argument encoder *)

Section encoder_facts.
Variable flag : string.

Lemma sort_Strings_sorted l : StronglySorted String.le (sort_Strings l).
Proof. apply StronglySorted_merge_sort; apply _. Qed.

Lemma sort_Strings_perm l : sort_Strings l ≡ₚ l.
Proof. apply merge_sort_Permutation. Qed.

(** The sorted list depends on the elements only, not on their order. *)
Lemma sort_Strings_order_free l1 l2 :
  l1 ≡ₚ l2 → sort_Strings l1 = sort_Strings l2.
Proof.
  intros Hperm.
  apply (StronglySorted_unique String.le); try apply sort_Strings_sorted.
  now rewrite !sort_Strings_perm.
Qed.

Lemma propertyMapFlags_order_free entries1 entries2 :
  entries1 ≡ₚ entries2 →
  propertyMapFlags_in_order flag entries1
  = propertyMapFlags_in_order flag entries2.
Proof.
  intros Hperm. unfold propertyMapFlags_in_order.
  rewrite (sort_Strings_order_free (map name_value entries1)
                                   (map name_value entries2));
    [reflexivity|].
  now apply Permutation_map.
Qed.
End encoder_facts.

(** C5. For every flag and every map, whatever the order in which the map is
    visited, the encoder returns the pairs [flag, "name=value"] laid out
    flat, one pair per entry, with the "name=value" strings in increasing
    byte-wise order, and the result is the same for every visiting order.
    The empty map gives the empty list. For the map of "quota" to "10G" and
    "feature@async_destroy" to "disabled" and the flag "-o" the result is
    "-o", "feature@async_destroy=disabled", "-o", "quota=10G". *)
Theorem propertyMapFlags_sorted_pairs
    (flag : string) (properties : gmap string string)
    (entries : list (string * string))
    (Hentries : entries ≡ₚ map_to_list properties) :
  (∃ props,
      propertyMapFlags_in_order flag entries
      = flat_map (fun prop => [flag; prop]) props
      ∧ props ≡ₚ map name_value (map_to_list properties)
      ∧ StronglySorted String.le props)
  ∧ propertyMapFlags_in_order flag entries = propertyMapFlags flag properties
  ∧ length (propertyMapFlags flag properties) = 2 * size properties
  ∧ propertyMapFlags flag ∅ = []
  ∧ propertyMapFlags "-o"
      (<["quota" := "10G"]> (<["feature@async_destroy" := "disabled"]> ∅))
    = ["-o"; "feature@async_destroy=disabled"; "-o"; "quota=10G"].
Proof.
  split; [|split; [|split; [|split]]].
  - exists (sort_Strings (map name_value entries)). split; [reflexivity|].
    split; [|apply sort_Strings_sorted].
    rewrite sort_Strings_perm. now apply Permutation_map.
  - now apply propertyMapFlags_order_free.
  - unfold propertyMapFlags, propertyMapFlags_in_order.
    rewrite (flat_map_constant_length (c := 2)) by reflexivity.
    rewrite (Permutation_length (sort_Strings_perm _)), length_map.
    rewrite length_map_to_list. lia.
  - reflexivity.
  - vm_compute. reflexivity.
Qed.

(** The theorem on the example map, visited in the other order. *)
Lemma propertyMapFlags_sorted_pairs_witness :
  propertyMapFlags_in_order "-o"
    [("quota", "10G"); ("feature@async_destroy", "disabled")]
  = propertyMapFlags_in_order "-o"
      [("feature@async_destroy", "disabled"); ("quota", "10G")].
Proof.
  assert ([("quota", "10G"); ("feature@async_destroy", "disabled")]
          ≡ₚ map_to_list (<["quota" := "10G"]>
               (<["feature@async_destroy" := "disabled"]> (∅ : gmap string string))))
    as H1 by (vm_compute; first [reflexivity | apply perm_swap]).
  assert ([("feature@async_destroy", "disabled"); ("quota", "10G")]
          ≡ₚ map_to_list (<["quota" := "10G"]>
               (<["feature@async_destroy" := "disabled"]> (∅ : gmap string string))))
    as H2 by (vm_compute; first [reflexivity | apply perm_swap]).
  rewrite (proj1 (proj2 (propertyMapFlags_sorted_pairs "-o" _ _ H1))).
  rewrite (proj1 (proj2 (propertyMapFlags_sorted_pairs "-o" _ _ H2))).
  reflexivity.
Defined.

(** C1 is not what [propertyMapFlags] does: a map with the empty property
    name, or with the name "all", is encoded like any other, and
    [CreateDataset] hands the result to the command. *)
Theorem propertyMapFlags_takes_invalid_names :
  propertyMapFlags "-o" (<["" := "what"]> (<["quota" := "10G"]> ∅))
  = ["-o"; "=what"; "-o"; "quota=10G"]
  ∧ propertyMapFlags "-o" (<["all" := "what"]> (<["quota" := "10G"]> ∅))
    = ["-o"; "all=what"; "-o"; "quota=10G"]
  ∧ CreateDataset_args
      (mkCreateDatasetOptions "tank/data" (<["all" := "what"]> ∅)
                              false false "" "" false)
    = ["create"; "-o"; "all=what"; "tank/data"]
  ∧ (∀ m value,
       SetDatasetProperty m "tank/data" "" value
       = Some errInvalidDatasetProperty
       ∧ SetDatasetProperty m "tank/data" "all" value
         = Some errInvalidDatasetProperty).
Proof.
  split; [vm_compute; reflexivity|].
  split; [vm_compute; reflexivity|].
  split; [vm_compute; reflexivity|].
  intros m value. split; reflexivity.
Qed.

(** ** C4: the boolean accessor *)

Lemma parseBool_spec str :
  parseBool str = true
  ↔ str ∈ ["on"; "On"; "ON"; "enabled"; "Enabled"; "ENABLED"].
Proof. unfold parseBool. case_decide; split; auto; discriminate. Qed.

(** C4 (as amended). [Bool] reports presence exactly when the key is in the
    store and its raw value is neither empty nor "-"; the value, once
    present, is true exactly for the six spellings "on", "On", "ON",
    "enabled", "Enabled", "ENABLED" and false for every other string. *)
Theorem Bool_present_and_six_spellings (p : Properties) (property : string) :
  ((Properties.Bool p property).2 = true
   ↔ ∃ prop, p !! property = Some prop
             ∧ Value prop ≠ "" ∧ Value prop ≠ "-")
  ∧ ((Properties.Bool p property).2 = false
     → (Properties.Bool p property).1 = false)
  ∧ (∀ prop, p !! property = Some prop →
       Value prop ≠ "" → Value prop ≠ "-" →
       (Properties.Bool p property).2 = true
       ∧ ((Properties.Bool p property).1 = true
          ↔ Value prop ∈ ["on"; "On"; "ON"; "enabled"; "Enabled"; "ENABLED"])).
Proof.
  unfold Properties.Bool. split; [|split].
  - destruct (p !! property) as [prop|]; [case_decide as Hd|]; simpl.
    + split; [intros _; exists prop; tauto|reflexivity].
    + split; [discriminate|]. intros (? & [= <-] & ? & ?). tauto.
    + split; [discriminate|]. intros (? & [=] & _).
  - destruct (p !! property) as [prop|]; [case_decide|]; simpl;
      [discriminate|reflexivity|reflexivity].
  - intros prop -> H1 H2. case_decide as Hd; [|tauto]. simpl.
    split; [reflexivity|apply parseBool_spec].
Qed.

(** The theorem on a store whose "readonly" is "Enabled". *)
Lemma Bool_present_and_six_spellings_witness :
  (Properties.Bool (store_of "readonly" "Enabled") "readonly").2 = true
  ∧ (Properties.Bool (store_of "readonly" "Enabled") "readonly").1 = true.
Proof.
  destruct (proj2 (proj2 (Bool_present_and_six_spellings
                            (store_of "readonly" "Enabled") "readonly"))
              (mkProperty "tank" "readonly" "Enabled" "-"))
    as [Hp Hv]; [reflexivity|discriminate|discriminate|].
  split; [exact Hp|]. apply Hv. vm_compute. repeat constructor.
Defined.

(** C4 (as stated) fails: "oN" equals "on" up to case, and decodes to
    false. *)
Lemma Bool_is_not_case_insensitive :
  (Properties.Bool (store_of "readonly" "oN") "readonly").2 = true
  ∧ ¬ ((Properties.Bool (store_of "readonly" "oN") "readonly").1 = true
       ↔ equal_ignoring_case "oN" "on" = true
         ∨ equal_ignoring_case "oN" "enabled" = true).
Proof.
  split; [reflexivity|]. intros [_ H].
  assert ((Properties.Bool (store_of "readonly" "oN") "readonly").1 = true)
    as Hv by (apply H; left; reflexivity).
  vm_compute in Hv. discriminate.
Qed.

(** ** C3: the sentinel and the missing key *)

(** C3. When the key is missing from the store, or its raw value is "-",
    each of the seven accessors returns the zero value of its type with the
    presence flag false. *)
Theorem accessors_absent_on_sentinel
    {float64 : Type} (float64_zero : float64)
    (strconv_ParseFloat : string → option float64)
    (p : Properties) (property : string)
    (Habsent : p !! property = None
               ∨ ∃ prop, p !! property = Some prop ∧ Value prop = "-") :
  Properties.String p property = ("", false)
  ∧ Properties.Bool p property = (false, false)
  ∧ Properties.Bytes p property = (0%Z, false)
  ∧ Properties.Percent p property = (0%Z, false)
  ∧ Properties.Ratio float64_zero strconv_ParseFloat p property
    = (float64_zero, false)
  ∧ Properties.Time p property = (GoTime.zero, false)
  ∧ Properties.Uint64 p property = (0%Z, false).
Proof.
  unfold Properties.String, Properties.Bool, Properties.Bytes,
    Properties.Percent, Properties.Ratio, Properties.Time, Properties.Uint64.
  destruct Habsent as [-> | (prop & -> & Hv)].
  - repeat split.
  - rewrite Hv. repeat split.
Qed.

(** The theorem on a store whose "quota" is "-", read through every
    accessor, with a float parser that accepts everything. *)
Lemma accessors_absent_on_sentinel_witness :
  Properties.String (store_of "quota" "-") "quota" = ("", false)
  ∧ Properties.Bool (store_of "quota" "-") "quota" = (false, false)
  ∧ Properties.Bytes (store_of "quota" "-") "quota" = (0%Z, false)
  ∧ Properties.Percent (store_of "quota" "-") "quota" = (0%Z, false)
  ∧ Properties.Ratio 0%Z (fun _ => Some 1%Z) (store_of "quota" "-") "quota"
    = (0%Z, false)
  ∧ Properties.Time (store_of "quota" "-") "quota" = (GoTime.zero, false)
  ∧ Properties.Uint64 (store_of "quota" "-") "quota" = (0%Z, false).
Proof.
  apply (accessors_absent_on_sentinel 0%Z (fun _ => Some 1%Z)
           (store_of "quota" "-") "quota").
  right. exists (mkProperty "tank" "quota" "-" "-"). split; reflexivity.
Defined.

(** ** C8: the time accessor *)

Section integer_facts.
Import GoStrconv.

Lemma digit_val_range a : is_digit a = true → (0 ≤ digit_val a ≤ 9)%Z.
Proof.
  unfold is_digit, byte_in, digit_val.
  intros [H1 H2]%andb_true_iff. lia.
Qed.

Lemma digits_from_lower s : ∀ acc n,
  digits_from acc s = Some n → (0 ≤ acc)%Z → (acc ≤ n)%Z.
Proof.
  induction s as [|a s IH]; simpl; intros acc n H Hacc.
  - inversion H; lia.
  - destruct (is_digit a) eqn:Ha; [|discriminate].
    pose proof (digit_val_range a Ha).
    apply IH in H; lia.
Qed.

Lemma ParseInt_range s n :
  ParseInt s = Some n → (- 2 ^ 63 ≤ n < 2 ^ 63)%Z.
Proof.
  unfold ParseInt. destruct s as [|a s]; [discriminate|].
  set (body := if byte_is 43 a || byte_is 45 a then s else String a s).
  destruct body as [|b body']; [discriminate|].
  destruct (digits_from 0 (String b body')) as [un|] eqn:Hd; [|discriminate].
  apply digits_from_lower in Hd; [|lia].
  destruct (byte_is 45 a); simpl.
  - destruct (2 ^ 63 <? un)%Z eqn:Hc; [discriminate|].
    intros [= <-]. apply Z.ltb_ge in Hc. lia.
  - destruct (2 ^ 63 <=? un)%Z eqn:Hc; [discriminate|].
    intros [= <-]. apply Z.leb_gt in Hc. lia.
Qed.
End integer_facts.

Section time_facts.
Import GoTime.

Lemma unix_of_Unix sec :
  (- 2 ^ 63 ≤ sec < 2 ^ 63)%Z → unix_of (toUTC (Unix sec)) = sec.
Proof.
  intros Hr. unfold unix_of, toUTC, Unix, wrap_int64. simpl.
  replace ((sec + unixToInternal + 2 ^ 63) mod 2 ^ 64 - 2 ^ 63
           - unixToInternal + 2 ^ 63)%Z
    with ((sec + unixToInternal + 2 ^ 63) mod 2 ^ 64 - unixToInternal)%Z
    by lia.
  rewrite Zminus_mod_idemp_l.
  replace (sec + unixToInternal + 2 ^ 63 - unixToInternal)%Z
    with (sec + 2 ^ 63)%Z by lia.
  rewrite Z.mod_small; lia.
Qed.

Lemma parseTime_UTC str t : parseTime str = Some t → loc t = UTC.
Proof.
  unfold parseTime.
  destruct (GoStrconv.ParseInt _); [now intros [= <-]|].
  destruct (Parse _); [now intros [= <-]|discriminate].
Qed.
End time_facts.

(** C8. [Time] reports a missing key, the empty value and "-" as absent.
    For any other value it first reads the trimmed text as a base-10 [int64]
    and takes it for the seconds since the Unix epoch; when that fails it
    parses the layout "Mon Jan _2 15:04 2006"; when that fails too the value
    is absent. The time it returns is in UTC in every case. The values
    "1651487819" and "Mon May  2 10:36 2022" decode to 10:36:59 and
    10:36:00 UTC of May 2, 2022: the same instant up to the seconds. *)
Theorem Time_epoch_then_layout (p : Properties) (property : string) :
  ((p !! property = None
    ∨ ∃ prop, p !! property = Some prop
              ∧ (Value prop = "" ∨ Value prop = "-")) →
   Properties.Time p property = (GoTime.zero, false))
  ∧ (∀ prop, p !! property = Some prop →
       Value prop ≠ "" → Value prop ≠ "-" →
       Properties.Time p property
       = match GoStrconv.ParseInt (GoStrings.TrimSpace (Value prop)) with
         | Some sec => (GoTime.toUTC (GoTime.Unix sec), true)
         | None =>
             match GoTime.Parse (GoStrings.TrimSpace (Value prop)) with
             | Some t => (GoTime.toUTC t, true)
             | None => (GoTime.zero, false)
             end
         end)
  ∧ (∀ prop sec, p !! property = Some prop →
       Value prop ≠ "" → Value prop ≠ "-" →
       GoStrconv.ParseInt (GoStrings.TrimSpace (Value prop)) = Some sec →
       (Properties.Time p property).2 = true
       ∧ GoTime.unix_of (Properties.Time p property).1 = sec)
  ∧ GoTime.loc (Properties.Time p property).1 = GoTime.UTC
  ∧ (let epoch := Properties.Time (store_of "creation" "1651487819")
                                  "creation" in
     let human := Properties.Time (store_of "creation" "Mon May  2 10:36 2022")
                                  "creation" in
     epoch.2 = true ∧ human.2 = true
     ∧ GoTime.unix_of epoch.1 = 1651487819%Z
     ∧ human.1 = GoTime.Date 2022 5 2 10 36
     ∧ GoTime.ext epoch.1 = (GoTime.ext (GoTime.Date 2022 5 2 10 36) + 59)%Z
     ∧ GoTime.unix_of human.1 = 1651487760%Z
     ∧ (GoTime.ext epoch.1 - GoTime.ext epoch.1 mod 60)%Z = GoTime.ext human.1
     ∧ (GoTime.ext epoch.1 / 60)%Z = (GoTime.ext human.1 / 60)%Z).
Proof.
  split; [|split; [|split; [|split]]].
  - unfold Properties.Time.
    intros [-> | (prop & -> & [Hv | Hv])]; [reflexivity| |];
      rewrite Hv; reflexivity.
  - unfold Properties.Time, parseTime. intros prop -> H1 H2.
    case_decide as Hd; [|tauto].
    destruct (GoStrconv.ParseInt _); [reflexivity|].
    destruct (GoTime.Parse _); reflexivity.
  - unfold Properties.Time, parseTime. intros prop sec -> H1 H2 Hsec.
    case_decide as Hd; [|tauto]. rewrite Hsec. simpl.
    split; [reflexivity|].
    apply unix_of_Unix. eapply ParseInt_range; eassumption.
  - unfold Properties.Time.
    destruct (p !! property) as [prop|]; [|reflexivity].
    case_decide; [|reflexivity].
    destruct (parseTime (Value prop)) as [t|] eqn:Ht; [|reflexivity].
    simpl. eapply parseTime_UTC; eassumption.
  - vm_compute. repeat split.
Qed.

(** The theorem on the two values of the example. *)
Lemma Time_epoch_then_layout_witness :
  Properties.Time (store_of "creation" "-") "creation" = (GoTime.zero, false)
  ∧ GoTime.unix_of
      (Properties.Time (store_of "creation" "1651487819") "creation").1
    = 1651487819%Z.
Proof.
  split.
  - apply (Time_epoch_then_layout (store_of "creation" "-") "creation").
    right. exists (mkProperty "tank" "creation" "-" "-").
    split; [reflexivity|right; reflexivity].
  - apply (proj1 (proj2 (proj2
             (Time_epoch_then_layout (store_of "creation" "1651487819")
                                     "creation")))
             (mkProperty "tank" "creation" "1651487819" "-"));
      solve [reflexivity | discriminate].
Defined.

(** ** C2: sizes with binary unit suffixes *)

Section float_facts.
Import Float64.
Local Open Scope Z_scope.

Lemma div_nearest_even_exact k d : 0 < d → div_nearest_even (k * d) d = k.
Proof.
  intros Hd. unfold div_nearest_even.
  rewrite Z.div_mul, Z.mod_mul by lia.
  destruct (Z.ltb_spec (2 * 0) d); [reflexivity|lia].
Qed.

Lemma pow2_pos a : 0 ≤ a → 0 < 2 ^ a.
Proof. intros Ha. apply Z.pow_pos_nonneg; lia. Qed.

(** A positive integer of at most 53 significant bits is its own nearest
    [float64]. *)
Lemma round_exact n t :
  0 < n → 0 ≤ t → fits_float64 n → n < 2 ^ 1024 →
  ∃ m e, round (n * 2 ^ t) (2 ^ t) = Fin m e ∧ stands_for (Fin m e) n.
Proof.
  intros Hn Ht (m0 & j & Hm0 & Hj & Hfit) Hbig.
  assert (0 < m0) as Hm0pos.
  { destruct (Z.eq_dec m0 0) as [->|]; [|lia]. lia. }
  pose proof (pow2_pos t Ht) as Hpt.
  pose proof (Z.log2_nonneg n) as HL0.
  pose proof (Z.log2_spec n Hn) as [HL1 HL2].
  assert (Z.log2 n < 1024) as HL3 by (now apply Z.log2_lt_pow2).
  unfold round.
  destruct (Z.eqb_spec (n * 2 ^ t) 0) as [H0|_]; [nia|].
  rewrite Z.log2_mul_pow2, Z.log2_pow2 by lia.
  replace (t + Z.log2 n - t) with (Z.log2 n) by lia.
  remember (Z.log2 n) as L eqn:HeqL.
  rewrite (Z.max_l 0 (- L)), (Z.max_r 0 L) by lia.
  rewrite Z.pow_0_r, Z.mul_1_r.
  destruct (Z.ltb_spec (n * 2 ^ t) (2 ^ t * 2 ^ L)) as [Hlt|_]; [nia|].
  rewrite (Z.max_l (L - 52) (-1074)) by lia.
  destruct (Z_le_gt_dec (L - 52) 0) as [Hex|Hex].
  - rewrite (Z.max_r 0 (- (L - 52))), (Z.max_l 0 (L - 52)) by lia.
    rewrite Z.pow_0_r, Z.mul_1_r.
    replace (n * 2 ^ t * 2 ^ (- (L - 52)))
      with ((n * 2 ^ (- (L - 52))) * 2 ^ t) by ring.
    rewrite div_nearest_even_exact by assumption.
    rewrite Z.log2_mul_pow2 by lia.
    destruct (Z.leb_spec 1024 (- (L - 52) + Z.log2 n + (L - 52)));
      [lia|].
    eexists _, _. split; [reflexivity|]. simpl.
    destruct (Z.eq_dec (L - 52) 0) as [E|E].
    + left. rewrite E. simpl. split; [lia|]. lia.
    + right. split; [lia|reflexivity].
  - rewrite (Z.max_l 0 (- (L - 52))), (Z.max_r 0 (L - 52)) by lia.
    rewrite Z.pow_0_r, Z.mul_1_r.
    assert (L = j + Z.log2 m0) as HLj.
    { rewrite HeqL, Hfit. apply Z.log2_mul_pow2; lia. }
    assert (Z.log2 m0 < 53) as Hlm by (apply Z.log2_lt_pow2; lia).
    pose proof (Z.log2_nonneg m0).
    assert (n = (m0 * 2 ^ (j - (L - 52))) * 2 ^ (L - 52)) as Hsplit.
    { rewrite Hfit, <- Z.mul_assoc, <- Z.pow_add_r by lia.
      f_equal. f_equal. lia. }
    replace (n * 2 ^ t)
      with ((m0 * 2 ^ (j - (L - 52))) * (2 ^ t * 2 ^ (L - 52)))
      by (rewrite Hsplit; ring).
    rewrite div_nearest_even_exact
      by (apply Z.mul_pos_pos; [assumption|apply pow2_pos; lia]).
    rewrite Z.log2_mul_pow2 by lia.
    destruct (Z.leb_spec 1024 (j - (L - 52) + Z.log2 m0 + (L - 52)));
      [lia|].
    eexists _, _. split; [reflexivity|]. simpl.
    left. split; [lia|]. now rewrite <- Hsplit.
Qed.

Lemma of_uint_exact n :
  0 < n → fits_float64 n → n < 2 ^ 1024 →
  ∃ m e, of_uint n = Fin m e ∧ stands_for (Fin m e) n.
Proof.
  intros Hn Hfit Hbig. unfold of_uint.
  replace (round n 1) with (round (n * 2 ^ 0) (2 ^ 0))
    by (now rewrite Z.pow_0_r, Z.mul_1_r).
  apply round_exact; auto; lia.
Qed.

Lemma stands_for_product m1 e1 m2 e2 n1 n2 :
  stands_for (Fin m1 e1) n1 → stands_for (Fin m2 e2) n2 →
  m1 * m2 * 2 ^ Z.max 0 (e1 + e2) = n1 * n2 * 2 ^ Z.max 0 (- (e1 + e2)).
Proof.
  simpl. intros [[He1 <-]|[He1 ->]] [[He2 <-]|[He2 ->]].
  - rewrite (Z.max_r 0 (e1 + e2)), (Z.max_l 0 (- (e1 + e2))) by lia.
    rewrite Z.pow_add_r by lia. simpl. ring.
  - destruct (Z_le_gt_dec 0 (e1 + e2)).
    + rewrite (Z.max_r 0 (e1 + e2)), (Z.max_l 0 (- (e1 + e2))) by lia.
      replace (2 ^ e1) with (2 ^ (e1 + e2) * 2 ^ (- e2))
        by (rewrite <- Z.pow_add_r by lia; f_equal; lia).
      simpl. ring.
    + rewrite (Z.max_l 0 (e1 + e2)), (Z.max_r 0 (- (e1 + e2))) by lia.
      replace (2 ^ (- e2)) with (2 ^ e1 * 2 ^ (- (e1 + e2)))
        by (rewrite <- Z.pow_add_r by lia; f_equal; lia).
      simpl. ring.
  - destruct (Z_le_gt_dec 0 (e1 + e2)).
    + rewrite (Z.max_r 0 (e1 + e2)), (Z.max_l 0 (- (e1 + e2))) by lia.
      replace (2 ^ e2) with (2 ^ (e1 + e2) * 2 ^ (- e1))
        by (rewrite <- Z.pow_add_r by lia; f_equal; lia).
      simpl. ring.
    + rewrite (Z.max_l 0 (e1 + e2)), (Z.max_r 0 (- (e1 + e2))) by lia.
      replace (2 ^ (- e1)) with (2 ^ e2 * 2 ^ (- (e1 + e2)))
        by (rewrite <- Z.pow_add_r by lia; f_equal; lia).
      simpl. ring.
  - rewrite (Z.max_l 0 (e1 + e2)), (Z.max_r 0 (- (e1 + e2))) by lia.
    replace (- (e1 + e2)) with (- e1 + - e2) by lia.
    rewrite Z.pow_add_r by lia. simpl. ring.
Qed.

(** The product of two exactly held integers is exact when the product
    has at most 53 significant bits. *)
Lemma mul_exact f1 f2 n1 n2 :
  stands_for f1 n1 → stands_for f2 n2 → 0 < n1 → 0 < n2 →
  fits_float64 (n1 * n2) → n1 * n2 < 2 ^ 1024 →
  ∃ m e, mul f1 f2 = Fin m e ∧ stands_for (Fin m e) (n1 * n2).
Proof.
  intros H1 H2 Hn1 Hn2 Hfit Hbig.
  destruct f1 as [m1 e1|]; [|contradiction].
  destruct f2 as [m2 e2|]; [|contradiction].
  unfold mul. rewrite (stands_for_product _ _ _ _ _ _ H1 H2).
  apply round_exact; auto; lia.
Qed.

Lemma to_uint_exact f n : stands_for f n → to_uint f = n.
Proof.
  destruct f as [m e|]; [|contradiction]. simpl.
  intros [[He <-]|[He ->]].
  - now apply Z.shiftl_mul_pow2.
  - replace e with (- - e) at 2 by lia.
    rewrite Z.shiftl_opp_r, Z.shiftr_div_pow2 by lia.
    apply Z.div_mul. pose proof (pow2_pos (- e)). lia.
Qed.

Lemma geb_int_exact f n b : stands_for f n → geb_int f b = (b <=? n).
Proof.
  intros H. pose proof (to_uint_exact f n H) as Hu.
  destruct f as [m e|]; [|contradiction]. simpl in *. now rewrite Hu.
Qed.

Lemma fits_float64_mul_pow2 n a :
  0 ≤ a → fits_float64 n → fits_float64 (n * 2 ^ a).
Proof.
  intros Ha (m & j & Hm & Hj & ->). exists m, (j + a).
  repeat split; try lia. rewrite Z.pow_add_r by lia. ring.
Qed.
End float_facts.

Ltac byte_facts :=
  unfold plain, is_letter, is_regexp_space, GoHumanize.is_number_byte,
    GoStrings.is_ascii_space, GoStrings.space_rune2, GoStrings.space_rune3
    in *;
  unfold is_digit, is_upper, is_lower in *;
  unfold byte_in, byte_is in *;
  repeat rewrite ?andb_true_iff, ?orb_true_iff, ?negb_true_iff,
    ?andb_false_iff, ?orb_false_iff, ?negb_false_iff,
    ?Z.leb_le, ?Z.ltb_lt, ?Z.eqb_eq, ?Z.eqb_neq, ?Z.leb_gt, ?Z.ltb_ge in *;
  lia.

Section string_facts.

Lemma app_String a s t : String a s +:+ t = String a (s +:+ t).
Proof. reflexivity. Qed.

Lemma app_empty_r s : s +:+ "" = s.
Proof. induction s as [|a s IH]; [reflexivity|]. now rewrite app_String, IH. Qed.

Lemma app_assoc_string s t u : (s +:+ t) +:+ u = s +:+ (t +:+ u).
Proof.
  induction s as [|a s IH]; [reflexivity|]. now rewrite !app_String, IH.
Qed.

Lemma rev_app_spec s : ∀ t, String.rev_app s t = String.rev s +:+ t.
Proof.
  unfold String.rev. induction s as [|a s IH]; intros t; [reflexivity|].
  simpl. rewrite (IH (String a t)), (IH (String a "")).
  now rewrite app_assoc_string.
Qed.

Lemma rev_app_snoc s c : ∀ t,
  String.rev_app (s +:+ String c "") t = String c (String.rev_app s t).
Proof.
  induction s as [|a s IH]; intros t; [reflexivity|].
  rewrite app_String. simpl. apply IH.
Qed.

Lemma rev_snoc s c : String.rev (s +:+ String c "") = String c (String.rev s).
Proof. apply rev_app_snoc. Qed.

Lemma rev_cons a s : String.rev (String a s) = String.rev s +:+ String a "".
Proof. unfold String.rev at 1. simpl. apply rev_app_spec. Qed.

Lemma rev_involutive s : String.rev (String.rev s) = s.
Proof.
  induction s as [|a s IH]; [reflexivity|].
  now rewrite rev_cons, rev_snoc, IH.
Qed.

Lemma snoc_last_byte s c : last_byte (s +:+ String c "") = Some c.
Proof.
  induction s as [|a s IH]; [reflexivity|].
  rewrite app_String. simpl. rewrite IH.
  destruct (s +:+ String c "") eqn:E; [|reflexivity].
  destruct s; discriminate.
Qed.

Lemma nonempty_snoc a s : ∃ s0 c, String a s = s0 +:+ String c "".
Proof.
  revert a. induction s as [|b s IH]; intros a.
  - now exists "", a.
  - destruct (IH b) as (s0 & c & ->). now exists (String a s0), c.
Qed.

Lemma all_bytes_app f s t :
  all_bytes f (s +:+ t) = all_bytes f s && all_bytes f t.
Proof.
  induction s as [|a s IH]; [reflexivity|].
  rewrite app_String. simpl. now rewrite IH, andb_assoc.
Qed.

Lemma trim_left_plain a s :
  plain a = true → GoStrings.trim_left (String a s) = String a s.
Proof.
  intros Ha. simpl.
  assert (GoStrings.is_ascii_space a = false) as -> by byte_facts.
  destruct s as [|b s]; [reflexivity|].
  assert (GoStrings.space_rune2 a b = false) as -> by byte_facts.
  destruct s as [|c s]; [reflexivity|].
  assert (GoStrings.space_rune3 a b c = false) as -> by byte_facts.
  reflexivity.
Qed.

Lemma trim_left_rev_plain c s :
  plain c = true → GoStrings.trim_left_rev (String c s) = String c s.
Proof.
  intros Hc. simpl.
  assert (GoStrings.is_ascii_space c = false) as -> by byte_facts.
  destruct s as [|b s]; [reflexivity|].
  assert (GoStrings.space_rune2 b c = false) as -> by byte_facts.
  destruct s as [|a s]; [reflexivity|].
  assert (GoStrings.space_rune3 a b c = false) as -> by byte_facts.
  reflexivity.
Qed.

(** Text that starts and ends with a plain byte has nothing to trim. *)
Lemma TrimSpace_plain a s s0 c :
  String a s = s0 +:+ String c "" → plain a = true → plain c = true →
  GoStrings.TrimSpace (String a s) = String a s.
Proof.
  intros Hs Ha Hc. unfold GoStrings.TrimSpace, GoStrings.trim_right.
  rewrite trim_left_plain by assumption.
  rewrite Hs, rev_snoc, trim_left_rev_plain by assumption.
  now rewrite <- rev_snoc, rev_involutive.
Qed.

Lemma TrimSpace_digits ds :
  is_digit_string ds = true → GoStrings.TrimSpace ds = ds.
Proof.
  unfold is_digit_string. intros [Hne Hall]%andb_true_iff.
  destruct ds as [|a ds]; [discriminate|].
  destruct (nonempty_snoc a ds) as (s0 & c & Hs).
  apply (TrimSpace_plain a ds s0 c Hs).
  - simpl in Hall. apply andb_true_iff in Hall as [Ha _]. byte_facts.
  - rewrite Hs, all_bytes_app in Hall.
    apply andb_true_iff in Hall as [_ Hc]. simpl in Hc.
    rewrite andb_true_r in Hc. byte_facts.
Qed.

Lemma TrimSpace_digits_letter ds c :
  is_digit_string ds = true → is_letter c = true →
  GoStrings.TrimSpace (ds +:+ String c "") = ds +:+ String c "".
Proof.
  unfold is_digit_string. intros [Hne Hall]%andb_true_iff Hc.
  destruct ds as [|a ds]; [discriminate|].
  rewrite app_String.
  apply (TrimSpace_plain a _ (String a ds) c); [reflexivity| |].
  - simpl in Hall. apply andb_true_iff in Hall as [Ha _]. byte_facts.
  - byte_facts.
Qed.

Lemma take_while_app f ds t :
  all_bytes f ds = true → take_while f (ds +:+ t) = ds +:+ take_while f t.
Proof.
  induction ds as [|a ds IH]; [reflexivity|]. simpl.
  intros [Ha Hall]%andb_true_iff. rewrite ?app_String. simpl.
  now rewrite Ha, IH.
Qed.

Lemma drop_while_app f ds t :
  all_bytes f ds = true → drop_while f (ds +:+ t) = drop_while f t.
Proof.
  induction ds as [|a ds IH]; [reflexivity|]. simpl.
  intros [Ha Hall]%andb_true_iff. rewrite ?app_String. simpl.
  now rewrite Ha, IH.
Qed.

Lemma all_bytes_weaken (f g : ascii → bool) s :
  (∀ a, f a = true → g a = true) →
  all_bytes f s = true → all_bytes g s = true.
Proof.
  intros Hfg. induction s as [|a s IH]; [reflexivity|]. simpl.
  intros [Ha Hall]%andb_true_iff. now rewrite (Hfg a Ha), IH.
Qed.

Lemma filter_bytes_all f s : all_bytes f s = true → filter_bytes f s = s.
Proof.
  induction s as [|a s IH]; [reflexivity|]. simpl.
  intros [Ha Hall]%andb_true_iff. now rewrite Ha, IH.
Qed.

Lemma read_decimal_digits ds : ∀ sawdigits p,
  all_bytes is_digit ds = true →
  GoHumanize.read_decimal false sawdigits p 0 ds
  = if sawdigits || negb (String.eqb ds "")
    then Some (digits_value p ds, 0%Z) else None.
Proof.
  induction ds as [|a ds IH]; intros sd p Hall; simpl.
  - now rewrite orb_false_r.
  - apply andb_true_iff in Hall as [Ha Hall].
    rewrite Ha, IH by assumption. simpl. now rewrite orb_true_r.
Qed.

Lemma digits_value_nonneg ds : ∀ p,
  all_bytes is_digit ds = true → (0 ≤ p)%Z → (0 ≤ digits_value p ds)%Z.
Proof.
  induction ds as [|a ds IH]; intros p Hall Hp; simpl; [assumption|].
  simpl in Hall. apply andb_true_iff in Hall as [Ha Hall].
  pose proof (digit_val_range a Ha). apply IH; [assumption|lia].
Qed.

Lemma regexp_digits_letter ds c :
  is_digit_string ds = true → is_letter c = true →
  zfsIECSizeRegexp_MatchString (ds +:+ String c "") = true.
Proof.
  unfold is_digit_string. intros [Hne Hall]%andb_true_iff Hc.
  unfold zfsIECSizeRegexp_MatchString.
  rewrite drop_while_app by assumption.
  destruct ds as [|a ds]; [discriminate|]. rewrite app_String.
  simpl in Hall. apply andb_true_iff in Hall as [Ha _]. rewrite Ha.
  simpl.
  assert (is_digit c = false) as -> by byte_facts.
  simpl.
  assert (is_regexp_space c = false) as -> by byte_facts.
  assumption.
Qed.

Lemma regexp_digits ds :
  all_bytes is_digit ds = true → zfsIECSizeRegexp_MatchString ds = false.
Proof.
  intros Hall. unfold zfsIECSizeRegexp_MatchString.
  destruct ds as [|a ds]; [reflexivity|].
  rewrite <- (app_empty_r (String a ds)), drop_while_app by assumption.
  simpl. apply andb_false_r.
Qed.
End string_facts.

Section size_facts.
Import GoHumanize.
Local Open Scope Z_scope.

Lemma drop_while_none f s : take_while f s = "" → drop_while f s = s.
Proof.
  destruct s as [|a s]; [reflexivity|]. simpl.
  destruct (f a); [discriminate|reflexivity].
Qed.

Lemma ParseFloat_digits ds :
  is_digit_string ds = true → fits_float64 (digits_value 0 ds) →
  digits_value 0 ds < 2 ^ 1024 →
  ∃ m e, ParseFloat ds = Some (Float64.Fin m e)
         ∧ (digits_value 0 ds = 0 → m = 0 ∧ e = 0)
         ∧ (0 < digits_value 0 ds →
            stands_for (Float64.Fin m e) (digits_value 0 ds)).
Proof.
  unfold is_digit_string. intros [Hne Hall]%andb_true_iff Hfit Hbig.
  unfold ParseFloat. rewrite read_decimal_digits by assumption.
  rewrite Hne. simpl.
  pose proof (digits_value_nonneg ds 0 Hall (Z.le_refl 0)) as Hpos.
  destruct (Z.eq_dec (digits_value 0 ds) 0) as [E|E].
  - rewrite E. exists 0, 0.
    split; [reflexivity|]. split; [auto|lia].
  - replace (Float64.round (digits_value 0 ds) (10 ^ 0))
      with (Float64.round (digits_value 0 ds * 2 ^ 0) (2 ^ 0))
      by (f_equal; lia).
    destruct (round_exact (digits_value 0 ds) 0) as (m & e & -> & Hs);
      auto; try lia.
    exists m, e. split; [reflexivity|]. split; [lia|auto].
Qed.

(** [ParseBytes] on digits followed by a unit that stands for a power of
    two. *)
Lemma ParseBytes_digits ds rest a :
  is_digit_string ds = true →
  take_while is_number_byte rest = "" →
  bytesSizeTable (GoStrings.ToLower (GoStrings.TrimSpace rest))
    = Some (2 ^ a) →
  0 ≤ a ≤ 60 →
  fits_float64 (digits_value 0 ds) →
  digits_value 0 ds * 2 ^ a < 2 ^ 64 →
  ParseBytes (ds +:+ rest) = Some (digits_value 0 ds * 2 ^ a).
Proof.
  intros Hds Hrest Htab Ha Hfit Hsmall.
  pose proof Hds as [Hne Hall]%andb_true_iff.
  pose proof (digits_value_nonneg ds 0 Hall (Z.le_refl 0)) as Hpos.
  assert (0 < 2 ^ a) as Hpa by (apply pow2_pos; lia).
  assert (2 ^ a ≤ 2 ^ 60) as Hpa60 by (apply Z.pow_le_mono_r; lia).
  assert (digits_value 0 ds < 2 ^ 1024) as Hbig.
  { destruct (Z.eq_dec (digits_value 0 ds) 0) as [->|]; [reflexivity|].
    assert (digits_value 0 ds < 2 ^ 64) by nia.
    assert (2 ^ 64 < 2 ^ 1024) by (apply Z.pow_lt_mono_r; lia). lia. }
  unfold ParseBytes.
  rewrite take_while_app, drop_while_app
    by (eapply all_bytes_weaken; [|exact Hall]; intros; byte_facts).
  rewrite Hrest, app_empty_r, (drop_while_none _ _ Hrest), Htab.
  rewrite filter_bytes_all
    by (eapply all_bytes_weaken; [|exact Hall]; intros; byte_facts).
  destruct (ParseFloat_digits ds Hds Hfit Hbig) as (m & e & -> & H0 & H1).
  destruct (of_uint_exact (2 ^ a)) as (m2 & e2 & Hof & Hs2).
  { assumption. }
  { exists 1, a. repeat split; lia. }
  { assert (2 ^ 60 < 2 ^ 1024) by (apply Z.pow_lt_mono_r; lia). lia. }
  rewrite Hof.
  destruct (Z.eq_dec (digits_value 0 ds) 0) as [E|E].
  - destruct (H0 E) as [-> ->]. rewrite E. reflexivity.
  - assert (0 < digits_value 0 ds) as Hn by lia.
    assert (digits_value 0 ds * 2 ^ a < 2 ^ 1024) as Hprod.
    { assert (2 ^ 64 < 2 ^ 1024) by (apply Z.pow_lt_mono_r; lia). lia. }
    destruct (mul_exact (Float64.Fin m e) (Float64.Fin m2 e2)
                        (digits_value 0 ds) (2 ^ a) (H1 Hn) Hs2 Hn Hpa
                        (fits_float64_mul_pow2 _ a (proj1 Ha) Hfit) Hprod)
      as (m3 & e3 & -> & Hs3).
    rewrite (geb_int_exact _ _ _ Hs3), (to_uint_exact _ _ Hs3).
    destruct (Z.leb_spec (2 ^ 64) (digits_value 0 ds * 2 ^ a));
      [lia|reflexivity].
Qed.

Lemma unit_power_inv c k :
  unit_power c = Some k →
  (c = "K"%char ∧ k = 1) ∨ (c = "M"%char ∧ k = 2) ∨ (c = "G"%char ∧ k = 3)
  ∨ (c = "T"%char ∧ k = 4) ∨ (c = "P"%char ∧ k = 5).
Proof.
  unfold unit_power.
  repeat match goal with
         | |- context [Ascii.eqb c ?x] =>
             destruct (Ascii.eqb_spec c x) as [->|]
         end; intros [= <-]; tauto.
Qed.

Lemma parseSize_digits_unit ds c k :
  is_digit_string ds = true → unit_power c = Some k →
  fits_float64 (digits_value 0 ds) →
  digits_value 0 ds * 1024 ^ k < 2 ^ 64 →
  parseSize (ds +:+ String c "") = Some (digits_value 0 ds * 1024 ^ k).
Proof.
  intros Hds Hc Hfit Hsmall. unfold parseSize.
  assert (is_letter c = true) as Hl.
  { destruct (unit_power_inv c k Hc)
      as [[-> _]|[[-> _]|[[-> _]|[[-> _]|[-> _]]]]]; reflexivity. }
  rewrite TrimSpace_digits_letter, regexp_digits_letter by assumption.
  rewrite app_assoc_string, app_String.
  change ("" +:+ "iB") with "iB".
  destruct (unit_power_inv c k Hc)
    as [[-> ->]|[[-> ->]|[[-> ->]|[[-> ->]|[-> ->]]]]];
    [ change (1024 ^ 1) with (2 ^ 10) in *
    | change (1024 ^ 2) with (2 ^ 20) in *
    | change (1024 ^ 3) with (2 ^ 30) in *
    | change (1024 ^ 4) with (2 ^ 40) in *
    | change (1024 ^ 5) with (2 ^ 50) in * ];
    apply ParseBytes_digits; auto; try reflexivity; lia.
Qed.

Lemma parseSize_digits ds :
  is_digit_string ds = true → fits_float64 (digits_value 0 ds) →
  digits_value 0 ds < 2 ^ 64 →
  parseSize ds = Some (digits_value 0 ds).
Proof.
  intros Hds Hfit Hsmall. unfold parseSize.
  pose proof Hds as [Hne Hall]%andb_true_iff.
  rewrite TrimSpace_digits, regexp_digits by assumption.
  rewrite <- (app_empty_r ds) at 1.
  rewrite <- (Z.mul_1_r (digits_value 0 ds)).
  change 1 with (2 ^ 0).
  apply ParseBytes_digits; auto; try reflexivity; lia.
Qed.

Lemma digit_string_not_blank ds t :
  is_digit_string ds = true → ds +:+ t ≠ "-".
Proof.
  unfold is_digit_string. intros [Hne Hall]%andb_true_iff.
  destruct ds as [|a ds]; [discriminate|]. rewrite app_String.
  simpl in Hall. apply andb_true_iff in Hall as [Ha _].
  intros [= -> _]. discriminate.
Qed.
End size_facts.

(** C2 (as amended). For every decimal digit string [n] whose value has at
    most 53 significant bits (every value below 2^53 has), followed by one
    of the suffixes K, M, G, T, P with power [k], when [n * 1024^k] is below
    2^64 [Bytes] returns [n * 1024^k] with presence true; the digit string
    alone, below 2^64, is returned as it is. "42K" gives 43008, "383M" gives
    401604608 and "84G" gives 90194313216. *)
Theorem Bytes_binary_units
    (p : Properties) (property : string) (prop : Property) (ds : string)
    (Hprop : p !! property = Some prop)
    (Hds : is_digit_string ds = true)
    (Hfit : fits_float64 (digits_value 0 ds)) :
  (∀ c k, unit_power c = Some k →
     Value prop = ds +:+ String c "" →
     (digits_value 0 ds * 1024 ^ k < 2 ^ 64)%Z →
     Properties.Bytes p property = ((digits_value 0 ds * 1024 ^ k)%Z, true))
  ∧ (Value prop = ds → (digits_value 0 ds < 2 ^ 64)%Z →
     Properties.Bytes p property = (digits_value 0 ds, true))
  ∧ Properties.Bytes (store_of "quota" "42K") "quota" = (43008%Z, true)
  ∧ Properties.Bytes (store_of "quota" "383M") "quota" = (401604608%Z, true)
  ∧ Properties.Bytes (store_of "quota" "84G") "quota"
    = (90194313216%Z, true).
Proof.
  split; [|split; [|repeat split; vm_compute; reflexivity]].
  - intros c k Hc Hv Hsmall. unfold Properties.Bytes. rewrite Hprop, Hv.
    case_decide as Hd; [|now apply digit_string_not_blank in Hd].
    now rewrite (parseSize_digits_unit ds c k).
  - intros Hv Hsmall. unfold Properties.Bytes. rewrite Hprop, Hv.
    case_decide as Hd.
    + now rewrite parseSize_digits.
    + exfalso. assert (ds ≠ "-") as Hne; [|tauto].
      rewrite <- (app_empty_r ds). now apply digit_string_not_blank.
Qed.

(** The theorem on "1023P" and on "239". *)
Lemma Bytes_binary_units_witness :
  Properties.Bytes (store_of "quota" "1023P") "quota"
  = ((1023 * 1024 ^ 5)%Z, true)
  ∧ Properties.Bytes (store_of "quota" "239") "quota" = (239%Z, true).
Proof.
  assert (fits_float64 (digits_value 0 "1023")) as H1023
    by (exists 1023%Z, 0%Z; repeat split; solve [lia | reflexivity]).
  assert (fits_float64 (digits_value 0 "239")) as H239
    by (exists 239%Z, 0%Z; repeat split; solve [lia | reflexivity]).
  split.
  - apply (proj1 (Bytes_binary_units (store_of "quota" "1023P") "quota"
                    (mkProperty "tank" "quota" "1023P" "-") "1023"
                    eq_refl eq_refl H1023) "P"%char 5%Z);
      reflexivity.
  - apply (proj1 (proj2 (Bytes_binary_units (store_of "quota" "239") "quota"
                    (mkProperty "tank" "quota" "239" "-") "239"
                    eq_refl eq_refl H239)));
      reflexivity.
Defined.

(** C2 (as stated) fails for large digit strings: 2^53 + 1 is rounded to
    2^53 before it is multiplied, and a product from 2^64 on is refused. *)
Lemma Bytes_large_digit_strings :
  Properties.Bytes (store_of "quota" "9007199254740993K") "quota"
    = (9223372036854775808%Z, true)
  ∧ Properties.Bytes (store_of "quota" "9007199254740993K") "quota"
    ≠ ((9007199254740993 * 1024 ^ 1)%Z, true)
  ∧ Properties.Bytes (store_of "quota" "99999999999999999999K") "quota"
    = (0%Z, false)
  ∧ Properties.Bytes (store_of "quota" "99999999999999999999K") "quota"
    ≠ ((99999999999999999999 * 1024 ^ 1)%Z, true).
Proof. repeat split; vm_compute; congruence. Qed.

(** * Part III: further properties of the package *)

(** ** Joining and splitting again *)

Lemma has_byte_app c s t :
  has_byte c (s +:+ t) = has_byte c s || has_byte c t.
Proof.
  induction s as [|a s IH]; [reflexivity|].
  rewrite app_String. simpl. now rewrite IH, orb_assoc.
Qed.

Section join_facts.
Variable c : ascii.

Lemma split_on_clean s : has_byte c s = false → split_on c s = [s].
Proof.
induction s as [|a s IH]; [reflexivity|]. simpl.
intros [Ha Hs]%orb_false_iff. now rewrite Ha, IH.
Qed.

Lemma split_on_cons s rest :
has_byte c s = false →
split_on c (s +:+ String c rest) = s :: split_on c rest.
Proof.
induction s as [|a s IH]; intros H.
- change ("" +:+ String c rest) with (String c rest). simpl.
  now rewrite Ascii.eqb_refl.
- simpl in H. apply orb_false_iff in H as [Ha Hs].
  rewrite app_String. simpl. now rewrite Ha, (IH Hs).
Qed.

Lemma split_join l :
l ≠ [] → Forall (fun w => has_byte c w = false) l →
split_on c (join_with c l) = l.
Proof.
induction l as [|w l IH]; [congruence|]. intros _ Hall.
inversion Hall as [|? ? Hw Hl]; subst.
destruct l as [|w' l].
- simpl. now apply split_on_clean.
- rewrite join_with_cons by discriminate.
  rewrite split_on_cons by assumption. f_equal. now apply IH.
Qed.

Lemma join_sep_one l : join_sep (String c "") l = join_with c l.
Proof.
induction l as [|w l IH]; [reflexivity|].
destruct l as [|w' l]; [reflexivity|].
change (join_sep (String c "") (w :: w' :: l))
  with (w +:+ String c "" +:+ join_sep (String c "") (w' :: l)).
rewrite IH. reflexivity.
Qed.

Lemma join_with_clean d l :
Forall (fun w => has_byte d w = false) l → Ascii.eqb c d = false →
has_byte d (join_with c l) = false.
Proof.
intros Hall Hcd. induction l as [|w l IH]; [reflexivity|].
inversion Hall as [|? ? Hw Hl]; subst.
destruct l as [|w' l]; [assumption|].
rewrite join_with_cons by discriminate.
rewrite has_byte_app, Hw.
change (has_byte d (String c (join_with c (w' :: l))))
  with (Ascii.eqb c d || has_byte d (join_with c (w' :: l))).
now rewrite Hcd, (IH Hl).
Qed.
End join_facts.

(** ** X1: decoding the text of clean records gives the records back *)

(** X1. When there is at least one record, every record has at least one
    field and no field holds a TAB or an LF, [parseTabular] applied to the
    records written out (fields joined by TAB, records by LF) returns the
    records. *)
Theorem parseTabular_unparse (records : list (list string))
    (Hrecords : records ≠ [])
    (Hfields : Forall (fun record =>
                 record ≠ []
                 ∧ Forall (fun field => has_byte TAB field = false
                                        ∧ has_byte LF field = false) record)
               records) :
  parseTabular (unparseTabular records) = records.
Proof.
  unfold parseTabular, unparseTabular.
  rewrite split_join.
  - rewrite map_map. rewrite <- (map_id records) at 2.
    apply map_ext_in. intros record Hin.
    rewrite List.Forall_forall in Hfields.
    destruct (Hfields record Hin) as [Hne Hclean].
    apply split_join; [assumption|].
    eapply List.Forall_impl; [|exact Hclean]. now intros f [? ?].
  - destruct records; [congruence|discriminate].
  - apply List.Forall_forall. intros line Hin.
    apply in_map_iff in Hin as (record & <- & Hin).
    rewrite List.Forall_forall in Hfields.
    destruct (Hfields record Hin) as [_ Hclean].
    apply join_with_clean; [|reflexivity].
    eapply List.Forall_impl; [|exact Hclean]. now intros f [? ?].
Qed.

(** The theorem on two property records. *)
Lemma parseTabular_unparse_witness :
  parseTabular (unparseTabular [["tank"; "size"; "336M"; "-"];
                                ["tank"; "altroot"; "-"; "default"]])
  = [["tank"; "size"; "336M"; "-"]; ["tank"; "altroot"; "-"; "default"]].
Proof.
  apply parseTabular_unparse; [discriminate|].
  repeat constructor; discriminate.
Defined.

(** ** X2: what the builder keeps true of its stores *)

Lemma newProperties_stores_nonempty records : ∀ entity store,
  newProperties records !! entity = Some store → store ≠ ∅.
Proof.
  induction records as [|record records IH] using rev_ind;
    intros entity store H.
  - unfold newProperties in H. simpl in H. now rewrite lookup_empty in H.
  - rewrite newProperties_snoc in H.
    destruct (accepted record) eqn:Hacc.
    + destruct (accepted_inv _ Hacc) as (n & q & v & s & -> & Hn).
      rewrite step_accepted in H by assumption.
      destruct (decide (n = entity)) as [->|Hne].
      * rewrite lookup_insert_eq in H. inversion H; subst.
        apply insert_non_empty.
      * rewrite lookup_insert_ne in H by assumption. eapply IH; eassumption.
    + rewrite step_rejected in H by assumption. eapply IH; eassumption.
Qed.

Lemma newProperties_entry records entity store k prop :
  newProperties records !! entity = Some store → store !! k = Some prop →
  ∃ record, record ∈ records ∧ accepted record = true
            ∧ nth 0 record "" = entity ∧ nth 1 record "" = k
            ∧ property_of record = prop.
Proof.
  intros Hstore Hprop.
  pose proof (newProperties_lookup records entity k) as H.
  rewrite Hstore in H. simpl in H. rewrite Hprop in H.
  unfold last_accepted in H. symmetry in H.
  apply fmap_Some in H as (record & Hlast & ->).
  apply last_Some in Hlast as (l' & Hl').
  assert (record ∈ filter (fun r => accepted r = true
                             ∧ nth 0 r "" = entity ∧ nth 1 r "" = k) records)
    as Hin by (rewrite Hl'; apply elem_of_app; right; left).
  apply list_elem_of_filter in Hin as [(Ha & He & Hk) Hin].
  exists record. auto.
Qed.

(** X2. Every store that [newProperties] builds belongs to a non-empty
    entity name, is not empty, and holds each property under that
    property's own name, with the entity's name in it; each stored property
    comes from an accepted record of the input. *)
Theorem newProperties_stores_well_formed
    (records : list (list string)) (entity : string) (store : Properties)
    (Hstore : newProperties records !! entity = Some store) :
  entity ≠ "" ∧ store ≠ ∅
  ∧ (∀ k prop, store !! k = Some prop →
       Name prop = entity ∧ Property' prop = k
       ∧ ∃ record, record ∈ records ∧ accepted record = true
                   ∧ property_of record = prop).
Proof.
  split; [|split].
  - assert (is_Some (newProperties records !! entity)) as H by eauto.
    apply newProperties_entities in H as (record & _ & Hacc & <-).
    destruct (accepted_inv _ Hacc) as (n & q & v & s & -> & Hn). exact Hn.
  - eapply newProperties_stores_nonempty; eassumption.
  - intros k prop Hprop.
    destruct (newProperties_entry _ _ _ _ _ Hstore Hprop)
      as (record & Hin & Hacc & He & Hk & <-).
    split; [exact He|]. split; [exact Hk|]. eauto.
Qed.

(** The theorem on the output of a pool query. *)
Lemma newProperties_stores_well_formed_witness :
  "tank" ≠ ""
  ∧ ({[ "size" := mkProperty "tank" "size" "336M" "-" ]} : Properties) ≠ ∅.
Proof.
  pose proof (newProperties_stores_well_formed
                [["tank"; "size"; "336M"; "-"]] "tank"
                {[ "size" := mkProperty "tank" "size" "336M" "-" ]}
                eq_refl) as (H1 & H2 & _).
  exact (conj H1 H2).
Defined.

(** ** X3: a query for one entity returns the builder's store as it is *)

Lemma builder_store_keyed records name :
  ∀ k prop, store_for (newProperties records) name !! k = Some prop →
            Name prop = name ∧ Property' prop = k.
Proof.
  intros k prop H. unfold store_for in H.
  destruct (newProperties records !! name) as [store|] eqn:Hs; simpl in H.
  - destruct (newProperties_entry _ _ _ _ _ Hs H)
      as (record & _ & _ & He & Hk & <-). auto.
  - now rewrite lookup_empty in H.
Qed.

Lemma builder_store_unfiltered records name entries :
  entries ≡ₚ map_to_list (store_for (newProperties records) name) →
  foldl (filter_step name) ∅ entries = store_for (newProperties records) name.
Proof.
  intros Hperm. rewrite (filter_loop_keyed name _ _ Hperm).
  - apply map_filter_id. intros k prop H. simpl.
    now apply builder_store_keyed in H as [? _].
  - intros k prop H. now apply builder_store_keyed in H as [_ ?].
Qed.

(** X3. When [GetDataset] (and [GetPool]) returns a wrapper, the name was
    valid, the wrapper carries that name, and its store is the store that
    [newProperties] built for the name from the command's output: the
    filter of the constructor drops nothing, in whatever order the store is
    visited. An output without a record for the name gives a wrapper with
    an empty store, not an error. *)
Theorem GetDataset_returns_builder_store
    (m : Manager) (name : string) (properties : list string) :
  (∀ d, GetDataset m name properties = inl d →
     validDatasetName name = true ∧ Dataset_Name d = name
     ∧ Dataset_Properties d
       = store_for (newProperties (parseTabular (run_stdout
           (Runner m "zfs" ["get"; "-Hp"; "-o"; "name,property,value,source";
                            query_properties properties; name])))) name
     ∧ ∀ k prop, Dataset_Properties d !! k = Some prop →
                 Name prop = name ∧ Property' prop = k)
  ∧ (∀ p, GetPool m name properties = inl p →
     validPoolName name = true ∧ Pool_Name p = name
     ∧ Pool_Properties p
       = store_for (newProperties (parseTabular (run_stdout
           (Runner m "zpool" ["get"; "-Hp"; "-o";
                              "name,property,value,source";
                              query_properties properties; name])))) name
     ∧ ∀ k prop, Pool_Properties p !! k = Some prop →
                 Name prop = name ∧ Property' prop = k)
  ∧ (∀ records entries,
       entries ≡ₚ map_to_list (store_for (newProperties records) name) →
       NewDataset_in_order name entries
       = mkDataset (store_for (newProperties records) name) name
       ∧ newPool_in_order name entries
         = mkPool name (store_for (newProperties records) name))
  ∧ (∀ records, newProperties records !! name = None →
       NewDataset name (store_for (newProperties records) name)
       = mkDataset ∅ name).
Proof.
  split; [|split; [|split]].
  - intros d. unfold GetDataset, zfs, run_tabular.
    destruct (validDatasetName name); simpl; [|discriminate].
    destruct (run_err _); [discriminate|]. intros [= <-].
    unfold NewDataset, NewDataset_in_order. simpl.
    erewrite builder_store_unfiltered; [|reflexivity].
    split; [reflexivity|]. split; [reflexivity|]. split; [reflexivity|].
    intros k prop H. eapply builder_store_keyed; exact H.
  - intros p. unfold GetPool, zpool, run_tabular.
    destruct (validPoolName name); simpl; [|discriminate].
    destruct (run_err _); [discriminate|]. intros [= <-].
    unfold newPool, newPool_in_order. simpl.
    erewrite builder_store_unfiltered; [|reflexivity].
    split; [reflexivity|]. split; [reflexivity|]. split; [reflexivity|].
    intros k prop H. eapply builder_store_keyed; exact H.
  - intros records entries Hperm.
    unfold NewDataset_in_order, newPool_in_order.
    now rewrite (builder_store_unfiltered records name entries Hperm).
  - intros records Hnone. unfold store_for. rewrite Hnone. reflexivity.
Qed.

(** The theorem on a runner that prints one property of "tank/a". *)
Lemma GetDataset_returns_builder_store_witness :
  match GetDataset (printing_manager
                      (unparseTabular [["tank/a"; "quota"; "10G"; "local"]]))
                   "tank/a" [] with
  | inl d => Dataset_Name d = "tank/a"
  | inr _ => False
  end.
Proof.
  pose proof (proj1 (GetDataset_returns_builder_store
                       (printing_manager
                          (unparseTabular [["tank/a"; "quota"; "10G"; "local"]]))
                       "tank/a" [])) as H.
  destruct (GetDataset _ "tank/a" []) as [d|e] eqn:E.
  - exact (proj1 (proj2 (H d eq_refl))).
  - vm_compute in E. discriminate.
Defined.

(** ** X4: listing gives one wrapper per entity *)

Lemma GetDataset_store_is_builder_store records name store :
  newProperties records !! name = Some store →
  Dataset_Properties (NewDataset name store) = store.
Proof.
  intros H. unfold NewDataset, NewDataset_in_order. simpl.
  replace store with (store_for (newProperties records) name) at 1 2
    by (unfold store_for; now rewrite H).
  now apply builder_store_unfiltered.
Qed.

Lemma newProperties_stores_entity records name store :
  newProperties records !! name = Some store → store ≠ ∅ ∧ name ≠ "".
Proof.
  intros H. split; [eapply newProperties_stores_nonempty; eassumption|].
  assert (is_Some (newProperties records !! name)) as Hs by eauto.
  apply newProperties_entities in Hs as (record & _ & Hacc & <-).
  destruct (accepted_inv _ Hacc) as (n & q & v & s & -> & Hn). exact Hn.
Qed.

Lemma datasets_in_order_names entries :
  map Dataset_Name (datasets_in_order entries) = map fst entries.
Proof. unfold datasets_in_order. rewrite map_map. reflexivity. Qed.

Lemma pools_in_order_names entries :
  map Pool_Name (pools_in_order entries) = map fst entries.
Proof. unfold pools_in_order. rewrite map_map. reflexivity. Qed.

Lemma map_fst_fmap {A B} (l : list (A * B)) : map fst l = l.*1.
Proof. induction l as [|x l IH]; [reflexivity|]. simpl. now rewrite IH. Qed.

(** X4. Whatever the order in which the entity stores are visited,
    [ListDatasets] (and [ListPools]) returns one wrapper per entity of the
    output: the names are pairwise different, they are the entities that
    have an accepted record, and each wrapper holds the whole store built
    for its name, which is not empty. *)
Theorem listing_one_wrapper_per_entity
    (records : list (list string)) (entries : list (string * Properties))
    (Hentries : entries ≡ₚ map_to_list (newProperties records)) :
  NoDup (map Dataset_Name (datasets_in_order entries))
  ∧ (∀ name, In name (map Dataset_Name (datasets_in_order entries))
             ↔ is_Some (newProperties records !! name))
  ∧ length (datasets_in_order entries) = size (newProperties records)
  ∧ Forall (fun d =>
              newProperties records !! Dataset_Name d
              = Some (Dataset_Properties d)
              ∧ Dataset_Properties d ≠ ∅ ∧ Dataset_Name d ≠ "")
           (datasets_in_order entries)
  ∧ map Pool_Name (pools_in_order entries)
    = map Dataset_Name (datasets_in_order entries)
  ∧ map Pool_Properties (pools_in_order entries)
    = map Dataset_Properties (datasets_in_order entries).
Proof.
  assert (∀ name store, In (name, store) entries
                        ↔ newProperties records !! name = Some store) as Hin.
  { intros name store. rewrite <- list_elem_of_In, Hentries.
    apply elem_of_map_to_list. }
  split; [|split; [|split; [|split; [|split]]]].
  - rewrite datasets_in_order_names, map_fst_fmap, Hentries.
    apply NoDup_fst_map_to_list.
  - intros name. rewrite datasets_in_order_names, in_map_iff. split.
    + intros ([n store] & <- & H). apply Hin in H. simpl. eauto.
    + intros [store H]. exists (name, store). split; [reflexivity|].
      now apply Hin.
  - unfold datasets_in_order. rewrite length_map, Hentries.
    apply length_map_to_list.
  - apply List.Forall_forall. intros d Hd.
    apply in_map_iff in Hd as ([name store] & <- & H).
    apply Hin in H.
    change (NewDataset (name, store).1 (name, store).2)
      with (NewDataset name store).
    change (Dataset_Name (NewDataset name store)) with name.
    rewrite (GetDataset_store_is_builder_store records name store H).
    destruct (newProperties_stores_entity records name store H) as [? ?].
    auto.
  - now rewrite datasets_in_order_names, pools_in_order_names.
  - unfold pools_in_order, datasets_in_order. rewrite !map_map.
    reflexivity.
Qed.

(** The theorem on the records of two pools. *)
Lemma listing_one_wrapper_per_entity_witness :
  length (datasets_in_order (map_to_list (newProperties
            [["tank"; "size"; "336M"; "-"]; ["dozer"; "size"; "1G"; "-"];
             ["tank"; "free"; "100M"; "-"]])))
  = 2.
Proof.
  rewrite (proj1 (proj2 (proj2 (listing_one_wrapper_per_entity
             [["tank"; "size"; "336M"; "-"]; ["dozer"; "size"; "1G"; "-"];
              ["tank"; "free"; "100M"; "-"]] _ (Permutation_refl _))))).
  vm_compute. reflexivity.
Defined.

(** ** X5: listing names *)

Lemma record_names_nonempty records : Forall (fun n => n ≠ "") (record_names records).
Proof.
  induction records as [|record records IH]; [constructor|]. simpl.
  destruct record as [|field record]; [assumption|].
  case_decide; [constructor; assumption|assumption].
Qed.

Lemma record_names_app l1 l2 :
  record_names (l1 ++ l2) = record_names l1 ++ record_names l2.
Proof.
  induction l1 as [|record l1 IH]; [reflexivity|]. simpl.
  destruct record as [|field record]; [assumption|].
  case_decide; [simpl; now rewrite IH|assumption].
Qed.

Lemma record_names_singletons names :
  Forall (fun n => n ≠ "") names →
  record_names (map (fun n => [n]) names) = names.
Proof.
  induction names as [|n names IH]; [reflexivity|].
  intros Hall. inversion Hall; subst. simpl.
  case_decide; [|contradiction]. now rewrite IH.
Qed.

Lemma parseTabular_names names :
  names ≠ [] →
  Forall (fun n => has_byte TAB n = false ∧ has_byte LF n = false) names →
  parseTabular (join_with LF names) = map (fun n => [n]) names.
Proof.
  intros Hne Hall. unfold parseTabular. rewrite split_join.
  - apply map_ext_in. intros n Hin. rewrite List.Forall_forall in Hall.
    apply split_on_clean. now apply Hall.
  - assumption.
  - eapply List.Forall_impl; [|exact Hall]. now intros n [? ?].
Qed.

(** X5. The names that [ListDatasetNames] and [ListPoolNames] return are
    never empty. When the command prints one name per line, each line ended
    by LF, and the names are neither empty nor hold a TAB or an LF, the
    result is the list of these names, in order; an empty output gives the
    empty list. *)
Theorem listed_names_are_the_lines
    (names : list string)
    (Hnames : Forall (fun n => n ≠ "" ∧ has_byte TAB n = false
                               ∧ has_byte LF n = false) names) :
  (∀ records, Forall (fun n => n ≠ "") (record_names records))
  ∧ record_names (parseTabular (join_with LF names +:+ String LF "")) = names
  ∧ record_names (parseTabular (join_with LF names)) = names
  ∧ (∀ filter depth typ,
       ListDatasetNames (printing_manager (join_with LF names +:+ String LF ""))
                        filter depth typ = inl names)
  ∧ ListPoolNames (printing_manager (join_with LF names +:+ String LF ""))
    = inl names
  ∧ ListPoolNames (printing_manager "") = inl [].
Proof.
  assert (record_names (parseTabular (join_with LF names)) = names) as H1.
  { destruct names as [|n names]; [reflexivity|].
    rewrite parseTabular_names; [|discriminate|].
    - apply record_names_singletons.
      eapply List.Forall_impl; [|exact Hnames]. now intros ? [? _].
    - eapply List.Forall_impl; [|exact Hnames]. now intros ? [_ ?]. }
  assert (record_names (parseTabular (join_with LF names +:+ String LF ""))
          = names) as H2.
  { rewrite parseTabular_trailing, record_names_app, H1. simpl.
    apply app_nil_r. }
  split; [apply record_names_nonempty|].
  split; [exact H2|]. split; [exact H1|].
  split; [|split].
  - intros filter depth typ.
    unfold ListDatasetNames, zfs, run_tabular, printing_manager. simpl.
    now rewrite H2.
  - unfold ListPoolNames, zpool, run_tabular, printing_manager. simpl.
    now rewrite H2.
  - reflexivity.
Qed.

(** The theorem on two dataset names. *)
Lemma listed_names_are_the_lines_witness :
  ListPoolNames (printing_manager
                   (join_with LF ["tank"; "dozer"] +:+ String LF ""))
  = inl ["tank"; "dozer"].
Proof.
  apply (listed_names_are_the_lines ["tank"; "dozer"]).
  repeat constructor; discriminate.
Defined.

(** ** X6: the flags of [DestroyDataset] *)

(** X6. The arguments of [DestroyDataset] depend on the set of flags only:
    two flag lists with the same members, in any order and with any
    repetitions, give the same arguments, and a value that is none of the
    four constants changes nothing. The options come in the fixed order
    -r, -R, -d, -f between "destroy" and the name, each at most once and
    exactly when its flag is given. *)
Theorem DestroyDataset_flags_as_set (name : string) (flags : list Z) :
  (∀ flags', (∀ f, f ∈ flags ↔ f ∈ flags') →
     DestroyDataset_args name flags = DestroyDataset_args name flags')
  ∧ (∀ f, f ∉ [DestroyRecursive; DestroyRecursiveClones;
               DestroyDeferDeletion; DestroyForceUnmount] →
       DestroyDataset_args name (f :: flags) = DestroyDataset_args name flags)
  ∧ DestroyDataset_args name flags
    = ["destroy"]
      ++ (if decide (DestroyRecursive ∈ flags) then ["-r"] else [])
      ++ (if decide (DestroyRecursiveClones ∈ flags) then ["-R"] else [])
      ++ (if decide (DestroyDeferDeletion ∈ flags) then ["-d"] else [])
      ++ (if decide (DestroyForceUnmount ∈ flags) then ["-f"] else [])
      ++ [name]
  ∧ DestroyDataset_args name [] = ["destroy"; name]
  ∧ DestroyDataset_args name
      [DestroyForceUnmount; DestroyRecursive; DestroyForceUnmount]
    = ["destroy"; "-r"; "-f"; name].
Proof.
  assert (∀ l, DestroyDataset_args name l
    = ["destroy"]
      ++ (if decide (DestroyRecursive ∈ l) then ["-r"] else [])
      ++ (if decide (DestroyRecursiveClones ∈ l) then ["-R"] else [])
      ++ (if decide (DestroyDeferDeletion ∈ l) then ["-d"] else [])
      ++ (if decide (DestroyForceUnmount ∈ l) then ["-f"] else [])
      ++ [name]) as Hshape.
  { intros l. unfold DestroyDataset_args.
    rewrite (decide_ext (DestroyRecursive ∈ list_to_set (C:=gset Z) l)
               (DestroyRecursive ∈ l)) by apply elem_of_list_to_set.
    rewrite (decide_ext (DestroyRecursiveClones ∈ list_to_set (C:=gset Z) l)
               (DestroyRecursiveClones ∈ l)) by apply elem_of_list_to_set.
    rewrite (decide_ext (DestroyDeferDeletion ∈ list_to_set (C:=gset Z) l)
               (DestroyDeferDeletion ∈ l)) by apply elem_of_list_to_set.
    rewrite (decide_ext (DestroyForceUnmount ∈ list_to_set (C:=gset Z) l)
               (DestroyForceUnmount ∈ l)) by apply elem_of_list_to_set.
    reflexivity. }
  assert (∀ l l', (∀ f, f ∈ [DestroyRecursive; DestroyRecursiveClones;
                              DestroyDeferDeletion; DestroyForceUnmount] →
                        f ∈ l ↔ f ∈ l') →
            DestroyDataset_args name l = DestroyDataset_args name l')
    as Hsame4.
  { intros l l' H. rewrite !Hshape.
    rewrite (decide_ext (DestroyRecursive ∈ l) (DestroyRecursive ∈ l'))
      by (apply H; rewrite !elem_of_cons; auto).
    rewrite (decide_ext (DestroyRecursiveClones ∈ l)
                        (DestroyRecursiveClones ∈ l'))
      by (apply H; rewrite !elem_of_cons; auto).
    rewrite (decide_ext (DestroyDeferDeletion ∈ l)
                        (DestroyDeferDeletion ∈ l'))
      by (apply H; rewrite !elem_of_cons; auto).
    rewrite (decide_ext (DestroyForceUnmount ∈ l) (DestroyForceUnmount ∈ l'))
      by (apply H; rewrite !elem_of_cons; auto).
    reflexivity. }
  split; [|split; [|split; [|split]]].
  - intros flags' Hsame. apply Hsame4. intros f _. apply Hsame.
  - intros f Hf. apply Hsame4. intros g Hg. rewrite elem_of_cons.
    split; [intros [->|?]; [contradiction|assumption]|auto].
  - apply Hshape.
  - reflexivity.
  - vm_compute. reflexivity.
Qed.

(** The theorem on two orders of the same flags. *)
Lemma DestroyDataset_flags_as_set_witness :
  DestroyDataset_args "tank/a" [DestroyRecursive; DestroyForceUnmount]
  = DestroyDataset_args "tank/a"
      [DestroyForceUnmount; DestroyRecursive; DestroyRecursive].
Proof.
  apply (proj1 (DestroyDataset_flags_as_set "tank/a"
                  [DestroyRecursive; DestroyForceUnmount])).
  intros f. rewrite !elem_of_cons. tauto.
Defined.

(** ** X7: valid names *)

Lemma byte_is_eqb v a :
  (0 ≤ v < 256)%Z → byte_is v a = Ascii.eqb a (byte_of v).
Proof.
  intros Hv. unfold byte_is, byte_val, byte_of.
  destruct (Ascii.eqb_spec a (ascii_of_N (Z.to_N v))) as [->|Hne].
  - rewrite N_ascii_embedding by lia. apply Z.eqb_eq. lia.
  - apply Z.eqb_neq. intros H. apply Hne.
    rewrite <- H, N2Z.id. symmetry. apply ascii_N_embedding.
Qed.

Lemma slash_is a : byte_is 47 a = Ascii.eqb a "/".
Proof. now rewrite byte_is_eqb by lia. Qed.

Lemma last_byte_app s a t : last_byte (s +:+ String a t) = last_byte (String a t).
Proof.
  induction s as [|b s IH]; [reflexivity|].
  rewrite app_String.
  change (last_byte (String b (s +:+ String a t)))
    with (match s +:+ String a t with
          | "" => Some b
          | String _ _ => last_byte (s +:+ String a t)
          end).
  destruct (s +:+ String a t) eqn:E; [destruct s; discriminate|].
  exact IH.
Qed.

Lemma last_byte_in c s l :
  has_byte c s = false → last_byte s = Some l → Ascii.eqb l c = false.
Proof.
  induction s as [|a s IH]; [discriminate|]. simpl.
  intros [Ha Hs]%orb_false_iff.
  destruct s as [|b s]; [now intros [= <-]|]. now apply IH.
Qed.

(** X7. A valid pool name is a valid dataset name. Two valid dataset names
    joined by a slash form a valid dataset name, which is not a valid pool
    name; a name that starts or ends with a slash, and the empty name, are
    not valid. *)
Theorem valid_names_compose (a b : string) :
  (validPoolName a = true → validDatasetName a = true)
  ∧ (validDatasetName a = true → validDatasetName b = true →
     validDatasetName (a +:+ "/" +:+ b) = true)
  ∧ validPoolName (a +:+ "/" +:+ b) = false
  ∧ validDatasetName (a +:+ "/") = false
  ∧ validDatasetName ("/" +:+ a) = false
  ∧ validDatasetName "" = false.
Proof.
  split; [|split; [|split; [|split; [|split]]]].
  - unfold validPoolName, validDatasetName.
    destruct a as [|c a]; [discriminate|].
    intros H%negb_true_iff. rewrite slash_is.
    pose proof H as [Hc _]%orb_false_iff. rewrite Hc.
    simpl negb. rewrite andb_true_l.
    destruct (last_byte (String c a)) as [l|] eqn:Hl.
    + rewrite slash_is, (last_byte_in _ _ _ H Hl). reflexivity.
    + destruct (nonempty_snoc c a) as (s0 & l & Hs).
      rewrite Hs, snoc_last_byte in Hl. discriminate.
  - unfold validDatasetName.
    destruct a as [|c a]; [discriminate|].
    destruct b as [|d b]; [discriminate|].
    intros [Hc _]%andb_true_iff [_ Hb]%andb_true_iff.
    rewrite app_String, Hc. rewrite andb_true_l.
    change (String c (a +:+ "/" +:+ String d b))
      with (String c a +:+ String "/" (String d b)).
    rewrite last_byte_app.
    exact Hb.
  - unfold validPoolName.
    destruct (a +:+ "/" +:+ b) eqn:E; [destruct a; discriminate|].
    rewrite <- E. apply negb_false_iff.
    rewrite has_byte_app. apply orb_true_r.
  - unfold validDatasetName.
    destruct (a +:+ "/") eqn:E; [reflexivity|]. rewrite <- E.
    rewrite (last_byte_app a "/" ""). simpl. apply andb_false_r.
  - reflexivity.
  - reflexivity.
Qed.

(** The theorem on a pool and a child dataset. *)
Lemma valid_names_compose_witness :
  validDatasetName "tank" = true
  ∧ validDatasetName ("tank" +:+ "/" +:+ "home") = true.
Proof.
  split.
  - apply (proj1 (valid_names_compose "tank" "")). reflexivity.
  - apply (proj1 (proj2 (valid_names_compose "tank" "home"))); reflexivity.
Defined.

(** ** X8 and X9: the errors *)

Lemma run_tabular_error tool cmd m args err :
  run_tabular tool cmd m args = inr err →
  ∃ cause, err = [tool; CommandError cause
                          (cleanUpStderr (run_stderr (Runner m cmd args)))]
           ∧ run_err (Runner m cmd args) = Some cause.
Proof.
  unfold run_tabular. destruct (run_err (Runner m cmd args)) as [cause|];
    [|discriminate].
  intros [= <-]. eauto.
Qed.

Lemma error_of_run tool cmd m args err :
  error_of (run_tabular tool cmd m args) = Some err →
  ∃ cause msg, err = [tool; CommandError cause msg].
Proof.
  destruct (run_tabular tool cmd m args) as [|e] eqn:E; [discriminate|].
  intros [= <-]. apply run_tabular_error in E as (cause & -> & _). eauto.
Qed.

Lemma error_in_run {A} tool cmd m args (k : list (list string) → A) err :
  error_in (match run_tabular tool cmd m args with
            | inr e => inr e
            | inl records => inl (k records)
            end) = Some err →
  ∃ cause msg, err = [tool; CommandError cause msg].
Proof.
  intros H. apply (error_of_run tool cmd m args).
  destruct (run_tabular tool cmd m args); [discriminate|exact H].
Qed.

Lemma error_from_get tool cmd m errProperty name property err :
  error_from (get_property (run_tabular tool cmd m) errProperty name property)
    = Some err →
  err = errProperty ∨ ∃ cause msg, err = [tool; CommandError cause msg].
Proof.
  unfold get_property. case_decide.
  - simpl. intros [= <-]. now left.
  - destruct (run_tabular tool cmd m _) as [records|e] eqn:E.
    + destruct (first_field records); simpl; discriminate.
    + simpl. intros [= <-]. right.
      eapply error_of_run. rewrite E. reflexivity.
Qed.

(** Closes a goal [item ∈ err] or [item ∉ err] on an explicit error. *)
Ltac sentinel_in :=
  repeat match goal with
         | H : ∃ _, _ |- _ => destruct H
         | H : _ ∨ _ |- _ => destruct H
         end;
  simplify_eq;
  unfold errInvalidDatasetName, errInvalidDatasetProperty,
    errInvalidPoolName, errInvalidPoolProperty;
  rewrite ?elem_of_cons, ?elem_of_nil;
  solve [ intuition discriminate ].


(** X8. Every error that an operation on datasets returns carries
    [ErrZFS], and every error of an operation on pools carries
    [ErrZpool]. *)
Theorem errors_carry_their_tool
    (m : Manager) (name property value filter typ : string)
    (properties : list string) (depth : Z) (flags : list Z)
    (flag : bool) (options : option CreateDatasetOptions) (err : error) :
  (error_from (GetDatasetProperty m name property) = Some err → ErrZFS ∈ err)
  ∧ (SetDatasetProperty m name property value = Some err → ErrZFS ∈ err)
  ∧ (InheritDatasetProperty m name property flag = Some err → ErrZFS ∈ err)
  ∧ (CreateDataset m options = Some err → ErrZFS ∈ err)
  ∧ (error_in (GetDataset m name properties) = Some err → ErrZFS ∈ err)
  ∧ (error_in (ListDatasets m filter depth typ properties) = Some err →
     ErrZFS ∈ err)
  ∧ (error_in (ListDatasetNames m filter depth typ) = Some err →
     ErrZFS ∈ err)
  ∧ (DestroyDataset m name flags = Some err → ErrZFS ∈ err)
  ∧ (error_from (GetPoolProperty m name property) = Some err →
     ErrZpool ∈ err)
  ∧ (error_in (GetPool m name properties) = Some err → ErrZpool ∈ err)
  ∧ (error_in (ListPools m properties) = Some err → ErrZpool ∈ err)
  ∧ (error_in (ListPoolNames m) = Some err → ErrZpool ∈ err)
  ∧ (DestroyPool m name flag = Some err → ErrZpool ∈ err)
  ∧ (ExportPool m name flag = Some err → ErrZpool ∈ err).
Proof.
  repeat split.
  - unfold GetDatasetProperty, zfs.
    destruct (validDatasetName name); simpl; intros Herr;
      [apply error_from_get in Herr|]; sentinel_in.
  - unfold SetDatasetProperty, zfs.
    destruct (validDatasetName name); simpl; [case_decide|]; intros Herr;
      try apply error_of_run in Herr; sentinel_in.
  - unfold InheritDatasetProperty, zfs.
    destruct (validDatasetName name); simpl; [case_decide|]; intros Herr;
      try apply error_of_run in Herr; sentinel_in.
  - unfold CreateDataset, zfs. destruct options as [o|];
      [destruct (validDatasetName (cdo_Name o)); simpl|]; intros Herr;
      try apply error_of_run in Herr; sentinel_in.
  - unfold GetDataset, zfs.
    destruct (validDatasetName name); simpl; intros Herr;
      try apply error_in_run in Herr; sentinel_in.
  - unfold ListDatasets, zfs. intros Herr. apply error_in_run in Herr. sentinel_in.
  - unfold ListDatasetNames, zfs. intros Herr. apply error_in_run in Herr.
    sentinel_in.
  - unfold DestroyDataset, zfs.
    destruct (validDatasetName name); simpl; intros Herr;
      try apply error_of_run in Herr; sentinel_in.
  - unfold GetPoolProperty, zpool.
    destruct (validPoolName name); simpl; intros Herr;
      [apply error_from_get in Herr|]; sentinel_in.
  - unfold GetPool, zpool.
    destruct (validPoolName name); simpl; intros Herr;
      try apply error_in_run in Herr; sentinel_in.
  - unfold ListPools, zpool. intros Herr. apply error_in_run in Herr. sentinel_in.
  - unfold ListPoolNames, zpool. intros Herr. apply error_in_run in Herr.
    sentinel_in.
  - unfold DestroyPool, zpool.
    destruct (validPoolName name); simpl; intros Herr;
      try apply error_of_run in Herr; sentinel_in.
  - unfold ExportPool, zpool.
    destruct (validPoolName name); simpl; intros Herr;
      try apply error_of_run in Herr; sentinel_in.
Qed.

(** The theorem on a failing command. *)
Lemma errors_carry_their_tool_witness :
  ErrZFS ∈ [ErrZFS; CommandError "exit status 1" "no such pool"].
Proof.
  apply (proj1 (proj2 (proj2 (proj2 (proj2 (proj2 (proj2 (proj2
           (errors_carry_their_tool
              (failing_manager "exit status 1" "no such pool")
              "tank/a" "quota" "10G" "" "filesystem" [] 0%Z [] false None
              [ErrZFS; CommandError "exit status 1" "no such pool"]))))))))).
  reflexivity.
Defined.

Ltac name_guard :=
  unfold fails_with; split;
  [ intros (err & Herr & Hin);
    match goal with
    | |- ?v = false => destruct v eqn:Hvalid; [exfalso|reflexivity]
    end;
    simpl in Herr;
    first [ apply error_from_get in Herr
          | apply error_of_run in Herr
          | apply error_in_run in Herr
          | (case_decide; [|apply error_of_run in Herr]) ];
    revert Hin; sentinel_in
  | intros ->; simpl; eexists; split; [reflexivity|]; sentinel_in ].

(** X9. An operation that takes the name of a dataset or of a pool fails
    with [ErrInvalidName] exactly when the name is not valid, and then it
    returns the same error whatever the runner is: no command is run for an
    invalid name. *)
Theorem invalid_name_is_reported
    (m : Manager) (name property value : string)
    (properties : list string) (flags : list Z) (flag : bool)
    (options : CreateDatasetOptions) :
  (fails_with ErrInvalidName (error_from (GetDatasetProperty m name property))
   ↔ validDatasetName name = false)
  ∧ (fails_with ErrInvalidName (SetDatasetProperty m name property value)
     ↔ validDatasetName name = false)
  ∧ (fails_with ErrInvalidName (InheritDatasetProperty m name property flag)
     ↔ validDatasetName name = false)
  ∧ (fails_with ErrInvalidName (error_in (GetDataset m name properties))
     ↔ validDatasetName name = false)
  ∧ (fails_with ErrInvalidName (DestroyDataset m name flags)
     ↔ validDatasetName name = false)
  ∧ (fails_with ErrInvalidName (CreateDataset m (Some options))
     ↔ validDatasetName (cdo_Name options) = false)
  ∧ (fails_with ErrInvalidName (error_from (GetPoolProperty m name property))
     ↔ validPoolName name = false)
  ∧ (fails_with ErrInvalidName (error_in (GetPool m name properties))
     ↔ validPoolName name = false)
  ∧ (fails_with ErrInvalidName (DestroyPool m name flag)
     ↔ validPoolName name = false)
  ∧ (fails_with ErrInvalidName (ExportPool m name flag)
     ↔ validPoolName name = false)
  ∧ (validDatasetName name = false → ∀ m',
       GetDatasetProperty m name property = GetDatasetProperty m' name property
       ∧ SetDatasetProperty m name property value
         = SetDatasetProperty m' name property value
       ∧ InheritDatasetProperty m name property flag
         = InheritDatasetProperty m' name property flag
       ∧ GetDataset m name properties = GetDataset m' name properties
       ∧ DestroyDataset m name flags = DestroyDataset m' name flags)
  ∧ (validPoolName name = false → ∀ m',
       GetPoolProperty m name property = GetPoolProperty m' name property
       ∧ GetPool m name properties = GetPool m' name properties
       ∧ DestroyPool m name flag = DestroyPool m' name flag
       ∧ ExportPool m name flag = ExportPool m' name flag).
Proof.
  split; [unfold GetDatasetProperty, zfs; name_guard|].
  split; [unfold SetDatasetProperty, zfs; name_guard|].
  split; [unfold InheritDatasetProperty, zfs; name_guard|].
  split; [unfold GetDataset, zfs; name_guard|].
  split; [unfold DestroyDataset, zfs; name_guard|].
  split; [unfold CreateDataset, zfs; name_guard|].
  split; [unfold GetPoolProperty, zpool; name_guard|].
  split; [unfold GetPool, zpool; name_guard|].
  split; [unfold DestroyPool, zpool; name_guard|].
  split; [unfold ExportPool, zpool; name_guard|].
  split.
  - intros Hv m'.
    unfold GetDatasetProperty, SetDatasetProperty, InheritDatasetProperty,
      GetDataset, DestroyDataset.
    rewrite Hv. simpl. repeat split.
  - intros Hv m'.
    unfold GetPoolProperty, GetPool, DestroyPool, ExportPool.
    rewrite Hv. simpl. repeat split.
Qed.

(** The theorem on a name that ends with a slash. *)
Lemma invalid_name_is_reported_witness :
  fails_with ErrInvalidName
    (DestroyDataset (printing_manager "") "tank/a/" [DestroyRecursive]).
Proof.
  apply (proj1 (proj2 (proj2 (proj2 (proj2
           (invalid_name_is_reported (printing_manager "") "tank/a/" "" ""
              [] [DestroyRecursive] false
              (mkCreateDatasetOptions "" ∅ false false "" "" false))))))).
  reflexivity.
Defined.

(** ** The numeric accessors *)

Section number_facts.
Import GoStrconv.

Lemma digits_from_spec s : ∀ acc,
digits_from acc s
= if all_bytes is_digit s then Some (digits_value acc s) else None.
Proof.
induction s as [|a s IH]; simpl; intros acc; [reflexivity|].
destruct (is_digit a); simpl; [apply IH|reflexivity].
Qed.

Lemma ParseUint_spec s :
ParseUint s
= if is_digit_string s && (digits_value 0 s <? 2 ^ 64)%Z
  then Some (digits_value 0 s) else None.
Proof.
destruct s as [|a s]; [reflexivity|].
unfold ParseUint, is_digit_string. rewrite digits_from_spec.
change (String.eqb (String a s) "") with false. simpl negb.
rewrite andb_true_l.
destruct (all_bytes is_digit (String a s)); reflexivity.
Qed.

Lemma ParseUint_Some s n :
ParseUint s = Some n
↔ is_digit_string s = true ∧ n = digits_value 0 s ∧ (n < 2 ^ 64)%Z.
Proof.
rewrite ParseUint_spec.
destruct (is_digit_string s); simpl; [|split; [discriminate|intros [? _]; discriminate]].
destruct (digits_value 0 s <? 2 ^ 64)%Z eqn:Hlt.
- apply Z.ltb_lt in Hlt. split.
  + intros [= <-]. auto.
  + intros (_ & -> & _). reflexivity.
- apply Z.ltb_ge in Hlt. split; [discriminate|].
  intros (_ & -> & ?). lia.
Qed.

Lemma but_last_snoc s c : but_last (s +:+ String c "") = s.
Proof.
induction s as [|a s IH]; [reflexivity|].
rewrite app_String.
change (but_last (String a (s +:+ String c "")))
  with (match s +:+ String c "" with
        | "" => ""
        | _ => String a (but_last (s +:+ String c ""))
        end).
rewrite IH. destruct s; reflexivity.
Qed.

Lemma last_byte_split s c :
last_byte s = Some c → s = but_last s +:+ String c "".
Proof.
destruct s as [|a s]; [discriminate|].
destruct (nonempty_snoc a s) as (s0 & c0 & ->).
rewrite snoc_last_byte, but_last_snoc. intros [= ->]. reflexivity.
Qed.

Lemma TrimSuffix_snoc s c : GoStrings.TrimSuffix (s +:+ String c "") c = s.
Proof.
unfold GoStrings.TrimSuffix.
rewrite snoc_last_byte, Ascii.eqb_refl. apply but_last_snoc.
Qed.

Lemma TrimSuffix_cases s c :
(s = GoStrings.TrimSuffix s c +:+ String c "")
∨ (GoStrings.TrimSuffix s c = s ∧ last_byte s ≠ Some c).
Proof.
unfold GoStrings.TrimSuffix.
destruct (last_byte s) as [a|] eqn:Hl; [|right; split; [reflexivity|discriminate]].
destruct (Ascii.eqb a c) eqn:Hac.
- apply Ascii.eqb_eq in Hac as ->. left. apply last_byte_split, Hl.
- right. split; [reflexivity|]. intros [= ->].
  rewrite Ascii.eqb_refl in Hac. discriminate.
Qed.

Lemma digit_string_last ds c :
all_bytes is_digit ds = true → last_byte ds = Some c → is_digit c = true.
Proof.
induction ds as [|a ds IH]; [discriminate|].
simpl. intros [Ha Hds]%andb_true_iff.
destruct ds as [|b ds]; [intros [= <-]; exact Ha|].
intros Hl. apply IH; assumption.
Qed.

Lemma digit_string_inv ds :
is_digit_string ds = true → ds ≠ "" ∧ all_bytes is_digit ds = true.
Proof.
unfold is_digit_string. intros [Hne Hall]%andb_true_iff.
split; [|exact Hall]. intros ->. discriminate.
Qed.

Lemma digit_string_not_sentinel ds : is_digit_string ds = true → ds ≠ "-".
Proof. intros H ->. discriminate. Qed.

Lemma TrimSuffix_digits ds c :
is_digit_string ds = true → is_digit c = false →
GoStrings.TrimSuffix ds c = ds.
Proof.
intros [_ Hall]%digit_string_inv Hc.
destruct (TrimSuffix_cases ds c) as [Heq|[Heq _]]; [|exact Heq].
exfalso. rewrite Heq in Hall.
rewrite all_bytes_app in Hall. apply andb_true_iff in Hall as [_ Hall].
simpl in Hall. rewrite Hc in Hall. discriminate.
Qed.

End number_facts.

Lemma Uint64_reads (p : Properties) (property : string) (n : Z) :
  Properties.Uint64 p property = (n, true)
  ↔ ∃ prop, p !! property = Some prop
            ∧ is_digit_string (Value prop) = true
            ∧ n = digits_value 0 (Value prop) ∧ (n < 2 ^ 64)%Z.
Proof.
  unfold Properties.Uint64.
  destruct (p !! property) as [prop|]; [|split; [discriminate|intros (? & [=] & _)]].
  split.
  - case_decide as Hv; [|discriminate].
    destruct (GoStrconv.ParseUint (Value prop)) as [r|] eqn:HP; [|discriminate].
    intros [= <-]. apply ParseUint_Some in HP. eauto.
  - intros (prop' & [= <-] & Hds & Hn & Hlt).
    rewrite decide_True.
    + rewrite (proj2 (ParseUint_Some (Value prop) n)) by auto. reflexivity.
    + split; [apply digit_string_inv, Hds|apply digit_string_not_sentinel, Hds].
Qed.

Lemma Percent_reads (p : Properties) (property : string) (n : Z) :
  Properties.Percent p property = (n, true)
  ↔ ∃ prop ds, p !! property = Some prop
               ∧ (Value prop = ds ∨ Value prop = ds +:+ "%")
               ∧ is_digit_string ds = true
               ∧ n = digits_value 0 ds ∧ (n < 2 ^ 64)%Z.
Proof.
  unfold Properties.Percent.
  destruct (p !! property) as [prop|]; [|split; [discriminate|intros (? & ? & [=] & _)]].
  split.
  - case_decide as Hv; [|discriminate].
    destruct (GoStrconv.ParseUint (GoStrings.TrimSuffix (Value prop) "%"))
      as [r|] eqn:HP; [|discriminate].
    intros [= <-]. apply ParseUint_Some in HP as (Hds & Hn & Hlt).
    exists prop, (GoStrings.TrimSuffix (Value prop) "%").
    split; [reflexivity|]. split; [|auto].
    destruct (TrimSuffix_cases (Value prop) "%") as [Heq|[Heq _]]; auto.
  - intros (prop' & ds & [= <-] & Hval & Hds & Hn & Hlt).
    assert (Htrim : GoStrings.TrimSuffix (Value prop) "%" = ds).
    { destruct Hval as [->| ->]; [|apply TrimSuffix_snoc].
      apply TrimSuffix_digits; [exact Hds|reflexivity]. }
    rewrite Htrim, (proj2 (ParseUint_Some ds n)) by auto.
    rewrite decide_True; [reflexivity|].
    destruct Hval as [->| ->]; [apply digit_string_not_sentinel, Hds|].
    apply digit_string_inv in Hds as [Hne _].
    destruct ds as [|a [|b ds]]; [done|discriminate|discriminate].
Qed.

(** X10. [Uint64] reads exactly the decimal digit strings whose value is
    below 2^64, and returns that value. [Percent] reads the same strings,
    with or without one "%" after them, so it agrees with [Uint64] wherever
    [Uint64] has a value; a second "%" or a "%" alone is not read. An
    unread value comes back as zero. *)
Theorem Uint64_and_Percent_read_digit_strings
    (p : Properties) (property : string) :
  (∀ n, Properties.Uint64 p property = (n, true)
        ↔ ∃ prop, p !! property = Some prop
                  ∧ is_digit_string (Value prop) = true
                  ∧ n = digits_value 0 (Value prop) ∧ (n < 2 ^ 64)%Z)
  ∧ (∀ n, Properties.Percent p property = (n, true)
          ↔ ∃ prop ds, p !! property = Some prop
                       ∧ (Value prop = ds ∨ Value prop = ds +:+ "%")
                       ∧ is_digit_string ds = true
                       ∧ n = digits_value 0 ds ∧ (n < 2 ^ 64)%Z)
  ∧ (∀ n, Properties.Uint64 p property = (n, true) →
          Properties.Percent p property = (n, true))
  ∧ (∀ n, Properties.Uint64 p property = (n, false) → n = 0%Z)
  ∧ (∀ n, Properties.Percent p property = (n, false) → n = 0%Z).
Proof.
  split; [apply Uint64_reads|]. split; [apply Percent_reads|]. split.
  - intros n (prop & Hp & Hds & Hn & Hlt)%Uint64_reads. apply Percent_reads.
    exists prop, (Value prop). auto.
  - split.
    + unfold Properties.Uint64. intros n.
      destruct (p !! property) as [prop|]; [|intros [= <-]; reflexivity].
      case_decide; [|intros [= <-]; reflexivity].
      destruct (GoStrconv.ParseUint (Value prop));
        [discriminate|intros [= <-]; reflexivity].
    + unfold Properties.Percent. intros n.
      destruct (p !! property) as [prop|]; [|intros [= <-]; reflexivity].
      case_decide; [|intros [= <-]; reflexivity].
      destruct (GoStrconv.ParseUint _);
        [discriminate|intros [= <-]; reflexivity].
Qed.

(** The theorem on the capacity "42%". *)
Lemma Uint64_and_Percent_read_digit_strings_witness :
  Properties.Percent (store_of "capacity" "42%") "capacity" = (42%Z, true)
  ∧ Properties.Uint64 (store_of "capacity" "42%") "capacity" = (0%Z, false).
Proof.
  split; [|reflexivity].
  apply (proj2 (proj1 (proj2 (Uint64_and_Percent_read_digit_strings
                                (store_of "capacity" "42%") "capacity")) 42%Z)).
  exists (mkProperty "tank" "capacity" "42%" "-"), "42".
  split; [reflexivity|]. split; [right; reflexivity|].
  split; [reflexivity|]. split; [reflexivity|lia].
Defined.

(** ** The getters of [Dataset] *)

(** X11. [Mountpoint] never returns "none": where the raw value is "none"
    it returns the empty string with the presence flag true, and everywhere
    else it returns what [String] returns for "mountpoint". [Type] returns
    what [String] returns for "type". *)
Theorem Mountpoint_hides_none (d : Dataset) :
  (Dataset_Mountpoint d).1 ≠ "none"
  ∧ (Dataset_Mountpoint d).2
    = (Properties.String (Dataset_Properties d) "mountpoint").2
  ∧ ((Properties.String (Dataset_Properties d) "mountpoint").1 = "none" →
     Dataset_Mountpoint d = ("", true))
  ∧ ((Properties.String (Dataset_Properties d) "mountpoint").1 ≠ "none" →
     Dataset_Mountpoint d
     = Properties.String (Dataset_Properties d) "mountpoint")
  ∧ Dataset_Type d = Properties.String (Dataset_Properties d) "type".
Proof.
  unfold Dataset_Mountpoint, Dataset_Type, zfsprops.Mountpoint, zfsprops.Type'.
  unfold Properties.String.
  destruct (Dataset_Properties d !! "mountpoint") as [mp|];
    destruct (Dataset_Properties d !! "type") as [ty|]; simpl;
    repeat case_decide; simpl; repeat split; try congruence; try discriminate.
Qed.

(** The theorem on a dataset whose mountpoint is "none". *)
Lemma Mountpoint_hides_none_witness :
  Dataset_Mountpoint (NewDataset "tank" (store_of "mountpoint" "none"))
  = ("", true).
Proof.
  apply (proj1 (proj2 (proj2 (Mountpoint_hides_none
           (NewDataset "tank" (store_of "mountpoint" "none")))))).
  reflexivity.
Defined.

(** X12. A property whose raw value is the empty string is present for
    [String], which returns the empty string, and absent for [Bool],
    [Bytes], [Percent], [Time] and [Uint64]. *)
Theorem empty_value_is_only_a_string
    (p : Properties) (property : string) (prop : Property)
    (Hprop : p !! property = Some prop) (Hempty : Value prop = "") :
  Properties.String p property = ("", true)
  ∧ Properties.Bool p property = (false, false)
  ∧ Properties.Bytes p property = (0%Z, false)
  ∧ Properties.Percent p property = (0%Z, false)
  ∧ Properties.Time p property = (GoTime.zero, false)
  ∧ Properties.Uint64 p property = (0%Z, false).
Proof.
  unfold Properties.String, Properties.Bool, Properties.Bytes,
    Properties.Percent, Properties.Time, Properties.Uint64.
  rewrite Hprop, Hempty. repeat split.
Qed.

(** The theorem on a store whose "origin" is empty. *)
Lemma empty_value_is_only_a_string_witness :
  Properties.String (store_of "origin" "") "origin" = ("", true)
  ∧ Properties.Uint64 (store_of "origin" "") "origin" = (0%Z, false).
Proof.
  destruct (empty_value_is_only_a_string (store_of "origin" "") "origin"
              (mkProperty "tank" "origin" "" "-") eq_refl eq_refl)
    as (HS & _ & _ & _ & _ & HU).
  split; [exact HS|exact HU].
Defined.

(** ** The error text of a failed command *)

Section stderr_facts.
Import GoStrings.

Lemma has_byte_cons d a s :
has_byte d (String a s) = false → Ascii.eqb a d = false ∧ has_byte d s = false.
Proof. simpl. intros H. apply orb_false_iff in H. exact H. Qed.

Lemma has_byte_trim_left d n : ∀ s,
String.length s ≤ n → has_byte d s = false → has_byte d (trim_left s) = false.
Proof.
induction n as [|n IH]; intros s Hn Hs.
- destruct s; [reflexivity|simpl in Hn; lia].
- destruct s as [|a s1]; [reflexivity|].
  simpl in Hn. pose proof (has_byte_cons _ _ _ Hs) as [_ H1].
  cbn [trim_left].
  destruct (is_ascii_space a); [apply IH; [lia|exact H1]|].
  destruct s1 as [|b s2]; [exact Hs|].
  simpl in Hn. pose proof (has_byte_cons _ _ _ H1) as [_ H2].
  destruct (space_rune2 a b); [apply IH; [lia|exact H2]|].
  destruct s2 as [|c s3]; [exact Hs|].
  simpl in Hn. pose proof (has_byte_cons _ _ _ H2) as [_ H3].
  destruct (space_rune3 a b c); [apply IH; [lia|exact H3]|exact Hs].
Qed.

Lemma has_byte_trim_left_rev d n : ∀ s,
String.length s ≤ n → has_byte d s = false →
has_byte d (trim_left_rev s) = false.
Proof.
induction n as [|n IH]; intros s Hn Hs.
- destruct s; [reflexivity|simpl in Hn; lia].
- destruct s as [|a s1]; [reflexivity|].
  simpl in Hn. pose proof (has_byte_cons _ _ _ Hs) as [_ H1].
  cbn [trim_left_rev].
  destruct (is_ascii_space a); [apply IH; [lia|exact H1]|].
  destruct s1 as [|b s2]; [exact Hs|].
  simpl in Hn. pose proof (has_byte_cons _ _ _ H1) as [_ H2].
  destruct (space_rune2 b a); [apply IH; [lia|exact H2]|].
  destruct s2 as [|c s3]; [exact Hs|].
  simpl in Hn. pose proof (has_byte_cons _ _ _ H2) as [_ H3].
  destruct (space_rune3 c b a); [apply IH; [lia|exact H3]|exact Hs].
Qed.

Lemma has_byte_rev d s : has_byte d (String.rev s) = has_byte d s.
Proof.
induction s as [|a s IH]; [reflexivity|].
rewrite rev_cons, has_byte_app, IH. simpl.
rewrite orb_false_r. apply orb_comm.
Qed.

Lemma has_byte_TrimSpace d s :
has_byte d s = false → has_byte d (TrimSpace s) = false.
Proof.
intros Hs. unfold TrimSpace, trim_right.
rewrite has_byte_rev.
apply (has_byte_trim_left_rev d _ _ (le_n _)).
rewrite has_byte_rev.
apply (has_byte_trim_left d _ _ (le_n _)), Hs.
Qed.

Lemma has_byte_join_sep d sep l :
has_byte d sep = false → Forall (fun w => has_byte d w = false) l →
has_byte d (join_sep sep l) = false.
Proof.
intros Hsep. induction 1 as [|w l Hw Hl IH]; [reflexivity|].
destruct l as [|w' l]; [exact Hw|].
change (join_sep sep (w :: w' :: l))
  with (w +:+ sep +:+ join_sep sep (w' :: l)).
rewrite !has_byte_app, Hw, Hsep, IH. reflexivity.
Qed.

Lemma prefix_app p r : String.prefix p (p +:+ r) = true.
Proof.
induction p as [|a p IH]; [destruct r; reflexivity|].
rewrite app_String. simpl.
destruct (ascii_dec a a); [exact IH|congruence].
Qed.

Lemma prefix_absent d p s :
has_byte d s = false → String.prefix (String d p) s = false.
Proof.
destruct s as [|a s]; [reflexivity|].
intros [Had _]%has_byte_cons. simpl.
destruct (ascii_dec d a) as [->|]; [|reflexivity].
rewrite Ascii.eqb_refl in Had. discriminate.
Qed.

Lemma cut_before_absent d p s :
has_byte d s = false → cut_before (String d p) s = s.
Proof.
induction s as [|a s IH]; intros Hs; [reflexivity|].
pose proof (has_byte_cons _ _ _ Hs) as [_ Hs'].
change (cut_before (String d p) (String a s))
  with (if String.prefix (String d p) (String a s) then ""
        else String a (cut_before (String d p) s)).
rewrite (prefix_absent d p _ Hs), (IH Hs'). reflexivity.
Qed.

Lemma cut_before_found d p s rest :
has_byte d s = false → cut_before (String d p) (s +:+ String d p +:+ rest) = s.
Proof.
induction s as [|a s IH]; intros Hs.
- change ("" +:+ String d p +:+ rest) with (String d p +:+ rest).
  destruct (String d p +:+ rest) eqn:E;
    unfold cut_before; fold cut_before; rewrite <- ?E, prefix_app;
    reflexivity.
- pose proof (has_byte_cons _ _ _ Hs) as [Had Hs'].
  rewrite app_String.
  change (cut_before (String d p) (String a (s +:+ String d p +:+ rest)))
    with (if String.prefix (String d p) (String a (s +:+ String d p +:+ rest))
          then ""
          else String a (cut_before (String d p) (s +:+ String d p +:+ rest))).
  rewrite (IH Hs').
  replace (String.prefix (String d p) (String a (s +:+ String d p +:+ rest)))
    with false; [reflexivity|].
  simpl. destruct (ascii_dec d a) as [->|]; [|reflexivity].
  rewrite Ascii.eqb_refl in Had. discriminate.
Qed.

End stderr_facts.

(** X13. The tidied error text is a single line: it holds no line feed,
    whatever the command wrote. When the command wrote a one-line message
    and then its usage text, the usage text is dropped: the result is that
    of the message alone. A message that starts and ends with a byte that
    is no white space, and holds no line feed, is returned as it is. *)
Theorem cleanUpStderr_one_line (stderr : string) :
  has_byte LF (cleanUpStderr stderr) = false
  ∧ (∀ rest, has_byte LF stderr = false →
       cleanUpStderr (stderr +:+ String LF "usage:" +:+ String LF "" +:+ rest)
       = cleanUpStderr stderr)
  ∧ (∀ a s s0 c, stderr = String a s → stderr = s0 +:+ String c "" →
       plain a = true → plain c = true → has_byte LF stderr = false →
       cleanUpStderr stderr = stderr).
Proof.
  split; [|split].
  - unfold cleanUpStderr. apply has_byte_join_sep; [reflexivity|].
    apply List.Forall_forall. intros w Hw.
    apply list_elem_of_In, list_elem_of_filter in Hw as [_ Hw].
    apply list_elem_of_In, in_map_iff in Hw as (line & <- & Hline).
    apply has_byte_TrimSpace.
    pose proof (split_on_absent LF LF
                  (GoStrings.TrimSpace
                     (cut_before (String LF "usage:" +:+ String LF "") stderr))
                  (or_intror eq_refl)) as Hall.
    rewrite List.Forall_forall in Hall. apply Hall, Hline.
  - intros rest Hs. unfold cleanUpStderr.
    change (String LF "usage:" +:+ String LF "")
      with (String LF ("usage:" +:+ String LF "")).
    change (stderr +:+ String LF "usage:" +:+ String LF "" +:+ rest)
      with (stderr +:+ String LF ("usage:" +:+ String LF "") +:+ rest) at 1.
    rewrite cut_before_found, cut_before_absent by exact Hs. reflexivity.
  - intros a s s0 c Ha Hc Hpa Hpc Hs. unfold cleanUpStderr.
    change (String LF "usage:" +:+ String LF "")
      with (String LF ("usage:" +:+ String LF "")).
    rewrite cut_before_absent by exact Hs.
    assert (Htrim : GoStrings.TrimSpace stderr = stderr).
    { rewrite Ha in Hc |- *. exact (TrimSpace_plain a s s0 c Hc Hpa Hpc). }
    rewrite Htrim, (split_on_clean LF stderr Hs). simpl map.
    rewrite Htrim, filter_cons_True by (rewrite Ha; discriminate).
    reflexivity.
Qed.

(** The theorem on the message "no such pool". *)
Lemma cleanUpStderr_one_line_witness :
  cleanUpStderr "no such pool" = "no such pool".
Proof.
  apply (proj2 (proj2 (cleanUpStderr_one_line "no such pool"))
           "n"%char "o such pool" "no such poo" "l"%char);
    reflexivity.
Defined.

(** ** The value of a single-value query *)

Lemma split_on_head c s :
  ∃ rest, split_on c s = take_while (fun a => negb (Ascii.eqb a c)) s :: rest.
Proof.
  induction s as [|a s IH]; simpl; [eauto|].
  destruct (Ascii.eqb a c); simpl; [eauto|].
  destruct IH as (rest & ->). eauto.
Qed.

Lemma take_while_twice f g s :
  take_while f (take_while g s) = take_while (fun a => f a && g a) s.
Proof.
  induction s as [|a s IH]; simpl; [reflexivity|].
  destruct (g a); simpl; [|now rewrite andb_false_r].
  rewrite andb_true_r. destruct (f a); [now rewrite IH|reflexivity].
Qed.

Lemma first_field_is_first_cell data :
  first_field (parseTabular data) = Returns (first_cell data).
Proof.
  unfold parseTabular, first_cell.
  destruct (split_on_head LF data) as (lines & ->). simpl map.
  destruct (split_on_head TAB
              (take_while (fun a => negb (Ascii.eqb a LF)) data))
    as (fields & ->).
  simpl. now rewrite take_while_twice.
Qed.

Lemma first_cell_line value rest :
  has_byte TAB value = false → has_byte LF value = false →
  first_cell (value +:+ String LF rest) = value.
Proof.
  unfold first_cell. induction value as [|a value IH]; intros Ht Hl.
  - reflexivity.
  - apply has_byte_cons in Ht as [Ht1 Ht2]. apply has_byte_cons in Hl as [Hl1 Hl2].
    rewrite app_String. simpl. rewrite Ht1, Hl1. simpl.
    now rewrite (IH Ht2 Hl2).
Qed.

(** X14. For a valid name and a property that is neither empty nor "all",
    [GetDatasetProperty] runs [zfs get -Hp -o value <property> <name>] and
    [GetPoolProperty] the same with [zpool]. When the command fails the
    result is the empty string and the error of the command; when it
    succeeds the result is the output up to its first TAB or line feed, with
    no error. So an output that is the value and a line feed gives the
    value. *)
Theorem single_value_query_reads_first_cell
    (m : Manager) (name property : string)
    (Hproperty : property ≠ "" ∧ property ≠ "all") :
  (validDatasetName name = true →
   let r := Runner m "zfs" ["get"; "-Hp"; "-o"; "value"; property; name] in
   GetDatasetProperty m name property
   = match run_err r with
     | Some cause =>
         Returns ("", Some [ErrZFS;
                            CommandError cause (cleanUpStderr (run_stderr r))])
     | None => Returns (first_cell (run_stdout r), None)
     end)
  ∧ (validPoolName name = true →
     let r := Runner m "zpool" ["get"; "-Hp"; "-o"; "value"; property; name] in
     GetPoolProperty m name property
     = match run_err r with
       | Some cause =>
           Returns ("", Some [ErrZpool;
                              CommandError cause (cleanUpStderr (run_stderr r))])
       | None => Returns (first_cell (run_stdout r), None)
       end)
  ∧ (∀ value rest, has_byte TAB value = false → has_byte LF value = false →
       first_cell (value +:+ String LF rest) = value).
Proof.
  destruct Hproperty as [Hne Hall].
  split; [|split].
  - intros Hname r. unfold GetDatasetProperty, get_property, zfs, run_tabular.
    rewrite Hname. simpl negb. cbv iota.
    rewrite decide_False by (intros [?|?]; [apply Hne|apply Hall]; assumption).
    fold r. destruct (run_err r); [reflexivity|].
    now rewrite first_field_is_first_cell.
  - intros Hname r. unfold GetPoolProperty, get_property, zpool, run_tabular.
    rewrite Hname. simpl negb. cbv iota.
    rewrite decide_False by (intros [?|?]; [apply Hne|apply Hall]; assumption).
    fold r. destruct (run_err r); [reflexivity|].
    now rewrite first_field_is_first_cell.
  - apply first_cell_line.
Qed.

(** The theorem on a runner that prints "10G" and a line feed. *)
Lemma single_value_query_reads_first_cell_witness :
  GetDatasetProperty (printing_manager ("10G" +:+ String LF "")) "tank/a" "quota"
  = Returns ("10G", None).
Proof.
  assert (Hproperty : "quota" ≠ "" ∧ "quota" ≠ "all") by (split; discriminate).
  apply (proj1 (single_value_query_reads_first_cell
                  (printing_manager ("10G" +:+ String LF "")) "tank/a" "quota"
                  Hproperty)).
  reflexivity.
Defined.

(** ** From the output of the command to the getters *)

Lemma store_for_lookup records name k :
  store_for (newProperties records) name !! k = last_accepted name k records.
Proof.
  rewrite <- newProperties_lookup. unfold store_for.
  destruct (newProperties records !! name); simpl;
    [reflexivity|apply lookup_empty].
Qed.

(** X15. The wrapper that [GetDataset] (and [GetPool]) returns holds, under
    each property name, the property of the last output line with four
    fields that names the entity and that property, and nothing where there
    is no such line. So [Capacity] of a fetched pool is the number of the
    last "capacity" line of that pool when its value is digits and a "%",
    and absent when there is no such line. *)
Theorem fetched_wrapper_reads_last_line
    (m : Manager) (name : string) (properties : list string) :
  (∀ d, GetDataset m name properties = inl d →
     ∀ k, Dataset_Properties d !! k
          = last_accepted name k (parseTabular (run_stdout
              (Runner m "zfs" ["get"; "-Hp"; "-o"; "name,property,value,source";
                               query_properties properties; name]))))
  ∧ (∀ p, GetPool m name properties = inl p →
     let records := parseTabular (run_stdout
           (Runner m "zpool" ["get"; "-Hp"; "-o"; "name,property,value,source";
                              query_properties properties; name])) in
     (∀ k, Pool_Properties p !! k = last_accepted name k records)
     ∧ (∀ prop ds, last_accepted name "capacity" records = Some prop →
          Value prop = ds +:+ "%" → is_digit_string ds = true →
          (digits_value 0 ds < 2 ^ 64)%Z →
          Pool_Capacity p = (digits_value 0 ds, true))
     ∧ (last_accepted name "capacity" records = None →
          Pool_Capacity p = (0%Z, false))).
Proof.
  split.
  - intros d. unfold GetDataset, zfs, run_tabular.
    destruct (validDatasetName name); simpl; [|discriminate].
    destruct (run_err _); [discriminate|]. intros [= <-] k.
    unfold NewDataset, NewDataset_in_order. simpl.
    erewrite builder_store_unfiltered; [|reflexivity].
    apply store_for_lookup.
  - intros p. unfold GetPool, zpool, run_tabular.
    destruct (validPoolName name); simpl; [|discriminate].
    destruct (run_err _); [discriminate|]. intros [= <-].
    unfold newPool, newPool_in_order, Pool_Capacity. simpl.
    erewrite builder_store_unfiltered; [|reflexivity].
    split; [intros k; apply store_for_lookup|]. split.
    + intros prop ds Hlast Hv Hds Hlt. apply Percent_reads.
      exists prop, ds. rewrite store_for_lookup. auto.
    + intros Hnone. unfold Properties.Percent, zpoolprops.Capacity.
      rewrite store_for_lookup, Hnone. reflexivity.
Qed.

(** The theorem on a runner that prints the capacity of "tank" twice. *)
Lemma fetched_wrapper_reads_last_line_witness :
  match GetPool (printing_manager
                   (unparseTabular [["tank"; "capacity"; "9%"; "-"];
                                    ["tank"; "capacity"; "12%"; "-"]]))
                "tank" [] with
  | inl p => Pool_Capacity p = (12%Z, true)
  | inr _ => False
  end.
Proof.
  pose proof (proj2 (fetched_wrapper_reads_last_line
                       (printing_manager
                          (unparseTabular [["tank"; "capacity"; "9%"; "-"];
                                           ["tank"; "capacity"; "12%"; "-"]]))
                       "tank" [])) as H.
  destruct (GetPool _ "tank" []) as [p|e] eqn:E.
  - apply (proj1 (proj2 (H p eq_refl))
             (mkProperty "tank" "capacity" "12%" "-") "12");
      reflexivity.
  - vm_compute in E. discriminate.
Defined.

(** ** The builders of property names *)

Lemma app_inj_l p s t : p +:+ s = p +:+ t → s = t.
Proof.
  induction p as [|a p IH]; [trivial|].
  rewrite !app_String. intros [= H]. exact (IH H).
Qed.

Lemma app_not_empty p a s : p +:+ String a s ≠ "".
Proof. destruct p; [discriminate|rewrite app_String; discriminate]. Qed.

(** X16. The names that the builders of [zfsprops] and [zpoolprops] return
    are never empty and never "all", so [SetDatasetProperty] does not reject
    them as properties: for a valid dataset name it runs [zfs set] with the
    built name, "=" and the value. Each builder gives different names for
    different arguments, and the six quota builders never give the same
    name. [GetPoolProperty] does not reject a feature name as a property
    either. *)
Theorem built_names_are_accepted (m : Manager) (name x y value : string) :
  Forall (fun property =>
            property ≠ "" ∧ property ≠ "all"
            ∧ (validDatasetName name = true →
               SetDatasetProperty m name property value
               = error_of (zfs m ["set"; property +:+ "=" +:+ value; name])))
         [zfsprops.UserQuota x; zfsprops.UserObjQuota x;
          zfsprops.GroupQuota x; zfsprops.GroupObjQuota x;
          zfsprops.ProjectQuota x; zfsprops.ProjectObjQuota x;
          zfsprops.User x y]
  ∧ (zpoolprops.Feature x ≠ "" ∧ zpoolprops.Feature x ≠ "all"
     ∧ error_from (GetPoolProperty m name (zpoolprops.Feature x))
       ≠ Some errInvalidPoolProperty)
  ∧ Forall (fun builder : string → string => builder x = builder y → x = y)
           [zfsprops.UserQuota; zfsprops.UserObjQuota;
            zfsprops.GroupQuota; zfsprops.GroupObjQuota;
            zfsprops.ProjectQuota; zfsprops.ProjectObjQuota;
            zfsprops.User name; zpoolprops.Feature]
  ∧ NoDup [zfsprops.UserQuota x; zfsprops.UserObjQuota y;
           zfsprops.GroupQuota x; zfsprops.GroupObjQuota y;
           zfsprops.ProjectQuota x; zfsprops.ProjectObjQuota y].
Proof.
  assert (Hset : ∀ property, property ≠ "" → property ≠ "all" →
            property ≠ "" ∧ property ≠ "all"
            ∧ (validDatasetName name = true →
               SetDatasetProperty m name property value
               = error_of (zfs m ["set"; property +:+ "=" +:+ value; name]))).
  { intros property Hne Hall. split; [exact Hne|]. split; [exact Hall|].
    intros Hname. unfold SetDatasetProperty. rewrite Hname. simpl negb.
    rewrite decide_False by (intros [?|?]; [apply Hne|apply Hall]; assumption).
    reflexivity. }
  split; [|split; [|split]].
  - repeat (apply List.Forall_cons); try apply List.Forall_nil;
      try (apply Hset; cbv [zfsprops.UserQuota zfsprops.UserObjQuota
                            zfsprops.GroupQuota zfsprops.GroupObjQuota
                            zfsprops.ProjectQuota zfsprops.ProjectObjQuota
                            zpoolprops.Feature String.append];
           discriminate).
    apply Hset; unfold zfsprops.User.
    + change (":" +:+ y) with (String ":" y). apply app_not_empty.
    + change (":" +:+ y) with (String ":" y). intros H.
      assert (Hc : has_byte ":" (x +:+ String ":" y) = true).
      { rewrite has_byte_app. simpl. apply orb_true_r. }
      rewrite H in Hc. discriminate.
  - split; [discriminate|]. split; [discriminate|].
    unfold GetPoolProperty, get_property.
    destruct (validPoolName name); simpl; [|discriminate].
    unfold zpool, run_tabular. destruct (run_err _); simpl; [discriminate|].
    destruct (first_field _); discriminate.
  - repeat (apply List.Forall_cons); try apply List.Forall_nil;
      try apply app_inj_l.
    unfold zfsprops.User. intros H.
    apply app_inj_l in H. apply (app_inj_l ":") in H. exact H.
  - cbv [zfsprops.UserQuota zfsprops.UserObjQuota
         zfsprops.GroupQuota zfsprops.GroupObjQuota
         zfsprops.ProjectQuota zfsprops.ProjectObjQuota String.append].
    repeat (apply NoDup_cons; split;
            [rewrite ?elem_of_cons, elem_of_nil; intros H;
             repeat (destruct H as [H|H]; [discriminate|]); exact H|]).
    apply NoDup_nil. exact I.
Qed.

(** The theorem on the quota of the user "alice". *)
Lemma built_names_are_accepted_witness :
  SetDatasetProperty (printing_manager "") "tank/a"
    (zfsprops.UserQuota "alice") "10G"
  = None.
Proof.
  pose proof (proj1 (built_names_are_accepted
                       (printing_manager "") "tank/a" "alice" "" "10G")) as H.
  apply Forall_cons in H as [(_ & _ & H) _].
  rewrite (H eq_refl). reflexivity.
Defined.

(** ** The arguments of [zfs create] *)

(** X17. The argument list of [CreateDataset] starts with "create" and ends
    with the name. Without a volume size, the block size and the sparse
    flag change nothing; with a volume size, the unmounted flag changes
    nothing and the list ends with "-V", the size and the name. Hence
    [CreateDataset] returns the same for options that differ in ignored
    fields only. *)
Theorem CreateDataset_ignores_fields
    (m : Manager) (name : string) (props : gmap string string)
    (parents unmounted sparse : bool) (size block : string) :
  let options :=
    mkCreateDatasetOptions name props parents unmounted size block sparse in
  (∃ rest, CreateDataset_args options = "create" :: rest
           ∧ last rest = Some name)
  ∧ (size = "" → ∀ block' sparse',
       CreateDataset_args options
       = CreateDataset_args
           (mkCreateDatasetOptions name props parents unmounted "" block' sparse')
       ∧ CreateDataset m (Some options)
         = CreateDataset m
             (Some (mkCreateDatasetOptions name props parents unmounted ""
                      block' sparse')))
  ∧ (size ≠ "" → ∀ unmounted',
       (∃ front, CreateDataset_args options = front ++ ["-V"; size; name])
       ∧ CreateDataset_args options
         = CreateDataset_args
             (mkCreateDatasetOptions name props parents unmounted' size block
                sparse)
       ∧ CreateDataset m (Some options)
         = CreateDataset m
             (Some (mkCreateDatasetOptions name props parents unmounted' size
                      block sparse))).
Proof.
  intros options. split; [|split].
  - unfold CreateDataset_args. simpl. eexists. split; [reflexivity|].
    rewrite !app_assoc. apply last_snoc.
  - intros -> block' sparse'.
    assert (Hargs : CreateDataset_args options
       = CreateDataset_args
           (mkCreateDatasetOptions name props parents unmounted "" block' sparse')).
    { unfold CreateDataset_args, options. simpl. reflexivity. }
    split; [exact Hargs|]. unfold CreateDataset. now rewrite Hargs.
  - intros Hsize unmounted'.
    assert (Hargs : CreateDataset_args options
       = CreateDataset_args
           (mkCreateDatasetOptions name props parents unmounted' size block
              sparse)).
    { unfold CreateDataset_args, options. simpl.
      rewrite !(decide_False (P := size = "")) by exact Hsize. reflexivity. }
    split; [|split; [exact Hargs|unfold CreateDataset; now rewrite Hargs]].
    unfold CreateDataset_args, options. simpl.
    rewrite (decide_True (P := size ≠ "")) by exact Hsize.
    exists ("create" :: (if parents then ["-p"] else [])
              ++ (if decide (size = "")
                  then (if unmounted then ["-u"] else [])
                  else (if decide (block ≠ "") then ["-b"; block] else [])
                       ++ (if sparse then ["-s"] else []))
              ++ propertyMapFlags "-o" props).
    simpl. rewrite <- !app_assoc. reflexivity.
Qed.

(** The theorem on a volume of 10G. *)
Lemma CreateDataset_ignores_fields_witness :
  CreateDataset_args
    (mkCreateDatasetOptions "tank/vol" ∅ false true "10G" "" false)
  = CreateDataset_args
      (mkCreateDatasetOptions "tank/vol" ∅ false false "10G" "" false).
Proof.
  assert (Hsize : "10G" ≠ "") by discriminate.
  apply (proj1 (proj2 (proj2 (proj2 (CreateDataset_ignores_fields
           (printing_manager "") "tank/vol" ∅ false true false "10G" ""))
           Hsize false))).
Defined.

(** ** Reading the encoder's arguments back *)

Lemma flat_pairs_inj (flag : string) l1 : ∀ l2,
  flat_map (fun prop => [flag; prop]) l1 = flat_map (fun prop => [flag; prop]) l2 →
  l1 = l2.
Proof.
  induction l1 as [|x l1 IH]; intros [|y l2]; simpl; try discriminate;
    [reflexivity|].
  intros [= -> H]. f_equal. exact (IH _ H).
Qed.

Lemma app_sep_inj c k : ∀ k' v v',
  has_byte c k = false → has_byte c k' = false →
  k +:+ String c v = k' +:+ String c v' → k = k' ∧ v = v'.
Proof.
  induction k as [|a k IH]; intros [|a' k'] v v' Hk Hk'; rewrite ?app_String.
  - intros [= ->]. auto.
  - change ("" +:+ String c v) with (String c v). intros [= -> _].
    apply has_byte_cons in Hk' as [Hc _].
    rewrite Ascii.eqb_refl in Hc. discriminate.
  - change ("" +:+ String c v') with (String c v'). intros [= -> _].
    apply has_byte_cons in Hk as [Hc _].
    rewrite Ascii.eqb_refl in Hc. discriminate.
  - intros [= -> H].
    apply has_byte_cons in Hk as [_ Hk]. apply has_byte_cons in Hk' as [_ Hk'].
    destruct (IH _ _ _ Hk Hk' H) as [-> ->]. auto.
Qed.

Lemma encoder_keeps_entries flag (m1 m2 : gmap string string) :
  equals_free m2 →
  propertyMapFlags flag m1 = propertyMapFlags flag m2 →
  ∀ k v, has_byte "=" k = false → m1 !! k = Some v → m2 !! k = Some v.
Proof.
  intros H2 Heq k v Hk Hkv.
  unfold propertyMapFlags, propertyMapFlags_in_order in Heq.
  apply flat_pairs_inj in Heq.
  assert (Hperm : map name_value (map_to_list m1)
                  ≡ₚ map name_value (map_to_list m2)).
  { rewrite <- (sort_Strings_perm (map name_value (map_to_list m1))), Heq.
    apply sort_Strings_perm. }
  assert (Hin : In (name_value (k, v)) (map name_value (map_to_list m1))).
  { apply in_map, list_elem_of_In, elem_of_map_to_list, Hkv. }
  apply (Permutation_in _ Hperm), in_map_iff in Hin as ([k' v'] & Hnv & Hin).
  apply list_elem_of_In, elem_of_map_to_list in Hin.
  unfold name_value in Hnv. simpl in Hnv.
  change ("=" +:+ v') with (String "=" v') in Hnv.
  change ("=" +:+ v) with (String "=" v) in Hnv.
  apply app_sep_inj in Hnv as [-> ->]; [exact Hin| |exact Hk].
  exact (H2 _ _ Hin).
Qed.

(** X18. The argument list of the encoder determines the map, as long as no
    property name holds "=": two such maps with the same argument list are
    the same map. With "=" in a name this fails: the name "a=b" with the
    value "c" and the name "a" with the value "b=c" give the same
    arguments. *)
Theorem propertyMapFlags_determines_map
    (flag : string) (m1 m2 : gmap string string)
    (H1 : equals_free m1) (H2 : equals_free m2) :
  (propertyMapFlags flag m1 = propertyMapFlags flag m2 → m1 = m2)
  ∧ propertyMapFlags flag {["a=b" := "c"]}
    = propertyMapFlags flag {["a" := "b=c"]}.
Proof.
  split.
  - intros Heq. apply map_eq. intros k.
    destruct (m1 !! k) as [v|] eqn:E1.
    + symmetry.
      exact (encoder_keeps_entries flag m1 m2 H2 Heq k v (H1 _ _ E1) E1).
    + destruct (m2 !! k) as [v|] eqn:E2; [|reflexivity].
      rewrite <- E1.
      exact (encoder_keeps_entries flag m2 m1 H1 (eq_sym Heq) k v
               (H2 _ _ E2) E2).
  - unfold propertyMapFlags. rewrite !map_to_list_singleton. reflexivity.
Qed.

(** The theorem on two maps that are built in different orders. *)
Lemma propertyMapFlags_determines_map_witness :
  (<["quota" := "10G"]> (<["atime" := "off"]> ∅) : gmap string string)
  = <["atime" := "off"]> (<["quota" := "10G"]> ∅).
Proof.
  assert (H1 : equals_free (<["quota" := "10G"]> (<["atime" := "off"]> ∅))).
  { intros k v [[<- _]|[_ [[<- _]|[_ H]]%lookup_insert_Some]]%lookup_insert_Some;
      [reflexivity|reflexivity|now rewrite lookup_empty in H]. }
  assert (H2 : equals_free (<["atime" := "off"]> (<["quota" := "10G"]> ∅))).
  { intros k v [[<- _]|[_ [[<- _]|[_ H]]%lookup_insert_Some]]%lookup_insert_Some;
      [reflexivity|reflexivity|now rewrite lookup_empty in H]. }
  apply (proj1 (propertyMapFlags_determines_map "-o" _ _ H1 H2)).
  vm_compute. reflexivity.
Defined.

(** ** Joined dataset types *)

(** X19. A joined list of dataset types can be taken apart again: when the
    list is not empty and no type holds a comma, splitting the joined text
    on commas gives the list back, so different such lists give different
    texts. None of the five type constants holds a comma. *)
Theorem JoinTypes_splits_back (types : list string)
    (Hsome : types ≠ [])
    (Hclean : Forall (fun t => has_byte "," t = false) types) :
  split_on "," (JoinTypes types) = types
  ∧ (∀ types', types' ≠ [] →
       Forall (fun t => has_byte "," t = false) types' →
       JoinTypes types = JoinTypes types' → types = types')
  ∧ Forall (fun t => has_byte "," t = false)
      [AllTypes; BookmarkType; FilesystemType; SnapshotType; VolumeType].
Proof.
  assert (Hback : ∀ l, l ≠ [] → Forall (fun t => has_byte "," t = false) l →
            split_on "," (JoinTypes l) = l).
  { intros l Hl Hall. unfold JoinTypes.
    change ","%string with (String ","%char "").
    rewrite join_sep_one. now apply split_join. }
  split; [now apply Hback|]. split.
  - intros types' Hsome' Hclean' Heq.
    rewrite <- (Hback types Hsome Hclean), Heq. now apply Hback.
  - repeat constructor.
Qed.

(** The theorem on filesystems and volumes. *)
Lemma JoinTypes_splits_back_witness :
  split_on "," (JoinTypes [FilesystemType; VolumeType])
  = [FilesystemType; VolumeType].
Proof.
  assert (Hsome : [FilesystemType; VolumeType] ≠ []) by discriminate.
  assert (Hclean : Forall (fun t => has_byte "," t = false)
                     [FilesystemType; VolumeType])
    by (repeat constructor).
  exact (proj1 (JoinTypes_splits_back [FilesystemType; VolumeType]
                  Hsome Hclean)).
Defined.

(** ** The check of the property name *)

Ltac property_guard :=
  unfold fails_with; split;
  [ intros (err & Herr & Hin);
    match goal with
    | |- ?v = true ∧ _ => destruct v eqn:Hvalid; simpl in Herr
    end;
    [ split; [reflexivity|];
      first [ unfold get_property in Herr | idtac ];
      case_decide; [assumption|exfalso];
      first [ apply error_of_run in Herr
            | (destruct (run_tabular _ _ _ _) as [records|e] eqn:E;
               [destruct (first_field records); simpl in Herr; discriminate|];
               simpl in Herr; injection Herr as <-;
               assert (Hrun : error_of (run_tabular _ _ _ _) = Some e)
                 by (rewrite E; reflexivity);
               apply error_of_run in Hrun as Herr) ];
      revert Hin; sentinel_in
    | exfalso; revert Hin; sentinel_in ]
  | intros [Hvalid Hproperty]; rewrite Hvalid; simpl;
    first [ unfold get_property | idtac ];
    rewrite decide_True by exact Hproperty;
    eexists; split; [reflexivity|]; sentinel_in ].

(** X20. [GetDatasetProperty], [SetDatasetProperty] and [GetPoolProperty]
    fail with [ErrInvalidProperty] exactly when the name is valid and the
    property is empty or "all"; [InheritDatasetProperty] exactly when the
    name is valid and the property is empty, so it passes "all" on to the
    command. A failed command never gives this error. *)
Theorem invalid_property_is_reported
    (m : Manager) (name property value : string) (recursive : bool) :
  (fails_with ErrInvalidProperty
     (error_from (GetDatasetProperty m name property))
   ↔ validDatasetName name = true ∧ (property = "" ∨ property = "all"))
  ∧ (fails_with ErrInvalidProperty (SetDatasetProperty m name property value)
     ↔ validDatasetName name = true ∧ (property = "" ∨ property = "all"))
  ∧ (fails_with ErrInvalidProperty
       (InheritDatasetProperty m name property recursive)
     ↔ validDatasetName name = true ∧ property = "")
  ∧ (fails_with ErrInvalidProperty
       (error_from (GetPoolProperty m name property))
     ↔ validPoolName name = true ∧ (property = "" ∨ property = "all"))
  ∧ (validDatasetName name = true →
     InheritDatasetProperty m name "all" recursive
     = error_of (zfs m (["inherit"] ++ (if recursive then ["-r"] else [])
                        ++ ["all"; name]))).
Proof.
  split; [unfold GetDatasetProperty, zfs; property_guard|].
  split; [unfold SetDatasetProperty, zfs; property_guard|].
  split; [unfold InheritDatasetProperty, zfs; property_guard|].
  split; [unfold GetPoolProperty, zpool; property_guard|].
  intros Hvalid. unfold InheritDatasetProperty. rewrite Hvalid. reflexivity.
Qed.

(** The theorem on the property "all", which [zfs inherit] is given. *)
Lemma invalid_property_is_reported_witness :
  InheritDatasetProperty (printing_manager "") "tank/a" "all" true = None.
Proof.
  rewrite (proj2 (proj2 (proj2 (proj2 (invalid_property_is_reported
             (printing_manager "") "tank/a" "" "" true)))) eq_refl).
  reflexivity.
Defined.

(** ** The unit after a percentage or a ratio *)

Lemma snoc_not_sentinel v c : c ≠ "-"%char → v +:+ String c "" ≠ "-".
Proof.
  intros Hc. destruct v as [|a v].
  - intros [= H]. exact (Hc H).
  - rewrite app_String. intros [= _ H]. exact (app_not_empty _ _ _ H).
Qed.

Lemma TrimSuffix_without v c :
  last_byte v ≠ Some c → GoStrings.TrimSuffix v c = v.
Proof.
  intros Hl. destruct (TrimSuffix_cases v c) as [Heq|[Heq _]]; [|exact Heq].
  exfalso. apply Hl. rewrite Heq. apply snoc_last_byte.
Qed.

(** X21. The unit is optional: [Ratio] reads a value followed by "x" as it
    reads the value alone, and [Percent] reads a value followed by "%" as it
    reads the value alone, for every value that does not itself end with the
    unit and is not "-". Only one unit is taken off: a value that ends with
    "%%" is absent for [Percent]. *)
Theorem unit_suffix_is_optional
    {float64 : Type} (float64_zero : float64)
    (strconv_ParseFloat : string → option float64)
    (p p' : Properties) (property : string) (prop prop' : Property)
    (Hp : p !! property = Some prop) (Hp' : p' !! property = Some prop')
    (Hsentinel : Value prop ≠ "-") :
  (Value prop' = Value prop +:+ "x" → last_byte (Value prop) ≠ Some "x"%char →
   Properties.Ratio float64_zero strconv_ParseFloat p' property
   = Properties.Ratio float64_zero strconv_ParseFloat p property)
  ∧ (Value prop' = Value prop +:+ "%" →
     last_byte (Value prop) ≠ Some "%"%char →
     Properties.Percent p' property = Properties.Percent p property)
  ∧ (Value prop' = Value prop +:+ "%%" →
     Properties.Percent p' property = (0%Z, false)).
Proof.
  split; [|split].
  - intros Hv Hlast. unfold Properties.Ratio. rewrite Hp, Hp', Hv.
    rewrite (decide_True (P := Value prop ≠ "-")) by exact Hsentinel.
    rewrite decide_True by (apply snoc_not_sentinel; discriminate).
    now rewrite TrimSuffix_snoc, TrimSuffix_without.
  - intros Hv Hlast. unfold Properties.Percent. rewrite Hp, Hp', Hv.
    rewrite (decide_True (P := Value prop ≠ "-")) by exact Hsentinel.
    rewrite decide_True by (apply snoc_not_sentinel; discriminate).
    now rewrite TrimSuffix_snoc, TrimSuffix_without.
  - intros Hv. unfold Properties.Percent. rewrite Hp', Hv.
    replace (Value prop +:+ "%%") with ((Value prop +:+ "%") +:+ "%")
      by (now rewrite app_assoc_string).
    rewrite decide_True by (apply snoc_not_sentinel; discriminate).
    rewrite TrimSuffix_snoc, ParseUint_spec.
    unfold is_digit_string. rewrite all_bytes_app. simpl.
    now rewrite !andb_false_r.
Qed.

(** The theorem on the ratios "1.50x" and "1.50", with a float parser that
    accepts everything. *)
Lemma unit_suffix_is_optional_witness :
  Properties.Ratio 0%Z (fun _ => Some 1%Z)
    (store_of "compressratio" "1.50x") "compressratio"
  = Properties.Ratio 0%Z (fun _ => Some 1%Z)
      (store_of "compressratio" "1.50") "compressratio".
Proof.
  assert (Hsentinel : "1.50" ≠ "-") by discriminate.
  assert (Hlast : last_byte "1.50" ≠ Some "x"%char) by discriminate.
  exact (proj1 (unit_suffix_is_optional 0%Z (fun _ => Some 1%Z)
                  (store_of "compressratio" "1.50")
                  (store_of "compressratio" "1.50x") "compressratio"
                  (mkProperty "tank" "compressratio" "1.50" "-")
                  (mkProperty "tank" "compressratio" "1.50x" "-")
                  eq_refl eq_refl Hsentinel)
           eq_refl Hlast).
Defined.

(** ** [Join] and the names of datasets *)

Section path_facts.
Import GoPath.

Lemma no_double_cons c out :
no_double out →
c ≠ "/"%char ∨ out = [] ∨ (∃ c' out', out = c' :: out' ∧ c' ≠ "/"%char) →
no_double (c :: out).
Proof.
intros Hout Hc [|a l1] l2; simpl; intros [= -> H].
- destruct Hc as [Hc|[->|(c' & out' & -> & Hc')]];
    [now apply Hc|discriminate|].
  injection H as -> _. now apply Hc'.
- exact (Hout _ _ H).
Qed.

Lemma no_double_suffix l r : no_double (l ++ r) → no_double r.
Proof.
intros H l1 l2 ->. apply (H (l ++ l1) l2). now rewrite <- app_assoc.
Qed.

Lemma no_double_after_slash l r :
no_double (l ++ "/"%char :: r) →
r = [] ∨ ∃ c r', r = c :: r' ∧ c ≠ "/"%char.
Proof.
intros H. destruct r as [|c r']; [now left|right].
exists c, r'. split; [reflexivity|]. intros ->. now apply (H l r').
Qed.

Lemma starts_well_suffix rooted l r :
starts_well rooted (l ++ r) → r ≠ [] ∨ rooted = false →
starts_well rooted r.
Proof.
unfold starts_well. rewrite last_app.
destruct (last r) as [y|] eqn:Hr; [trivial|].
intros H [Hne| ->]; [|discriminate].
apply last_None in Hr. contradiction.
Qed.

Lemma starts_well_cons rooted c out :
starts_well rooted out → out ≠ [] ∨ (rooted = false ∧ c ≠ "/"%char) →
starts_well rooted (c :: out).
Proof.
unfold starts_well. destruct out as [|a out'].
- intros _ [?|[-> Hc]]; [contradiction|]. simpl. congruence.
- intros H _. exact H.
Qed.

Lemma backtrack_spec pre top : ∀ dropped,
∃ top', backtrack (length pre) dropped (top ++ pre) = top' ++ pre
        ∧ (top' = [] ∨ ∃ l, dropped :: top = l ++ "/"%char :: top').
Proof.
induction top as [|c top IH]; intros dropped.
- exists []. split; [|now left]. simpl.
  destruct pre as [|c pre']; [reflexivity|].
  simpl. now rewrite Nat.ltb_irrefl.
- simpl.
  assert (Hlt : (length pre <? S (length (top ++ pre)))%nat = true).
  { apply Nat.ltb_lt. rewrite length_app. lia. }
  rewrite Hlt. simpl.
  destruct (is_slash dropped) eqn:Hd; simpl.
  + apply Ascii.eqb_eq in Hd as ->.
    exists (c :: top). split; [reflexivity|]. right. now exists [].
  + destruct (IH c) as (top' & Heq & Htop).
    exists top'. split; [exact Heq|].
    destruct Htop as [->|(l & Hl)]; [now left|right].
    exists (dropped :: l). simpl. now rewrite Hl.
Qed.

Lemma dotdot_element_ok rooted out dotdot :
buffer_ok rooted out dotdot →
buffer_ok rooted (dotdot_element rooted out dotdot).1
                 (dotdot_element rooted out dotdot).2.
Proof.
intros ((Hnd & Hend & Hstart) & top & pre & -> & -> & Hpre & Hroot).
unfold dotdot_element.
destruct top as [|c top].
- simpl app. rewrite Nat.ltb_irrefl.
  destruct rooted; simpl negb; cbv iota.
  + simpl. split; [now repeat split|].
    exists [], pre. auto.
  + set (out1 := if (0 <? length pre)%nat then "/"%char :: pre else pre).
    assert (Hnd1 : no_double out1).
    { unfold out1. destruct (0 <? length pre)%nat; [|exact Hnd].
      apply no_double_cons; [exact Hnd|]. right.
      destruct Hpre as [->|[[? _]|?]]; [now left|discriminate|now right]. }
    assert (Hstart1 : starts_well false ("."%char :: out1)).
    { unfold out1. destruct pre as [|a pre']; simpl.
      - unfold starts_well. simpl. discriminate.
      - exact Hstart. }
    assert (Hgood : tidy false ("."%char :: "."%char :: out1)).
    { split; [|split].
      - apply no_double_cons; [|left; discriminate].
        apply no_double_cons; [exact Hnd1|left; discriminate].
      - right. right. eexists _, _. split; [reflexivity|discriminate].
      - apply starts_well_cons; [exact Hstart1|now left]. }
    simpl. split; [exact Hgood|].
    exists [], ("."%char :: "."%char :: out1).
    split; [reflexivity|]. split; [reflexivity|].
    split; [apply Hgood|discriminate].
- assert (Hlt : (length pre <? length ((c :: top) ++ pre))%nat = true).
  { apply Nat.ltb_lt. rewrite length_app. simpl. lia. }
  rewrite Hlt. simpl.
  destruct (backtrack_spec pre top c) as (top' & -> & Htop).
  assert (Hsuffix : ∃ l, (c :: top) ++ pre = l ++ top' ++ pre).
  { destruct Htop as [->|(l & Hl)].
    - now exists (c :: top).
    - exists (l ++ ["/"%char]). rewrite Hl, <- !app_assoc. reflexivity. }
  destruct Hsuffix as (l & Hl).
  split; [split; [|split]|].
  + apply (no_double_suffix l). rewrite <- Hl. exact Hnd.
  + destruct Htop as [->|(l' & Hl')]; [exact Hpre|].
    assert (Hmid : no_double (l' ++ "/"%char :: top' ++ pre)).
    { replace (l' ++ "/"%char :: top' ++ pre) with ((c :: top) ++ pre);
        [exact Hnd|].
      rewrite Hl', <- app_assoc. reflexivity. }
    apply no_double_after_slash in Hmid as [->|?]; [now left|now right; right].
  + apply (starts_well_suffix rooted l); [now rewrite <- Hl|].
    destruct rooted; [left|now right].
    specialize (Hroot eq_refl). destruct top'; [exact Hroot|discriminate].
  + exists top', pre. auto.
Qed.

Lemma clean_loop_ok rooted n : ∀ path copying out dotdot,
String.length path ≤ n → buffer_ok rooted out dotdot →
tidy rooted (clean_loop rooted copying path out dotdot).
Proof.
induction n as [|n IH]; intros path copying out dotdot Hn Hok.
{ destruct path; [apply Hok|simpl in Hn; lia]. }
destruct path as [|c rest]; [apply Hok|].
simpl in Hn.
assert (Happend : ∀ a o, a ≠ "/"%char →
          o = out ∨ (o = "/"%char :: out ∧ out ≠ []
                     ∧ (rooted = true → out ≠ ["/"%char])) →
          buffer_ok rooted (a :: o) dotdot).
{ intros a o Ha Ho.
  destruct Hok as ((Hnd & Hend & Hstart) & top & pre & Hout & Hdd & Hpre & Hroot).
  assert (Hne : rooted = true → out ≠ []).
  { intros Hr ->. apply (Hroot Hr).
    now destruct top, pre. }
  destruct Ho as [->|(-> & Hout1 & Hout2)].
  - split; [split; [|split]|].
    + apply no_double_cons; [exact Hnd|now left].
    + right. right. now exists a, out.
    + apply starts_well_cons; [exact Hstart|].
      destruct rooted; [left; now apply Hne|now right].
    + exists (a :: top), pre. rewrite Hout. auto.
  - split; [split; [|split]|].
    + apply no_double_cons; [|now left].
      apply no_double_cons; [exact Hnd|]. right.
      destruct Hend as [->|[[Hr ->]|?]];
        [now left|now destruct (Hout2 Hr)|now right].
    + right. right. now exists a, ("/"%char :: out).
    + apply starts_well_cons; [|left; discriminate].
      apply starts_well_cons; [exact Hstart|now left].
    + exists (a :: "/"%char :: top), pre. rewrite Hout. auto. }
cbn [clean_loop].
destruct (is_slash c) eqn:Hc; [apply IH; [lia|exact Hok]|].
assert (Hc' : c ≠ "/"%char).
{ intros ->. unfold is_slash in Hc. rewrite Ascii.eqb_refl in Hc. discriminate. }
destruct copying; [apply IH; [lia|]; apply Happend; auto|].
destruct (is_dot c && at_end rest) eqn:Hdot; [apply IH; [lia|exact Hok]|].
assert (Helement :
  tidy rooted
    (clean_loop rooted true rest
       (c :: (if (rooted && negb (length out =? 1)%nat)
                 || (negb rooted && negb (length out =? 0)%nat)
              then "/"%char :: out else out)) dotdot)).
{ apply IH; [lia|]. apply Happend; [exact Hc'|].
  destruct ((rooted && negb (length out =? 1)%nat)
            || (negb rooted && negb (length out =? 0)%nat)) eqn:Hcond;
    [right|now left].
  split; [reflexivity|].
  destruct Hok as (_ & top & pre & Hout & _ & _ & Hroot).
  destruct rooted; simpl in Hcond.
  - rewrite orb_false_r in Hcond. apply negb_true_iff, Nat.eqb_neq in Hcond.
    split; [|intros _ ->; now apply Hcond].
    intros ->. apply (Hroot eq_refl). now destruct top, pre.
  - apply negb_true_iff, Nat.eqb_neq in Hcond.
    split; [|discriminate]. intros ->. now apply Hcond. }
destruct rest as [|c1 rest2]; [exact Helement|].
destruct (is_dot c && is_dot c1 && at_end rest2); [|exact Helement].
pose proof (dotdot_element_ok rooted out dotdot Hok) as Hdd.
destruct (dotdot_element rooted out dotdot) as [out' dotdot'].
apply IH; [simpl in Hn; lia|exact Hdd].
Qed.

Lemma clean_buffer_tidy path :
∃ rooted, tidy rooted (clean_buffer path).
Proof.
destruct path as [|c rest].
- exists false. repeat split; [intros [|? ?] ?; discriminate|now left|].
  unfold starts_well. simpl. discriminate.
- unfold clean_buffer. destruct (is_slash c) eqn:Hc.
  + exists true. apply (clean_loop_ok true _ _ _ _ _ (le_n _)).
    split; [split; [|split]|].
    * intros [|? [|? ?]] ?; discriminate.
    * right. now left.
    * reflexivity.
    * exists [], ["/"%char]. repeat split; [right; now left|discriminate].
  + exists false. apply (clean_loop_ok false _ _ _ _ _ (le_n _)).
    split; [split; [|split]|].
    * intros [|? ?] ?; discriminate.
    * now left.
    * unfold starts_well. simpl. discriminate.
    * exists [], []. repeat split; [now left|discriminate].
Qed.

End path_facts.

Section join_name_facts.
Import GoPath.

Lemma last_byte_of_list l : last_byte (string_of_list_ascii l) = last l.
Proof.
induction l as [|a l IH]; [reflexivity|].
destruct l as [|b l]; [reflexivity|].
change (last_byte (string_of_list_ascii (a :: b :: l)))
  with (last_byte (string_of_list_ascii (b :: l))).
rewrite IH. reflexivity.
Qed.

Lemma valid_of_list a l :
a ≠ "/"%char → last (a :: l) ≠ Some "/"%char →
validDatasetName (string_of_list_ascii (a :: l)) = true.
Proof.
intros Ha Hl. unfold validDatasetName.
change (string_of_list_ascii (a :: l))
  with (String a (string_of_list_ascii l)).
change (String a (string_of_list_ascii l))
  with (string_of_list_ascii (a :: l)) at 2.
rewrite last_byte_of_list, !slash_is.
destruct (Ascii.eqb a "/") eqn:E; [apply Ascii.eqb_eq in E; contradiction|].
simpl negb. rewrite andb_true_l.
destruct (last (a :: l)) as [z|] eqn:Hz;
  [|apply last_None in Hz; discriminate].
rewrite slash_is. destruct (Ascii.eqb z "/") eqn:Ez; [|reflexivity].
apply Ascii.eqb_eq in Ez as ->. congruence.
Qed.

Lemma no_double_rev out : no_double out → no_double (rev out).
Proof.
intros H l1 l2 Hrev. apply (H (rev l2) (rev l1)).
rewrite <- (List.rev_involutive out), Hrev, List.rev_app_distr. simpl.
now rewrite <- !app_assoc.
Qed.

(** What [Join] makes of a cleaned path: the buffer in the order of the
  text, without the root. *)
Lemma trimmed_Clean path :
TrimPrefix (Clean path) "/" = "."
∨ ∃ body, TrimPrefix (Clean path) "/" = string_of_list_ascii body
          ∧ no_double body
          ∧ (body = [] ∨ ∃ a l, body = a :: l ∧ a ≠ "/"%char
                                ∧ last (a :: l) ≠ Some "/"%char).
Proof.
destruct (clean_buffer_tidy path) as (rooted & Hnd & Hend & Hstart).
unfold Clean.
destruct (clean_buffer path) as [|c out'] eqn:Hbuf; [now left|right].
set (out := c :: out') in *.
assert (Hlast : last (rev out) = Some c).
{ unfold out. simpl. now rewrite last_snoc. }
assert (Hrev : no_double (rev out)) by now apply no_double_rev.
assert (Hc : rooted = false ∨ out' ≠ [] → c ≠ "/"%char).
{ intros Hcase. destruct Hend as [?|[[-> [= -> ->]]|(c' & o' & [= <- <-] & ?)]];
    [discriminate| |assumption].
  destruct Hcase; [discriminate|contradiction]. }
destruct (rev out) as [|a l] eqn:Hl; [discriminate|].
assert (Hhead : last out = Some a).
{ rewrite <- (List.rev_involutive out), Hl. simpl. now rewrite last_snoc. }
change (string_of_list_ascii (a :: l)) with (String a (string_of_list_ascii l)).
unfold TrimPrefix, starts_well in *.
destruct rooted.
- rewrite Hhead in Hstart. injection Hstart as ->.
  rewrite Ascii.eqb_refl. exists l.
  split; [reflexivity|]. split; [now apply (no_double_suffix ["/"%char])|].
  destruct l as [|b l']; [now left|right].
  exists b, l'. split; [reflexivity|].
  split; [intros ->; now apply (Hrev [] l')|].
  change (last ("/"%char :: b :: l')) with (last (b :: l')) in Hlast.
  rewrite Hlast. intros [= ->]. apply Hc; [|reflexivity].
  right. intros ->. discriminate.
- assert (Ha : a ≠ "/"%char) by (intros ->; now apply Hstart).
  destruct (Ascii.eqb a "/") eqn:E; [apply Ascii.eqb_eq in E; contradiction|].
  exists (a :: l). split; [reflexivity|]. split; [exact Hrev|].
  right. exists a, l. split; [reflexivity|]. split; [exact Ha|].
  rewrite Hlast. intros [= ->]. apply Hc; [now left|reflexivity].
Qed.

Lemma list_of_app s t :
list_ascii_of_string (s +:+ t)
= list_ascii_of_string s ++ list_ascii_of_string t.
Proof.
induction s as [|a s IH]; [reflexivity|].
rewrite app_String. simpl. now rewrite IH.
Qed.

Lemma copy_plain rooted w : ∀ rest out dotdot,
has_byte "/" w = false →
clean_loop rooted true (w +:+ rest) out dotdot
= clean_loop rooted true rest (rev (list_ascii_of_string w) ++ out) dotdot.
Proof.
induction w as [|a w IH]; intros rest out dotdot Hw; [reflexivity|].
apply has_byte_cons in Hw as [Ha Hw].
rewrite app_String. cbn [clean_loop]. unfold is_slash. rewrite Ha.
rewrite (IH _ _ _ Hw). simpl. now rewrite <- app_assoc.
Qed.

Lemma element_plain w rest out dotdot :
plain_part w → at_end rest = true →
clean_loop false false (w +:+ rest) out dotdot
= clean_loop false true rest
    (rev (list_ascii_of_string w)
     ++ (if negb (length out =? 0)%nat then "/"%char :: out else out))
    dotdot.
Proof.
intros (Hne & Hslash & Hdot & Hdotdot) Hrest.
destruct w as [|c w1]; [contradiction|].
apply has_byte_cons in Hslash as [Hc Hw1].
rewrite app_String. cbn [clean_loop]. unfold is_slash at 1. rewrite Hc.
assert (Hone : is_dot c && at_end (w1 +:+ rest) = false).
{ destruct (is_dot c) eqn:Ec; [|reflexivity].
  apply Ascii.eqb_eq in Ec as ->.
  destruct w1 as [|c1 w2]; [contradiction|].
  apply has_byte_cons in Hw1 as [Hc1 _].
  rewrite app_String. simpl. exact Hc1. }
rewrite Hone. simpl andb. simpl orb.
assert (Helement :
  clean_loop false true (w1 +:+ rest)
    (c :: (if negb (length out =? 0)%nat then "/"%char :: out else out))
    dotdot
  = clean_loop false true rest
      (rev (list_ascii_of_string (String c w1))
       ++ (if negb (length out =? 0)%nat then "/"%char :: out else out))
      dotdot).
{ rewrite (copy_plain false w1 _ _ _ Hw1). simpl.
  now rewrite <- app_assoc. }
destruct (w1 +:+ rest) as [|c1 rest2] eqn:Hw; [exact Helement|].
assert (Htwo : is_dot c && is_dot c1 && at_end rest2 = false).
{ destruct (is_dot c) eqn:Ec; [|reflexivity].
  destruct (is_dot c1) eqn:Ec1; [|reflexivity].
  apply Ascii.eqb_eq in Ec as ->. apply Ascii.eqb_eq in Ec1 as ->.
  destruct w1 as [|c1 w2].
  - change ("" +:+ rest) with rest in Hw. rewrite Hw in Hrest. discriminate.
  - rewrite app_String in Hw. injection Hw as -> <-.
    destruct w2 as [|c2 w3]; [contradiction|].
    apply has_byte_cons in Hw1 as [_ Hw2].
    apply has_byte_cons in Hw2 as [Hc2 _].
    rewrite app_String. simpl. exact Hc2. }
rewrite Htwo. exact Helement.
Qed.

Lemma clean_plain parts : ∀ out dotdot,
parts ≠ [] → Forall plain_part parts →
clean_loop false false (join_with "/" parts) out dotdot
= rev (list_ascii_of_string (join_with "/" parts))
  ++ (if negb (length out =? 0)%nat then "/"%char :: out else out).
Proof.
induction parts as [|w parts IH]; [congruence|]. intros out dotdot _ Hall.
inversion Hall as [|? ? Hw Hparts]; subst.
destruct parts as [|w' parts].
- simpl join_with. rewrite <- (app_empty_r w) at 1.
  now rewrite element_plain.
- rewrite join_with_cons by discriminate.
  rewrite element_plain by (assumption || reflexivity).
  cbn [clean_loop]. change (is_slash "/") with true. cbv iota.
  rewrite IH by (discriminate || assumption).
  assert (Hlen : (length (rev (list_ascii_of_string w)
                    ++ (if negb (length out =? 0)%nat
                        then "/"%char :: out else out)) =? 0)%nat = false).
  { apply Nat.eqb_neq. rewrite length_app, length_rev.
    destruct Hw as (Hne & _). destruct w; [contradiction|]. simpl. lia. }
  rewrite Hlen. simpl negb. cbv iota.
  rewrite list_of_app. simpl list_ascii_of_string.
  rewrite List.rev_app_distr. simpl rev. now rewrite <- !app_assoc.
Qed.

Lemma fold_join_step ps : ∀ buf,
buf ≠ "" → foldl join_step buf ps = join_with "/" (buf :: ps).
Proof.
induction ps as [|e ps IH]; intros buf Hbuf; [reflexivity|].
simpl foldl. unfold join_step at 2.
assert (Hb : String.eqb buf "" = false) by now apply String.eqb_neq.
rewrite Hb. simpl negb. simpl orb. cbv iota.
rewrite IH by (destruct buf; [contradiction|discriminate]).
rewrite (join_with_cons _ buf (e :: ps)) by discriminate.
destruct ps as [|p ps].
- simpl. now rewrite app_assoc_string.
- rewrite !join_with_cons by discriminate.
  now rewrite !app_assoc_string.
Qed.

End join_name_facts.

(** X22. [Join] returns the empty string or a valid dataset name, whatever
    the parts are, and its result never holds two slashes in a row. Parts
    that are plain path elements (not empty, without a slash, neither "."
    nor "..") are joined by single slashes and otherwise left as they
    are. *)
Theorem Join_builds_dataset_names (parts : list string) :
  (Join parts = "" ∨ validDatasetName (Join parts) = true)
  ∧ no_double (list_ascii_of_string (Join parts))
  ∧ (parts ≠ [] → Forall plain_part parts →
     Join parts = join_with "/" parts).
Proof.
  assert (Hgen : ∀ path,
            (TrimPrefix (GoPath.Clean path) "/" = ""
             ∨ validDatasetName (TrimPrefix (GoPath.Clean path) "/") = true)
            ∧ no_double (list_ascii_of_string
                           (TrimPrefix (GoPath.Clean path) "/"))).
  { intros path.
    destruct (trimmed_Clean path) as [->|(body & -> & Hnd & Hbody)].
    - split; [now right|]. intros [|? [|? ?]] ?; discriminate.
    - rewrite list_ascii_of_string_of_list_ascii. split; [|exact Hnd].
      destruct Hbody as [->|(a & l & -> & Ha & Hl)]; [now left|right].
      now apply valid_of_list. }
  split; [|split].
  - unfold Join, GoPath.Join.
    destruct (list_sum (map String.length parts) =? 0)%nat; [now left|].
    apply Hgen.
  - unfold Join, GoPath.Join.
    destruct (list_sum (map String.length parts) =? 0)%nat;
      [intros [|? ?] ?; discriminate|].
    apply Hgen.
  - intros Hsome Hall. destruct parts as [|w ps]; [congruence|].
    inversion Hall as [|? ? Hw Hps]; subst.
    pose proof Hw as (Hne & Hslash & _).
    destruct w as [|c w1] eqn:Ew; [contradiction|]. rewrite <- Ew in *.
    unfold Join, GoPath.Join.
    assert (Hsize : (list_sum (map String.length (w :: ps)) =? 0)%nat = false).
    { apply Nat.eqb_neq. rewrite Ew. simpl. lia. }
    rewrite Hsize. simpl foldl.
    assert (Hfirst : GoPath.join_step "" w = w) by (rewrite Ew; reflexivity).
    rewrite Hfirst, fold_join_step by (rewrite Ew; discriminate).
    assert (Hpath : ∃ rest, join_with "/" (w :: ps) = String c rest).
    { destruct ps; [exists w1; now rewrite Ew|].
      rewrite join_with_cons by discriminate. rewrite Ew, app_String. eauto. }
    destruct Hpath as (rest & Hpath).
    assert (Hc : GoPath.is_slash c = false).
    { rewrite Ew in Hslash. now apply has_byte_cons in Hslash as [? _]. }
    unfold GoPath.Clean, GoPath.clean_buffer. rewrite Hpath, Hc, <- Hpath.
    rewrite clean_plain by (discriminate || assumption).
    simpl negb. cbv iota. rewrite app_nil_r.
    destruct (rev (list_ascii_of_string (join_with "/" (w :: ps)))) eqn:Hrev.
    { rewrite Hpath in Hrev. simpl in Hrev. now destruct (rev _). }
    rewrite <- Hrev, List.rev_involutive, string_of_list_ascii_of_string.
    rewrite Hpath. unfold TrimPrefix. unfold GoPath.is_slash in Hc.
    now rewrite Hc.
Qed.

(** The theorem on the parts "tank" and "data". *)
Lemma Join_builds_dataset_names_witness :
  Join ["tank"; "data"] = "tank/data".
Proof.
  assert (Hsome : ["tank"; "data"] ≠ []) by discriminate.
  assert (Hplain : Forall plain_part ["tank"; "data"]).
  { repeat constructor; discriminate. }
  exact (proj2 (proj2 (Join_builds_dataset_names ["tank"; "data"]))
           Hsome Hplain).
Defined.

(** ** The depth of a listing *)

Section decimal_facts.

Lemma string_of_uint_acc d : ∀ acc,
digits_value (Z.pos acc) (NilEmpty.string_of_uint d)
= Z.pos (Pos.of_uint_acc d acc).
Proof.
induction d; intros acc; simpl; [reflexivity|..];
  rewrite <- IHd; f_equal; unfold digit_val, byte_val; simpl; lia.
Qed.

Lemma string_of_uint_value d :
digits_value 0 (NilEmpty.string_of_uint d) = Z.of_N (Pos.of_uint d).
Proof.
induction d; simpl; [reflexivity|exact IHd|..];
  rewrite <- string_of_uint_acc; reflexivity.
Qed.

Lemma string_of_uint_digits d :
all_bytes is_digit (NilEmpty.string_of_uint d) = true.
Proof. induction d; simpl; [reflexivity|..]; exact IHd. Qed.

Lemma FormatUint_reads_back n :
(0 ≤ n < 2 ^ 64)%Z → GoStrconv.ParseUint (FormatUint n) = Some n.
Proof.
intros Hn. apply ParseUint_Some. unfold FormatUint.
assert (Hnil : N.to_uint (Z.to_N n) ≠ Decimal.Nil).
{ destruct (Z.to_N n); [discriminate|apply Unsigned.to_uint_nonnil]. }
assert (Hsame : NilZero.string_of_uint (N.to_uint (Z.to_N n))
                = NilEmpty.string_of_uint (N.to_uint (Z.to_N n))).
{ destruct (N.to_uint (Z.to_N n)); [contradiction|reflexivity..]. }
rewrite Hsame. split; [|split; [|lia]].
- unfold is_digit_string. rewrite string_of_uint_digits, andb_true_r.
  destruct (N.to_uint (Z.to_N n)); [contradiction|reflexivity..].
- rewrite string_of_uint_value.
  change (Pos.of_uint (N.to_uint (Z.to_N n)))
    with (N.of_uint (N.to_uint (Z.to_N n))).
  rewrite DecimalN.Unsigned.of_to. lia.
Qed.

End decimal_facts.

(** X23. A depth above zero is passed to [zfs] as "-d" and a decimal text
    that reads back as the same number, in [ListDatasets] and in
    [ListDatasetNames] alike; the depth zero is passed as "-r", with no
    number. The type follows as "-t" and its text, and the filter comes
    last when it is not empty. *)
Theorem depth_is_passed_in_decimal
    (filter typ : string) (depth : Z) (properties : list string) :
  ((0 < depth < 2 ^ 64)%Z →
   ∃ text, GoStrconv.ParseUint text = Some depth
     ∧ ListDatasets_args filter depth typ properties
       = ["get"; "-Hp"; "-o"; "name,property,value,source"; "-d"; text;
          "-t"; typ; query_properties properties]
         ++ (if decide (filter = "") then [] else [filter])
     ∧ ListDatasetNames_args filter depth typ
       = ["list"; "-H"; "-o"; "name"; "-d"; text; "-t"; typ]
         ++ (if decide (filter = "") then [] else [filter]))
  ∧ ListDatasets_args filter 0 typ properties
    = ["get"; "-Hp"; "-o"; "name,property,value,source"; "-r";
       "-t"; typ; query_properties properties]
      ++ (if decide (filter = "") then [] else [filter])
  ∧ ListDatasetNames_args filter 0 typ
    = ["list"; "-H"; "-o"; "name"; "-r"; "-t"; typ]
      ++ (if decide (filter = "") then [] else [filter]).
Proof.
  assert (Hfilter : filter_args filter
                    = if decide (filter = "") then [] else [filter]).
  { unfold filter_args. destruct (decide (filter = "")) as [->|Hne].
    - reflexivity.
    - now rewrite decide_True. }
  unfold ListDatasets_args, ListDatasetNames_args. rewrite Hfilter.
  split; [|split; reflexivity].
  intros Hdepth. exists (FormatUint depth).
  split; [apply FormatUint_reads_back; lia|].
  unfold depth_args.
  assert (Hpos : (0 <? depth)%Z = true) by (apply Z.ltb_lt; lia).
  rewrite Hpos. split; reflexivity.
Qed.

(** The theorem on a listing of depth 2. *)
Lemma depth_is_passed_in_decimal_witness :
  ∃ text, GoStrconv.ParseUint text = Some 2%Z
    ∧ ListDatasetNames_args "tank" 2 "filesystem"
      = ["list"; "-H"; "-o"; "name"; "-d"; text; "-t"; "filesystem"; "tank"].
Proof.
  assert (Hdepth : (0 < 2 < 2 ^ 64)%Z) by (split; reflexivity).
  destruct (proj1 (depth_is_passed_in_decimal "tank" "filesystem" 2 [])
              Hdepth) as (text & Hread & _ & Hargs).
  exists text. split; [exact Hread|exact Hargs].
Defined.

(** ** Byte counts read as sizes and as numbers *)

(** X24. On a plain byte count, a decimal digit string below 2^64 whose
    value has at most 53 significant bits (every value below 2^53 has),
    [Bytes] and [Uint64] return the same number. Beyond that they can
    differ: [Uint64] reads 2^53 + 1 as it is and [Bytes] returns 2^53. *)
Theorem Bytes_agrees_with_Uint64
    (p : Properties) (property : string) (prop : Property)
    (Hprop : p !! property = Some prop)
    (Hds : is_digit_string (Value prop) = true)
    (Hfit : fits_float64 (digits_value 0 (Value prop)))
    (Hsmall : (digits_value 0 (Value prop) < 2 ^ 64)%Z) :
  Properties.Bytes p property = (digits_value 0 (Value prop), true)
  ∧ Properties.Uint64 p property = (digits_value 0 (Value prop), true)
  ∧ Properties.Uint64 (store_of "used" "9007199254740993") "used"
    = (9007199254740993%Z, true)
  ∧ Properties.Bytes (store_of "used" "9007199254740993") "used"
    = (9007199254740992%Z, true).
Proof.
  split; [|split; [|split; vm_compute; reflexivity]].
  - unfold Properties.Bytes. rewrite Hprop.
    rewrite decide_True by (apply digit_string_not_sentinel, Hds).
    now rewrite parseSize_digits.
  - apply Uint64_reads. exists prop. auto.
Qed.

(** The theorem on the byte count "1048576". *)
Lemma Bytes_agrees_with_Uint64_witness :
  Properties.Bytes (store_of "used" "1048576") "used" = (1048576%Z, true)
  ∧ Properties.Uint64 (store_of "used" "1048576") "used" = (1048576%Z, true).
Proof.
  assert (Hfit : fits_float64 (digits_value 0 "1048576"))
    by (exists 1048576%Z, 0%Z; repeat split; solve [lia | reflexivity]).
  assert (Hsmall : (digits_value 0 "1048576" < 2 ^ 64)%Z) by reflexivity.
  destruct (Bytes_agrees_with_Uint64 (store_of "used" "1048576") "used"
              (mkProperty "tank" "used" "1048576" "-")
              eq_refl eq_refl Hfit Hsmall) as (HB & HU & _).
  split; [exact HB|exact HU].
Defined.
